(** * Animation-Builder: the sketch canvas scheduler, the narration cache,
      the export walk and the history store, embedded from the TypeScript
      sources and verified against the written specification.

    Layout:
    - [Js]            JavaScript strings (UTF-16 code units), values, thrown
                      values, [String.prototype.trim]
    - [SketchCanvas]  components/SketchCanvas: [runAnimation], the command
                      queue, timers and animation frames
    - [Narration]     App: [getAudioKey], [ensureAudioLoaded],
                      [playAudioForStep], [handleExportVideo]
    - [Storage]       services/storageService: the three history operations
*)

From Stdlib Require Import QArith.
From Stdlib Require Import Ascii String.
From stdpp Require Import gmap list strings fin_maps sorting.

Local Open Scope nat_scope.
#[local] Set Warnings "-register-all".

(* ===================================================================== *)
(** ** JavaScript data *)
(* ===================================================================== *)

Module Js.

(** A JavaScript string is a sequence of UTF-16 code units. *)
Abbreviation jsstring := (list N).

(** ASCII literals, for the constants the sources spell out. *)
Definition lit (s : string) : jsstring :=
  map N_of_ascii (list_ascii_of_string s).

Arguments lit : simpl never.

(** Values as far as the sources inspect them: primitives, arrays and plain
    objects (own enumerable fields, in insertion order).  Numbers are only
    carried around, compared with [===] or divided by two; rationals keep
    that exact. *)
Inductive JsVal : Type :=
| JUndefined
| JNull
| JBool (b : bool)
| JNumber (q : Q)
| JString (s : jsstring)
| JArray (items : list JsVal)
| JObject (fields : list (jsstring * JsVal)).

(** [ECMAScript WhiteSpace + LineTerminator], the set [trim] strips. *)
Definition isWhiteSpace (c : N) : bool :=
  ((c =? 0x09) || (c =? 0x0A) || (c =? 0x0B) || (c =? 0x0C) || (c =? 0x0D)
   || (c =? 0x20) || (c =? 0xA0) || (c =? 0x1680)
   || ((0x2000 <=? c) && (c <=? 0x200A))
   || (c =? 0x2028) || (c =? 0x2029) || (c =? 0x202F) || (c =? 0x205F)
   || (c =? 0x3000) || (c =? 0xFEFF))%N.

Fixpoint trimStart (s : jsstring) : jsstring :=
  match s with
  | c :: s' => if isWhiteSpace c then trimStart s' else s
  | [] => []
  end.

Definition trimEnd (s : jsstring) : jsstring := rev (trimStart (rev s)).

(** [s.trim()] *)
Definition trim (s : jsstring) : jsstring := trimEnd (trimStart s).

(** [s.includes(t)] on strings. *)
Fixpoint isPrefixOf (t s : jsstring) : bool :=
  match t, s with
  | [], _ => true
  | a :: t', b :: s' => (a =? b)%N && isPrefixOf t' s'
  | _ :: _, [] => false
  end.

Fixpoint includes (s t : jsstring) : bool :=
  isPrefixOf t s ||
  match s with
  | [] => false
  | _ :: s' => includes s' t
  end.

(** Own-property read [v.p]; a missing field, or any field of a primitive
    that the sources ask for, reads as [undefined]. *)
Fixpoint assoc (p : jsstring) (fields : list (jsstring * JsVal)) : JsVal :=
  match fields with
  | [] => JUndefined
  | (k, v) :: rest => if decide (k = p) then v else assoc p rest
  end.

Definition getField (v : JsVal) (p : jsstring) : JsVal :=
  match v with
  | JObject fields => assoc p fields
  | _ => JUndefined
  end.

(** Optional chaining [v?.p]. *)
Definition optField (v : JsVal) (p : jsstring) : JsVal :=
  match v with
  | JUndefined | JNull => JUndefined
  | _ => getField v p
  end.

(** [v === n] for a number literal [n]. *)
Definition strictEqNumber (v : JsVal) (n : Q) : bool :=
  match v with
  | JNumber q => Qeq_bool q n
  | _ => false
  end.

(** [v === s] for a string [s]. *)
Definition strictEqString (v : JsVal) (s : jsstring) : bool :=
  match v with
  | JString t => bool_decide (t = s)
  | _ => false
  end.

(** The [TypeError] the engine throws on a bad call or property read. *)
Definition TypeError (msg : string) : JsVal :=
  JObject [(lit "name", JString (lit "TypeError"));
           (lit "message", JString (lit msg))].

(** [new Error(msg)] *)
Definition Error (msg : string) : JsVal :=
  JObject [(lit "name", JString (lit "Error"));
           (lit "message", JString (lit msg))].

End Js.

Import Js.

(* ===================================================================== *)
(** ** components/SketchCanvas *)
(* ===================================================================== *)

Module SketchCanvas.

(** What step code can invoke: a method of the proxied [rc], or one of the
    three helpers.  Arguments are the values passed at the call. *)
Inductive PrimCall : Type :=
| RcMethod (prop : jsstring) (args : list JsVal)
| DrawArrow (x1 y1 x2 y2 options : JsVal)
| DrawCurve (x1 y1 x2 y2 offset options : JsVal)
| DrawText (text x y options : JsVal).

(** A queued closure, defunctionalised: which real draw it performs when it
    is finally called, over the arguments captured at the call. *)
Inductive DrawCommand : Type :=
| CmdRc (prop : jsstring) (args : list JsVal)
| CmdArrow (x1 y1 x2 y2 options : JsVal)
| CmdCurve (x1 y1 x2 y2 offset options : JsVal)
| CmdText (text x y options : JsVal).

(** The behaviour of one step's code string under
    [new Function('rc', ..., code)(rcProxy, ...)]: the primitive calls it
    makes, in program order, until it returns or throws.  Every wrapper
    returns [undefined], so the code learns nothing from a call.  A string
    that does not parse is [Raise] at once ([new Function] throws).  What
    the code does besides (painting on the raw [ctx] it is also handed,
    catching its own errors, keeping a helper for a later callback) is not
    part of this trace. *)
Inductive StepCode : Type :=
| Done
| Raise (e : JsVal)
| Call (c : PrimCall) (rest : StepCode).

(** The primitive calls a step's code makes. *)
Fixpoint invocations (code : StepCode) : list PrimCall :=
  match code with
  | Done | Raise _ => []
  | Call c rest => c :: invocations rest
  end.

(** Default parameter [p = d]: used when the argument is [undefined]. *)
Definition orDefault (d v : JsVal) : JsVal :=
  match v with
  | JUndefined => d
  | _ => v
  end.

Definition STAGGER_DELAY : nat := 200.

Section Component.

(** The raster surface with the 2D context and rough.js on top of it are
    outside the sources: [fillWhite w h] is
    [ctx.fillStyle = '#ffffff'; ctx.fillRect(0, 0, w, h)], [perform c]
    runs the body of queued closure [c] and reports what it threw, if
    anything, and [rc_is_function p] is [typeof rc[p] === 'function']. *)
Variable Canvas : Type.
Variable fillWhite : Q -> Q -> Canvas -> Canvas.
Variable perform : DrawCommand -> Canvas -> Canvas * option JsVal.
Variable rc_is_function : jsstring -> bool.

(** [addToQueue]: [commandQueue.push(fn)] *)
Definition addToQueue (fn : DrawCommand) (commandQueue : list DrawCommand)
  : list DrawCommand :=
  commandQueue ++ [fn].

(** The [get] trap of [rcProxy]: a function-valued property is replaced by
    a wrapper that queues the real call; anything else is handed out as it
    is, and calling it is a [TypeError] in the step's code. *)
Definition rcProxy (prop : jsstring) (args : list JsVal)
    (commandQueue : list DrawCommand) : JsVal + list DrawCommand :=
  if rc_is_function prop
  then inr (addToQueue (CmdRc prop args) commandQueue)
  else inl (TypeError "rc[prop] is not a function").

Definition drawArrow (x1 y1 x2 y2 options : JsVal)
    (commandQueue : list DrawCommand) : list DrawCommand :=
  addToQueue (CmdArrow x1 y1 x2 y2 (orDefault (JObject []) options))
    commandQueue.

Definition drawCurve (x1 y1 x2 y2 offset options : JsVal)
    (commandQueue : list DrawCommand) : list DrawCommand :=
  addToQueue
    (CmdCurve x1 y1 x2 y2 (orDefault (JNumber 0) offset)
       (orDefault (JObject []) options))
    commandQueue.

Definition drawText (text x y options : JsVal)
    (commandQueue : list DrawCommand) : list DrawCommand :=
  addToQueue (CmdText text x y (orDefault (JObject []) options))
    commandQueue.

(** One primitive call against the instrumented tools. *)
Definition invoke (c : PrimCall) (commandQueue : list DrawCommand)
  : JsVal + list DrawCommand :=
  match c with
  | RcMethod prop args => rcProxy prop args commandQueue
  | DrawArrow x1 y1 x2 y2 o => inr (drawArrow x1 y1 x2 y2 o commandQueue)
  | DrawCurve x1 y1 x2 y2 off o =>
      inr (drawCurve x1 y1 x2 y2 off o commandQueue)
  | DrawText t x y o => inr (drawText t x y o commandQueue)
  end.

(** The closure a successful call leaves in the queue. *)
Definition closureOf (c : PrimCall) : DrawCommand :=
  match c with
  | RcMethod prop args => CmdRc prop args
  | DrawArrow x1 y1 x2 y2 o => CmdArrow x1 y1 x2 y2 (orDefault (JObject []) o)
  | DrawCurve x1 y1 x2 y2 off o =>
      CmdCurve x1 y1 x2 y2 (orDefault (JNumber 0) off)
        (orDefault (JObject []) o)
  | DrawText t x y o => CmdText t x y (orDefault (JObject []) o)
  end.

(** [drawFunction(rcProxy, ctx, width, height, drawArrow, drawCurve,
    drawText)]: runs the step's code, filling the queue; the second
    component is what it threw, if it did. *)
Fixpoint drawFunction (code : StepCode) (commandQueue : list DrawCommand)
  : list DrawCommand * option JsVal :=
  match code with
  | Done => (commandQueue, None)
  | Raise e => (commandQueue, Some e)
  | Call c rest =>
      match invoke c commandQueue with
      | inr q => drawFunction rest q
      | inl e => (commandQueue, Some e)
      end
  end.

(** A pending [setTimeout]: its id, when it is due, and its callback
    [() => requestAnimationFrame(() => { try { command() } catch ... })]
    for the command at [tIndex]. *)
Record Timer : Type := mkTimer {
  timerId : nat;
  due : nat;
  tIndex : nat;
  tCommand : DrawCommand
}.

Inductive ConsoleEntry : Type :=
| LogSketchFailed (err : JsVal)
| LogCommandFailed (index : nat) (err : JsVal).

(** The component and the part of the browser it talks to.  [executed]
    is a ghost log of the commands that were actually called. *)
Record Sketch : Type := mkSketch {
  surface : Canvas;
  canvasRef : bool;
  error : option jsstring;
  timeoutsRef : list nat;
  timers : list Timer;
  rafQueue : list (nat * DrawCommand);
  nextTimerId : nat;
  clock : nat;
  executed : list (nat * DrawCommand);
  console : list ConsoleEntry
}.

Definition setSurface (cv : Canvas) (s : Sketch) : Sketch :=
  mkSketch cv (canvasRef s) (error s) (timeoutsRef s) (timers s)
    (rafQueue s) (nextTimerId s) (clock s) (executed s) (console s).

Definition setError (e : option jsstring) (s : Sketch) : Sketch :=
  mkSketch (surface s) (canvasRef s) e (timeoutsRef s) (timers s)
    (rafQueue s) (nextTimerId s) (clock s) (executed s) (console s).

Definition setTimeoutsRef (ids : list nat) (s : Sketch) : Sketch :=
  mkSketch (surface s) (canvasRef s) (error s) ids (timers s)
    (rafQueue s) (nextTimerId s) (clock s) (executed s) (console s).

Definition setTimers (ts : list Timer) (s : Sketch) : Sketch :=
  mkSketch (surface s) (canvasRef s) (error s) (timeoutsRef s) ts
    (rafQueue s) (nextTimerId s) (clock s) (executed s) (console s).

Definition setRafQueue (q : list (nat * DrawCommand)) (s : Sketch) : Sketch :=
  mkSketch (surface s) (canvasRef s) (error s) (timeoutsRef s) (timers s)
    q (nextTimerId s) (clock s) (executed s) (console s).

Definition consoleError (entry : ConsoleEntry) (s : Sketch) : Sketch :=
  mkSketch (surface s) (canvasRef s) (error s) (timeoutsRef s) (timers s)
    (rafQueue s) (nextTimerId s) (clock s) (executed s) (console s ++ [entry]).

(** [setTimeout(cb, delay)]: registers the callback and returns its id. *)
Definition setTimeout (index : nat) (command : DrawCommand) (delay : nat)
    (s : Sketch) : nat * Sketch :=
  let id := nextTimerId s in
  (id,
   mkSketch (surface s) (canvasRef s) (error s) (timeoutsRef s)
     (timers s ++ [mkTimer id (clock s + delay) index command])
     (rafQueue s) (S id) (clock s) (executed s) (console s)).

(** [clearTimeout(id)]: a pending timeout is dropped; one that already
    fired, or an unknown id, is left alone. *)
Definition clearTimeout (id : nat) (s : Sketch) : Sketch :=
  setTimers (filter (fun t => timerId t ≠ id) (timers s)) s.

(** [timeoutsRef.current.forEach(clearTimeout)] *)
Definition clearAll (s : Sketch) : Sketch :=
  foldl (fun st id => clearTimeout id st) s (timeoutsRef s).

(** [commandQueue.forEach((command, index) => { const id = setTimeout(...,
    index * STAGGER_DELAY); timeoutsRef.current.push(id) })], entered at
    [index]. *)
Fixpoint schedule (index : nat) (commandQueue : list DrawCommand)
    (s : Sketch) : Sketch :=
  match commandQueue with
  | [] => s
  | command :: rest =>
      let '(id, s1) := setTimeout index command (index * STAGGER_DELAY) s in
      schedule (S index) rest (setTimeoutsRef (timeoutsRef s1 ++ [id]) s1)
  end.

(** [runAnimation()], for the props [code], [width], [height], together with
    the final contents of its local [commandQueue]. *)
Definition runAnimation_queue (code : StepCode) (width height : Q)
    (s : Sketch) : Sketch * list DrawCommand :=
  if negb (canvasRef s) then (s, []) else
  let s := setSurface (fillWhite width height (surface s)) s in
  let s := clearAll s in
  let s := setTimeoutsRef [] s in
  let s := setError None s in
  match drawFunction code [] with
  | (commandQueue, None) => (schedule 0 commandQueue s, commandQueue)
  | (commandQueue, Some err) =>
      let s := consoleError (LogSketchFailed err) s in
      let s := setError (Some (lit "Could not draw this step.")) s in
      (s,
       drawText (JString (lit "Oops! Drawing Error."))
         (JNumber (width / 2)) (JNumber (height / 2))
         (JObject [(lit "color", JString (lit "#ef4444"));
                   (lit "size", JNumber 40)])
         commandQueue)
  end.

Definition runAnimation (code : StepCode) (width height : Q) (s : Sketch)
  : Sketch :=
  fst (runAnimation_queue code width height s).

(** The animation-frame callback of one command:
    [try { command() } catch (e) { console.error(..., index, e) }]. *)
Definition runCommand (s : Sketch) (entry : nat * DrawCommand) : Sketch :=
  let '(cv, thrown) := perform (snd entry) (surface s) in
  let s1 :=
    mkSketch cv (canvasRef s) (error s) (timeoutsRef s) (timers s)
      (rafQueue s) (nextTimerId s) (clock s) (executed s ++ [entry])
      (console s) in
  match thrown with
  | Some e => consoleError (LogCommandFailed (fst entry) e) s1
  | None => s1
  end.

(** What happens to a mounted canvas, one event-loop task at a time. *)
Inductive Event : Type :=
| Tick (ms : nat)                     (* time passes *)
| TimeoutFires (id : nat)             (* the browser runs a due timeout *)
| AnimationFrame                      (* the browser runs the frame callbacks *)
| Run (code : StepCode) (width height : Q)
                                      (* the effect body, or [replay()] *)
| Cleanup.                            (* the effect's cleanup function *)

Definition fireTimeout (id : nat) (s : Sketch) : Sketch :=
  match filter (fun t => timerId t = id) (timers s) with
  | t :: _ =>
      if decide (due t ≤ clock s)
      then setRafQueue (rafQueue s ++ [(tIndex t, tCommand t)])
             (setTimers (filter (fun t => timerId t ≠ id) (timers s)) s)
      else s
  | [] => s
  end.

Definition animationFrame (s : Sketch) : Sketch :=
  foldl runCommand (setRafQueue [] s) (rafQueue s).

Definition advance (ms : nat) (s : Sketch) : Sketch :=
  mkSketch (surface s) (canvasRef s) (error s) (timeoutsRef s) (timers s)
    (rafQueue s) (nextTimerId s) (clock s + ms) (executed s) (console s).

Definition dispatch (s : Sketch) (ev : Event) : Sketch :=
  match ev with
  | Tick ms => advance ms s
  | TimeoutFires id => fireTimeout id s
  | AnimationFrame => animationFrame s
  | Run code width height => runAnimation code width height s
  | Cleanup => clearAll s
  end.

Definition dispatchAll (s : Sketch) (evs : list Event) : Sketch :=
  foldl dispatch s evs.

(** Events of a replay that nobody interrupts. *)
Definition undisturbed (ev : Event) : bool :=
  match ev with
  | Tick _ | TimeoutFires _ | AnimationFrame => true
  | Run _ _ _ | Cleanup => false
  end.

(** The replay has nothing left to do. *)
Definition idle (s : Sketch) : Prop :=
  timers s = [] ∧ rafQueue s = [].

(** Let every timeout of the ids [ids] fire at its due time, each followed
    by a frame: the browser's schedule when nothing else goes on. *)
Definition playThrough (ids : list nat) : list Event :=
  flat_map (fun id => [Tick STAGGER_DELAY; TimeoutFires id; AnimationFrame])
    ids.

(** A freshly mounted component. *)
Definition mounted (cv : Canvas) : Sketch :=
  mkSketch cv true None [] [] [] 0 0 [] [].

End Component.

Arguments Sketch Canvas : clear implicits.
Arguments mkSketch {Canvas}.
Arguments surface {Canvas} s.
Arguments canvasRef {Canvas} s.
Arguments error {Canvas} s.
Arguments timeoutsRef {Canvas} s.
Arguments timers {Canvas} s.
Arguments rafQueue {Canvas} s.
Arguments nextTimerId {Canvas} s.
Arguments clock {Canvas} s.
Arguments executed {Canvas} s.
Arguments console {Canvas} s.
Arguments setSurface {Canvas}.
Arguments setError {Canvas}.
Arguments setTimeoutsRef {Canvas}.
Arguments setTimers {Canvas}.
Arguments setRafQueue {Canvas}.
Arguments consoleError {Canvas}.
Arguments setTimeout {Canvas}.
Arguments clearTimeout {Canvas}.
Arguments clearAll {Canvas}.
Arguments schedule {Canvas}.
Arguments runAnimation_queue {Canvas}.
Arguments runAnimation {Canvas}.
Arguments runCommand {Canvas}.
Arguments fireTimeout {Canvas}.
Arguments animationFrame {Canvas}.
Arguments advance {Canvas}.
Arguments dispatch {Canvas}.
Arguments dispatchAll {Canvas}.
Arguments idle {Canvas}.
Arguments mounted {Canvas}.

(** The timers [schedule] registers for a queue entered at [index]. *)
Definition newTimers {Canvas} (s : Sketch Canvas) (index : nat)
    (q : list DrawCommand) : list Timer :=
  imap (fun k c =>
          mkTimer (nextTimerId s + k)
            (clock s + (index + k) * STAGGER_DELAY) (index + k) c) q.

(** A queue with its positions, as the frame callbacks log it. *)
Definition entries (q : list DrawCommand) : list (nat * DrawCommand) :=
  imap (fun i c => (i, c)) q.

(** Every command that waits in a timer or in the frame queue, or that
    was executed already. *)
Definition timerEntry (t : Timer) : nat * DrawCommand :=
  (tIndex t, tCommand t).

Definition pendingOrDone {Canvas} (s : Sketch Canvas)
  : list (nat * DrawCommand) :=
  map timerEntry (timers s) ++ rafQueue s ++ executed s.

(** Command [c] throws [e] whenever it is executed. *)
Definition alwaysThrows {Canvas}
    (perform : DrawCommand -> Canvas -> Canvas * option JsVal)
    (c : DrawCommand) (e : JsVal) : Prop :=
  forall cv, snd (perform c cv) = Some e.

(** What an undisturbed replay keeps true from one event to the next:
    timer ids stay distinct, no command is lost or duplicated, the log of
    executed commands only grows, and a command that throws leaves its
    line on the console. *)
Definition carriesOn {Canvas}
    (perform : DrawCommand -> Canvas -> Canvas * option JsVal)
    (s s' : Sketch Canvas) : Prop :=
  NoDup (map timerId (timers s'))
  /\ pendingOrDone s' ≡ₚ pendingOrDone s
  /\ (exists more,
        executed s' = executed s ++ more
        /\ forall i c e, (i, c) ∈ more -> alwaysThrows perform c e ->
             LogCommandFailed i e ∈ console s')
  /\ (forall x, x ∈ console s -> x ∈ console s')
  /\ error s' = error s.

(** Every pending timeout is one the component remembers. *)
Definition registered {Canvas} (s : Sketch Canvas) : Prop :=
  forall t, t ∈ timers s -> timerId t ∈ timeoutsRef s.

(** The command the [catch] block of [runAnimation] queues. *)
Definition errorNotice (width height : Q) : DrawCommand :=
  CmdText (JString (lit "Oops! Drawing Error."))
    (JNumber (width / 2)) (JNumber (height / 2))
    (JObject [(lit "color", JString (lit "#ef4444"));
              (lit "size", JNumber 40)]).

(** [String(text).split(/\r?\n|\\n/)] for a string [text], as the text
    closure does before painting: the text is cut at every line feed
    (together with a carriage return right before it) and at every
    backslash followed by the letter n.  [line] holds the units of the
    current line read so far. *)
Fixpoint splitLines (text line : jsstring) : list jsstring :=
  match text with
  | [] => [line]
  | c :: rest =>
      match rest with
      | d :: rest' =>
          if ((c =? 13) && (d =? 10) || (c =? 92) && (d =? 110))%N
          then line :: splitLines rest' []
          else if (c =? 10)%N then line :: splitLines rest []
          else splitLines rest (line ++ [c])
      | [] => if (c =? 10)%N then [line; []] else [line ++ [c]]
      end
  end.

Definition textLines (text : jsstring) : list jsstring := splitLines text [].

(** The three separators the pattern accepts. *)
Inductive LineBreak : Type := LF | CRLF | BackslashN.

Definition breakUnits (b : LineBreak) : jsstring :=
  match b with
  | LF => [10%N]
  | CRLF => [13%N; 10%N]
  | BackslashN => [92%N; 110%N]
  end.

(** A line without carriage return, line feed or backslash. *)
Definition plainLine (line : jsstring) : Prop :=
  Forall (fun c => c ≠ 10%N /\ c ≠ 13%N /\ c ≠ 92%N) line.

(** Lines joined by separators of one's choice: a first line, then
    separator and line, any number of times. *)
Fixpoint joinLines (first : jsstring) (more : list (LineBreak * jsstring))
  : jsstring :=
  match more with
  | [] => first
  | (b, line) :: more' => first ++ breakUnits b ++ joinLines line more'
  end.

(** The replay was started at [start] with the log at length [n]: no
    timer is due before its stagger time, and what waits for a frame or
    was executed since has reached its stagger time. *)
Definition paced {Canvas} (start n : nat) (s : Sketch Canvas) : Prop :=
  (forall t, t ∈ timers s -> start + tIndex t * STAGGER_DELAY ≤ due t)
  /\ (forall e, e ∈ rafQueue s -> start + fst e * STAGGER_DELAY ≤ clock s)
  /\ (forall e, e ∈ drop n (executed s) ->
        start + fst e * STAGGER_DELAY ≤ clock s)
  /\ n ≤ length (executed s).

(** What was executed since the log stood at [before]. *)
Definition executedSince {Canvas} (before s : Sketch Canvas)
  : list (nat * DrawCommand) :=
  drop (length (executed before)) (executed s).

End SketchCanvas.

(* ===================================================================== *)
(** ** App: narration cache, playback and export *)
(* ===================================================================== *)

Module Narration.

Record SketchStep : Type := mkStep {
  title : jsstring;
  description : jsstring;
  code : jsstring
}.

(** [`${step.title.trim()}|${step.description.trim()}`] *)
Definition getAudioKey (step : SketchStep) : jsstring :=
  trim (title step) ++ lit "|" ++ trim (description step).

(** [`${step.title}. ${step.description}`], the text sent for synthesis. *)
Definition narrationText (step : SketchStep) : jsstring :=
  title step ++ lit ". " ++ description step.

(** [e?.status === 429 || e?.code === 429 || e?.message?.includes('429')];
    [inl] when evaluating the test itself throws. *)
Definition is429 (e : JsVal) : JsVal + bool :=
  if strictEqNumber (optField e (lit "status")) 429 then inr true
  else if strictEqNumber (optField e (lit "code")) 429 then inr true
  else
    match optField e (lit "message") with
    | JUndefined | JNull => inr false
    | JString m => inr (includes m (lit "429"))
    | JArray items =>
        inr (existsb (fun v => strictEqString v (lit "429")) items)
    | _ => inl (TypeError "e.message.includes is not a function")
    end.

Inductive ConsoleEntry : Type :=
| LogAudioFailed (index : nat) (err : JsVal)
| LogPlaybackAborted
| LogNoAudioForStep (index : nat)
| LogExportFailed (err : JsVal).

Section App.

(** utils/audio is not among the sources: [decodeAudio b64] stands for
    [pcmToAudioBuffer(base64ToBytes(b64), ctx)], which may throw, and
    [duration] for the playing time of a buffer in milliseconds. *)
Variable AudioBuffer : Type.
Variable decodeAudio : jsstring -> JsVal + AudioBuffer.
Variable duration : AudioBuffer -> nat.

(** What an [await] on the result of [ensureAudioLoaded] waits for.  An
    [async] function hands every caller a promise of its own, settled the
    way its body ended: rejected with what it threw, fulfilled with the
    buffer it returned, or following the promise it returned. *)
Inductive Awaited : Type :=
| Rejected (err : JsVal)
| Fulfilled (buffer : AudioBuffer)
| Following (promise : nat).

(** The refs and state of [App] that narration touches, with the part of
    the environment they interact with.  [inFlight] holds the suspended
    bodies of the loader ([key], [index] captured), [synthRequests] the
    texts handed to [generateSpeech] so far, [started] the sources started
    on the speakers. *)
Record App : Type := mkApp {
  audioCache : gmap jsstring AudioBuffer;
  audioLoadingPromises : gmap jsstring nat;
  quotaExceeded : bool;
  currentStepIndex : nat;
  currentStepRef : nat;
  activeSourceRef : option nat;
  isSpeaking : bool;
  isLoadingAudio : bool;
  ctxSuspended : bool;
  inFlight : gmap nat (jsstring * nat);
  settled : gmap nat (JsVal + AudioBuffer);
  nextPromise : nat;
  synthRequests : list jsstring;
  started : list AudioBuffer;
  console : list ConsoleEntry
}.

Definition withCache (c : gmap jsstring AudioBuffer) (a : App) : App :=
  mkApp c (audioLoadingPromises a) (quotaExceeded a) (currentStepIndex a)
    (currentStepRef a) (activeSourceRef a) (isSpeaking a) (isLoadingAudio a)
    (ctxSuspended a) (inFlight a) (settled a) (nextPromise a)
    (synthRequests a) (started a) (console a).

Definition withPromises (m : gmap jsstring nat) (a : App) : App :=
  mkApp (audioCache a) m (quotaExceeded a) (currentStepIndex a)
    (currentStepRef a) (activeSourceRef a) (isSpeaking a) (isLoadingAudio a)
    (ctxSuspended a) (inFlight a) (settled a) (nextPromise a)
    (synthRequests a) (started a) (console a).

Definition setQuotaExceeded (b : bool) (a : App) : App :=
  mkApp (audioCache a) (audioLoadingPromises a) b (currentStepIndex a)
    (currentStepRef a) (activeSourceRef a) (isSpeaking a) (isLoadingAudio a)
    (ctxSuspended a) (inFlight a) (settled a) (nextPromise a)
    (synthRequests a) (started a) (console a).

Definition setIsSpeaking (b : bool) (a : App) : App :=
  mkApp (audioCache a) (audioLoadingPromises a) (quotaExceeded a)
    (currentStepIndex a) (currentStepRef a) (activeSourceRef a) b
    (isLoadingAudio a) (ctxSuspended a) (inFlight a) (settled a)
    (nextPromise a) (synthRequests a) (started a) (console a).

Definition setIsLoadingAudio (b : bool) (a : App) : App :=
  mkApp (audioCache a) (audioLoadingPromises a) (quotaExceeded a)
    (currentStepIndex a) (currentStepRef a) (activeSourceRef a)
    (isSpeaking a) b (ctxSuspended a) (inFlight a) (settled a)
    (nextPromise a) (synthRequests a) (started a) (console a).

Definition setActiveSource (src : option nat) (a : App) : App :=
  mkApp (audioCache a) (audioLoadingPromises a) (quotaExceeded a)
    (currentStepIndex a) (currentStepRef a) src (isSpeaking a)
    (isLoadingAudio a) (ctxSuspended a) (inFlight a) (settled a)
    (nextPromise a) (synthRequests a) (started a) (console a).

Definition setCtxSuspended (b : bool) (a : App) : App :=
  mkApp (audioCache a) (audioLoadingPromises a) (quotaExceeded a)
    (currentStepIndex a) (currentStepRef a) (activeSourceRef a)
    (isSpeaking a) (isLoadingAudio a) b (inFlight a) (settled a)
    (nextPromise a) (synthRequests a) (started a) (console a).

Definition log (entry : ConsoleEntry) (a : App) : App :=
  mkApp (audioCache a) (audioLoadingPromises a) (quotaExceeded a)
    (currentStepIndex a) (currentStepRef a) (activeSourceRef a)
    (isSpeaking a) (isLoadingAudio a) (ctxSuspended a) (inFlight a)
    (settled a) (nextPromise a) (synthRequests a) (started a)
    (console a ++ [entry]).

(** [setCurrentStepIndex(i)] followed by the effect that copies the state
    into [currentStepRef]. *)
Definition setCurrentStepIndex (i : nat) (a : App) : App :=
  mkApp (audioCache a) (audioLoadingPromises a) (quotaExceeded a) i i
    (activeSourceRef a) (isSpeaking a) (isLoadingAudio a) (ctxSuspended a)
    (inFlight a) (settled a) (nextPromise a) (synthRequests a) (started a)
    (console a).

(** The body of the loader up to [await generateSpeech(text)]: the request
    goes out and the body is parked under a fresh promise. *)
Definition startSynthesis (key : jsstring) (index : nat) (text : jsstring)
    (a : App) : nat * App :=
  let p := nextPromise a in
  (p,
   mkApp (audioCache a) (audioLoadingPromises a) (quotaExceeded a)
     (currentStepIndex a) (currentStepRef a) (activeSourceRef a)
     (isSpeaking a) (isLoadingAudio a) (ctxSuspended a)
     (<[p := (key, index)]> (inFlight a)) (settled a) (S p)
     (synthRequests a ++ [text]) (started a) (console a)).

(** [ensureAudioLoaded(index)] as created by a render that saw [steps] and
    [quota] (the [quotaExceeded] state of that render). *)
Definition ensureAudioLoaded (steps : list SketchStep) (quota : bool)
    (index : nat) (a : App) : Awaited * App :=
  if quota then (Rejected (Error "Quota exceeded"), a) else
  match steps !! index with
  | None => (Rejected (Error "Step not found"), a)
  | Some step =>
      let key := getAudioKey step in
      match audioCache a !! key with
      | Some buffer => (Fulfilled buffer, a)
      | None =>
          match audioLoadingPromises a !! key with
          | Some promise => (Following promise, a)
          | None =>
              let '(promise, a1) :=
                startSynthesis key index (narrationText step) a in
              (Following promise,
               withPromises (<[key := promise]> (audioLoadingPromises a1)) a1)
          end
      end
  end.

(** The [catch] block of the loader; the value is what the promise is
    rejected with. *)
Definition loadFailed (index : nat) (e : JsVal) (a : App) : JsVal * App :=
  let a := log (LogAudioFailed index e) a in
  match is429 e with
  | inr true => (e, setQuotaExceeded true a)
  | inr false => (e, a)
  | inl thrown => (thrown, a)
  end.

(** The parked body of promise [p] resumes with the outcome of
    [generateSpeech]: [try] the decode and the cache write, [catch], and
    [finally] drop the pending entry. *)
Definition settle (p : nat) (response : JsVal + jsstring) (a : App) : App :=
  match inFlight a !! p with
  | None => a
  | Some (key, index) =>
      let '(outcome, a1) :=
        match response with
        | inr b64 =>
            match decodeAudio b64 with
            | inr buffer =>
                (inr buffer, withCache (<[key := buffer]> (audioCache a)) a)
            | inl e => let '(r, a') := loadFailed index e a in (inl r, a')
            end
        | inl e => let '(r, a') := loadFailed index e a in (inl r, a')
        end in
      mkApp (audioCache a1) (delete key (audioLoadingPromises a1))
        (quotaExceeded a1) (currentStepIndex a1) (currentStepRef a1)
        (activeSourceRef a1) (isSpeaking a1) (isLoadingAudio a1)
        (ctxSuspended a1) (delete p (inFlight a1))
        (<[p := outcome]> (settled a1)) (nextPromise a1) (synthRequests a1)
        (started a1) (console a1)
  end.

(** [ensureAudioLoaded] called for each index in turn, with nothing
    settling in between. *)
Fixpoint ensureEach (steps : list SketchStep) (quota : bool)
    (indices : list nat) (a : App) : list Awaited * App :=
  match indices with
  | [] => ([], a)
  | index :: rest =>
      let '(r, a1) := ensureAudioLoaded steps quota index a in
      let '(rs, a2) := ensureEach steps quota rest a1 in
      (r :: rs, a2)
  end.

(** [stopSpeaking()] *)
Definition stopSpeaking (a : App) : App :=
  setIsSpeaking false
    (match activeSourceRef a with
     | Some _ => setActiveSource None a
     | None => a
     end).

(** Where a call of [playAudioForStep(index)] is parked. *)
Inductive PlayTask : Type :=
| AwaitResume (index : nat)
| AwaitBuffer (index : nat) (on : Awaited).

(** [playAudioForStep]: from [const buffer = await ensureAudioLoaded(index)]
    up to the suspension. *)
Definition playAudioForStep_load (steps : list SketchStep) (quota : bool)
    (index : nat) (a : App) : option PlayTask * App :=
  let '(r, a1) := ensureAudioLoaded steps quota index a in
  (Some (AwaitBuffer index r), a1).

(** [playAudioForStep(index)]: from the call to its first suspension. *)
Definition playAudioForStep (steps : list SketchStep) (quota : bool)
    (index : nat) (a : App) : option PlayTask * App :=
  match steps !! index with
  | None => (None, a)
  | Some step =>
      if quota then (None, a) else
      let a := stopSpeaking a in
      let a :=
        match audioCache a !! getAudioKey step with
        | Some _ => a
        | None => setIsLoadingAudio true a
        end in
      if ctxSuspended a
      then (Some (AwaitResume index), a)
      else playAudioForStep_load steps quota index a
  end.

(** [await ctx.resume()] returned. *)
Definition playAudioForStep_resumed (steps : list SketchStep) (quota : bool)
    (index : nat) (a : App) : option PlayTask * App :=
  playAudioForStep_load steps quota index (setCtxSuspended false a).

(** The awaited buffer arrived: the rest of the [try] block. *)
Definition playAudioForStep_ready (index : nat) (buffer : AudioBuffer)
    (a : App) : App :=
  if decide (index ≠ currentStepRef a) then a else
  let a := setIsLoadingAudio false a in
  let src := length (started a) in
  let a :=
    mkApp (audioCache a) (audioLoadingPromises a) (quotaExceeded a)
      (currentStepIndex a) (currentStepRef a) (Some src) (isSpeaking a)
      (isLoadingAudio a) (ctxSuspended a) (inFlight a) (settled a)
      (nextPromise a) (synthRequests a) (started a ++ [buffer])
      (console a) in
  setIsSpeaking true a.

(** The awaited promise was rejected: the [catch] block. *)
Definition playAudioForStep_failed (index : nat) (a : App) : App :=
  let a := log LogPlaybackAborted a in
  if decide (index = currentStepRef a)
  then setIsSpeaking false (setIsLoadingAudio false a)
  else a.

(** The continuation of a parked [playAudioForStep] once what it waits for
    has settled with [result]. *)
Definition playAudioForStep_continue (index : nat)
    (result : JsVal + AudioBuffer) (a : App) : App :=
  match result with
  | inr buffer => playAudioForStep_ready index buffer a
  | inl _ => playAudioForStep_failed index a
  end.

(** *** Export *)

(** What the export walk does to the canvas and to the capture sink, each
    entry stamped with the milliseconds since [recorder.start()].  Timers
    and [onended] are taken to fire exactly when due. *)
Inductive ExportEvent : Type :=
| ShowStep (index : nat)                          (* setCurrentStepIndex *)
| ReplayCanvas (index : nat)                      (* canvasRef.current?.replay() *)
| SourceStart (index : nat) (buffer : AudioBuffer) (* source.start() into dest *)
| SourceEnded (index : nat)                       (* source.onended *)
| HoldNoAudio (index : nat)                       (* the 5000 ms wait *)
| RecorderStop.                                   (* mediaRecorderRef.current?.stop() *)

(** [playExportStep(index)] called at time [t], with the callbacks it
    chains.  [fuel] bounds the chain; [S (length steps)] is enough. *)
Fixpoint playExportStep (fuel : nat) (steps : list SketchStep)
    (cache : gmap jsstring AudioBuffer) (index t : nat)
  : list (nat * ExportEvent) :=
  match fuel with
  | 0 => []
  | S fuel' =>
      if decide (length steps ≤ index)
      then [(t + 1000, RecorderStop)]
      else
        match steps !! index with
        | None => []
        | Some step =>
            (t, ShowStep index) :: (t + 100, ReplayCanvas index) ::
            match cache !! getAudioKey step with
            | Some buffer =>
                (t + 100, SourceStart index buffer) ::
                (t + 100 + duration buffer, SourceEnded index) ::
                playExportStep fuel' steps cache (S index)
                  (t + 100 + duration buffer + 1000)
            | None =>
                (t + 100, HoldNoAudio index) ::
                playExportStep fuel' steps cache (S index) (t + 100 + 5000)
            end
        end
  end.

(** The service answers the request that was issued for step [index] with
    [upstream index]; the parked loader body then runs to its end. *)
Definition settleUpstream (upstream : nat -> JsVal + jsstring) (p : nat)
    (a : App) : App :=
  match inFlight a !! p with
  | Some (_, index) => settle p (upstream index) a
  | None => a
  end.

(** One pass of the loop body of the export's
    [for (let i = 0; i < steps.length; i++)]: a missing buffer is asked for
    and awaited, and a rejection is only warned about. *)
Definition prepareStep (steps : list SketchStep) (quota : bool)
    (upstream : nat -> JsVal + jsstring) (i : nat) (step : SketchStep)
    (a : App) : App :=
  match audioCache a !! getAudioKey step with
  | Some _ => a
  | None =>
      let '(r, a') := ensureAudioLoaded steps quota i a in
      match r with
      | Fulfilled _ => a'
      | Rejected _ => log (LogNoAudioForStep i) a'
      | Following p =>
          let a'' := settleUpstream upstream p a' in
          match settled a'' !! p with
          | Some (inl _) => log (LogNoAudioForStep i) a''
          | _ => a''
          end
      end
  end.

(** The loop itself, entered at [i] with [rest] the steps from [i] on. *)
Fixpoint prepareAudio (steps : list SketchStep) (quota : bool)
    (upstream : nat -> JsVal + jsstring) (i : nat) (rest : list SketchStep)
    (a : App) : App :=
  match rest with
  | [] => a
  | step :: rest' =>
      prepareAudio steps quota upstream (S i) rest'
        (prepareStep steps quota upstream i step a)
  end.

Inductive ExportOutcome : Type :=
| NotStarted
| ExportFailed (err : JsVal)
| Recording (timeline : list (nat * ExportEvent)).

(** [handleExportVideo()] of a render that saw [steps], [quota] and
    [isExporting]; [canvasFound] tells whether
    [canvasRef.current?.getCanvas()] yields an element.  The progress text
    and the [isExporting] flag only feed the user interface and are left
    out of the state. *)
Definition handleExportVideo (steps : list SketchStep)
    (quota isExporting canvasFound : bool)
    (upstream : nat -> JsVal + jsstring) (a : App) : ExportOutcome * App :=
  if bool_decide (length steps = 0) || isExporting then (NotStarted, a) else
  let a := stopSpeaking a in
  let a := setCtxSuspended false a in
  let a := prepareAudio steps quota upstream 0 steps a in
  if canvasFound
  then (Recording (playExportStep (S (length steps)) steps (audioCache a) 0 0),
        a)
  else
    let err := Error "Canvas not found" in
    (ExportFailed err, log (LogExportFailed err) a).

End App.

Arguments App AudioBuffer : clear implicits.
Arguments Awaited AudioBuffer : clear implicits.
Arguments ExportEvent AudioBuffer : clear implicits.
Arguments ExportOutcome AudioBuffer : clear implicits.
Arguments PlayTask AudioBuffer : clear implicits.
Arguments mkApp {AudioBuffer}.
Arguments audioCache {AudioBuffer} a.
Arguments audioLoadingPromises {AudioBuffer} a.
Arguments quotaExceeded {AudioBuffer} a.
Arguments currentStepIndex {AudioBuffer} a.
Arguments currentStepRef {AudioBuffer} a.
Arguments activeSourceRef {AudioBuffer} a.
Arguments isSpeaking {AudioBuffer} a.
Arguments isLoadingAudio {AudioBuffer} a.
Arguments ctxSuspended {AudioBuffer} a.
Arguments inFlight {AudioBuffer} a.
Arguments settled {AudioBuffer} a.
Arguments nextPromise {AudioBuffer} a.
Arguments synthRequests {AudioBuffer} a.
Arguments started {AudioBuffer} a.
Arguments console {AudioBuffer} a.
Arguments Rejected {AudioBuffer}.
Arguments Fulfilled {AudioBuffer}.
Arguments Following {AudioBuffer}.
Arguments AwaitResume {AudioBuffer}.
Arguments AwaitBuffer {AudioBuffer}.
Arguments ShowStep {AudioBuffer}.
Arguments ReplayCanvas {AudioBuffer}.
Arguments SourceStart {AudioBuffer}.
Arguments SourceEnded {AudioBuffer}.
Arguments HoldNoAudio {AudioBuffer}.
Arguments RecorderStop {AudioBuffer}.
Arguments NotStarted {AudioBuffer}.
Arguments ExportFailed {AudioBuffer}.
Arguments Recording {AudioBuffer}.
Arguments withCache {AudioBuffer}.
Arguments withPromises {AudioBuffer}.
Arguments setQuotaExceeded {AudioBuffer}.
Arguments setIsSpeaking {AudioBuffer}.
Arguments setIsLoadingAudio {AudioBuffer}.
Arguments setActiveSource {AudioBuffer}.
Arguments setCtxSuspended {AudioBuffer}.
Arguments log {AudioBuffer}.
Arguments setCurrentStepIndex {AudioBuffer}.
Arguments startSynthesis {AudioBuffer}.
Arguments ensureAudioLoaded {AudioBuffer}.
Arguments loadFailed {AudioBuffer}.
Arguments settle {AudioBuffer}.
Arguments ensureEach {AudioBuffer}.
Arguments stopSpeaking {AudioBuffer}.
Arguments playAudioForStep_load {AudioBuffer}.
Arguments playAudioForStep {AudioBuffer}.
Arguments playAudioForStep_resumed {AudioBuffer}.
Arguments playAudioForStep_ready {AudioBuffer}.
Arguments playAudioForStep_failed {AudioBuffer}.
Arguments playAudioForStep_continue {AudioBuffer}.
Arguments playExportStep {AudioBuffer}.
Arguments settleUpstream {AudioBuffer}.
Arguments prepareStep {AudioBuffer}.
Arguments prepareAudio {AudioBuffer}.
Arguments handleExportVideo {AudioBuffer}.

(** What ends up in the cache for a request the service answered with
    [response]. *)
Definition synthesised {AudioBuffer}
    (decodeAudio : jsstring -> JsVal + AudioBuffer)
    (response : JsVal + jsstring) : option AudioBuffer :=
  match response with
  | inr b64 =>
      match decodeAudio b64 with
      | inr buffer => Some buffer
      | inl _ => None
      end
  | inl _ => None
  end.


(** The step an export event belongs to. *)
Definition stepOf {AudioBuffer} (ev : ExportEvent AudioBuffer) : option nat :=
  match ev with
  | ShowStep i | ReplayCanvas i | SourceStart i _ | SourceEnded i
  | HoldNoAudio i => Some i
  | RecorderStop => None
  end.


(** What happens to the loader, one event-loop task at a time: some
    render's [ensureAudioLoaded(index)] is called, or the service answers
    the request parked under a promise. *)
Inductive LoaderEvent : Type :=
| Ask (quota : bool) (index : nat)
| Answer (promise : nat) (response : JsVal + jsstring).

Definition loaderStep {AudioBuffer}
    (decodeAudio : jsstring -> JsVal + AudioBuffer)
    (steps : list SketchStep) (a : App AudioBuffer) (ev : LoaderEvent)
  : App AudioBuffer :=
  match ev with
  | Ask quota index => snd (ensureAudioLoaded steps quota index a)
  | Answer promise response => settle decodeAudio promise response a
  end.

(** The pending map and the parked loader bodies describe each other, a
    cached key is not pending, and promise numbers are fresh. *)
Definition consistent {AudioBuffer} (a : App AudioBuffer) : Prop :=
  (forall key p, audioLoadingPromises a !! key = Some p ->
     exists i, inFlight a !! p = Some (key, i))
  /\ (forall p key i, inFlight a !! p = Some (key, i) ->
        audioLoadingPromises a !! key = Some p)
  /\ (forall p, is_Some (inFlight a !! p) -> p < nextPromise a)
  /\ (forall key, is_Some (audioCache a !! key) ->
        audioLoadingPromises a !! key = None).

(** A freshly started app. *)
Definition fresh {AudioBuffer} : App AudioBuffer :=
  mkApp ∅ ∅ false 0 0 None false false false ∅ ∅ 0 [] [] [].

(** What made a request fail, if it did: the service's error, or the
    decoder's. *)
Definition loadError {AudioBuffer}
    (decodeAudio : jsstring -> JsVal + AudioBuffer)
    (response : JsVal + jsstring) : option JsVal :=
  match response with
  | inl e => Some e
  | inr b64 =>
      match decodeAudio b64 with
      | inl e => Some e
      | inr _ => None
      end
  end.

(** The timer of the pre-fetch effect fires, in a render that saw [steps],
    [quota] and whether [appState] is [SUCCESS]:
    [ensureAudioLoaded(currentStepIndex + 1).catch(() => {})] when there
    is a next step. *)
Definition prefetch {AudioBuffer} (steps : list SketchStep)
    (quota success : bool) (a : App AudioBuffer) : App AudioBuffer :=
  if success && bool_decide (0 < length steps) && negb quota
  then
    let nextIndex := currentStepIndex a + 1 in
    if decide (nextIndex < length steps)
    then snd (ensureAudioLoaded steps quota nextIndex a)
    else a
  else a.

(** [loadHistoryItem(item)], on the state narration touches:
    [stopSpeaking(); setQuotaExceeded(false); ...; setCurrentStepIndex(0)].
    The steps of the item are what the closures of the next render see. *)
Definition loadHistoryItem {AudioBuffer} (a : App AudioBuffer)
  : App AudioBuffer :=
  setCurrentStepIndex 0 (setQuotaExceeded false (stopSpeaking a)).

(** [handleSearch(e)] up to [await generateSketchSteps(query)]: nothing
    for a blank query, otherwise
    [stopSpeaking(); setQuotaExceeded(false); ...; setSteps([]); ...;
    setCurrentStepIndex(0)]. *)
Definition handleSearch_begin {AudioBuffer} (query : jsstring)
    (a : App AudioBuffer) : App AudioBuffer :=
  match trim query with
  | [] => a
  | _ :: _ => setCurrentStepIndex 0 (setQuotaExceeded false (stopSpeaking a))
  end.


(** The milliseconds one step takes in the export walk: the 100 ms before
    the replay, then the narration and a second of silence, or the fixed
    hold. *)
Definition stepCost {AudioBuffer} (duration : AudioBuffer -> nat)
    (cache : gmap jsstring AudioBuffer) (step : SketchStep) : nat :=
  match cache !! getAudioKey step with
  | Some buffer => 100 + duration buffer + 1000
  | None => 100 + 5000
  end.

(** The steps the export walk shows, in the order of the timeline. *)
Definition shownSteps {AudioBuffer}
    (timeline : list (nat * ExportEvent AudioBuffer)) : list nat :=
  omap (fun entry =>
          match snd entry with
          | ShowStep index => Some index
          | _ => None
          end) timeline.

End Narration.

(* ===================================================================== *)
(** ** components/StepControls and its handlers in App *)
(* ===================================================================== *)

Module StepControls.

Local Open Scope Z_scope.

Inductive Button : Type := Prev | Next.

(** [disabled={currentStep === 0}] and
    [disabled={currentStep === totalSteps - 1}] *)
Definition disabled (b : Button) (currentStep totalSteps : Z) : bool :=
  match b with
  | Prev => currentStep =? 0
  | Next => currentStep =? totalSteps - 1
  end.

(** [onPrev] and [onNext] as [App] passes them: nothing while exporting,
    otherwise [setCurrentStepIndex(p => Math.max(0, p - 1))] and
    [setCurrentStepIndex(p => Math.min(steps.length - 1, p + 1))]. *)
Definition onClick (b : Button) (isExporting : bool) (length_steps p : Z)
  : Z :=
  if isExporting then p
  else
    match b with
    | Prev => Z.max 0 (p - 1)
    | Next => Z.min (length_steps - 1) (p + 1)
    end.

(** The handlers called one after the other. *)
Definition clicks (bs : list Button) (isExporting : bool) (length_steps p : Z)
  : Z :=
  foldl (fun p b => onClick b isExporting length_steps p) p bs.

End StepControls.

(* ===================================================================== *)
(** ** services/storageService *)
(* ===================================================================== *)

Module Storage.

Definition STORAGE_KEY : jsstring := lit "ai_sketchy_history".

Inductive ConsoleEntry : Type :=
| LogLoadFailed (err : JsVal)
| LogSaveFailed (err : JsVal)
| LogDeleteFailed (err : JsVal).

(** [localStorage], the number of [Date.now()] calls made so far, and the
    console. *)
Record Env : Type := mkEnv {
  localStorage : gmap jsstring jsstring;
  dateCalls : nat;
  console : list ConsoleEntry
}.

(** A computation that may throw, over the environment. *)
Definition M (A : Type) : Type := Env -> (JsVal + A) * Env.

Definition ret {A} (x : A) : M A := fun env => (inr x, env).

Definition throw {A} (e : JsVal) : M A := fun env => (inl e, env).

Definition bind {A B} (m : M A) (k : A -> M B) : M B :=
  fun env =>
    match m env with
    | (inr x, env') => k x env'
    | (inl e, env') => (inl e, env')
    end.

(** [try { body } catch (e) { handler(e) }] *)
Definition tryCatch {A} (body : M A) (handler : JsVal -> M A) : M A :=
  fun env =>
    match body env with
    | (inr x, env') => (inr x, env')
    | (inl e, env') => handler e env'
    end.

#[global] Instance M_ret : MRet M := @ret.
#[global] Instance M_bind : MBind M := fun A B k m => bind m k.

Definition consoleError (entry : ConsoleEntry) : M unit :=
  fun env =>
    (inr tt, mkEnv (localStorage env) (dateCalls env) (console env ++ [entry])).

Section Service.

(** The browser and the language runtime: whether [localStorage.getItem]
    throws (storage blocked), whether [localStorage.setItem] throws for a
    value (quota), [JSON.parse], [JSON.stringify], the clock read by the
    [n]-th [Date.now()], [Number.prototype.toString] on it, and
    [String.prototype.toLowerCase]. *)
Variable getItem_throws : option JsVal.
Variable setItem_throws : jsstring -> option JsVal.
Variable JSON_parse : jsstring -> JsVal + JsVal.
Variable JSON_stringify : JsVal -> JsVal + jsstring.
Variable Date_now : nat -> Z.
Variable toString : Z -> jsstring.
Variable toLowerCase : jsstring -> jsstring.

(** [localStorage.getItem(key)]: [null] is [None]. *)
Definition getItem (key : jsstring) : M (option jsstring) :=
  fun env =>
    match getItem_throws with
    | Some e => (inl e, env)
    | None => (inr (localStorage env !! key), env)
    end.

(** [localStorage.setItem(key, value)] *)
Definition setItem (key value : jsstring) : M unit :=
  fun env =>
    match setItem_throws value with
    | Some e => (inl e, env)
    | None =>
        (inr tt,
         mkEnv (<[key := value]> (localStorage env)) (dateCalls env)
           (console env))
    end.

Definition dateNow : M Z :=
  fun env =>
    (inr (Date_now (dateCalls env)),
     mkEnv (localStorage env) (S (dateCalls env)) (console env)).

Definition liftThrow {A} (r : JsVal + A) : M A :=
  match r with
  | inr x => ret x
  | inl e => throw e
  end.

(** [v.p] as an expression: reading a property of [null] or [undefined]
    throws. *)
Definition readProp (v : JsVal) (p : jsstring) : M JsVal :=
  match v with
  | JUndefined | JNull =>
      throw (TypeError "Cannot read properties of null or undefined")
  | _ => ret (getField v p)
  end.

(** [v.toLowerCase()] for a value that need not be a string. *)
Definition callToLowerCase (v : JsVal) : M jsstring :=
  match v with
  | JString s => ret (toLowerCase s)
  | JUndefined | JNull =>
      throw (TypeError "Cannot read properties of null or undefined")
  | _ => throw (TypeError "toLowerCase is not a function")
  end.

(** [items.filter(keep)] with a callback that may throw. *)
Fixpoint filterM (keep : JsVal -> M bool) (items : list JsVal)
  : M (list JsVal) :=
  match items with
  | [] => ret []
  | x :: rest =>
      b ← keep x;
      kept ← filterM keep rest;
      ret (if b : bool then x :: kept else kept)
  end.

(** [history.filter(keep)] for whatever [getHistory] returned. *)
Definition callFilter (history : JsVal) (keep : JsVal -> M bool)
  : M (list JsVal) :=
  match history with
  | JArray items => filterM keep items
  | JUndefined | JNull =>
      throw (TypeError "Cannot read properties of null or undefined")
  | _ => throw (TypeError "history.filter is not a function")
  end.

Definition getHistory : M JsVal :=
  tryCatch
    (stored ← getItem STORAGE_KEY;
     match stored with
     | Some ((_ :: _) as text) => liftThrow (JSON_parse text)
     | Some [] | None => ret (JArray [])
     end)
    (fun e => consoleError (LogLoadFailed e);; ret (JArray [])).

Definition saveHistoryItem (query : jsstring) (steps : JsVal) : M JsVal :=
  tryCatch
    (history ← getHistory;
     filteredHistory ←
       callFilter history (fun h =>
         q ← readProp h (lit "query");
         lowered ← callToLowerCase q;
         ret (negb (bool_decide (lowered = toLowerCase query))));
     idStamp ← dateNow;
     timestamp ← dateNow;
     let newItem :=
       JObject [(lit "id", JString (toString idStamp));
                (lit "query", JString query);
                (lit "steps", steps);
                (lit "timestamp", JNumber (inject_Z timestamp))] in
     let newHistory := take 20 (newItem :: filteredHistory) in
     text ← liftThrow (JSON_stringify (JArray newHistory));
     setItem STORAGE_KEY text;;
     ret (JArray newHistory))
    (fun e => consoleError (LogSaveFailed e);; ret (JArray [])).

Definition deleteHistoryItem (id : jsstring) : M JsVal :=
  tryCatch
    (history ← getHistory;
     newHistory ←
       callFilter history (fun item =>
         itemId ← readProp item (lit "id");
         ret (negb (strictEqString itemId id)));
     text ← liftThrow (JSON_stringify (JArray newHistory));
     setItem STORAGE_KEY text;;
     ret (JArray newHistory))
    (fun e => consoleError (LogDeleteFailed e);; ret (JArray [])).

(** The [try] block of [saveHistoryItem] up to the call of
    [localStorage.setItem]: the new list and the text about to be
    written. *)
Definition saveAttempt (query : jsstring) (steps : JsVal)
  : M (list JsVal * jsstring) :=
  history ← getHistory;
  filteredHistory ←
    callFilter history (fun h =>
      q ← readProp h (lit "query");
      lowered ← callToLowerCase q;
      ret (negb (bool_decide (lowered = toLowerCase query))));
  idStamp ← dateNow;
  timestamp ← dateNow;
  let newItem :=
    JObject [(lit "id", JString (toString idStamp));
             (lit "query", JString query);
             (lit "steps", steps);
             (lit "timestamp", JNumber (inject_Z timestamp))] in
  let newHistory := take 20 (newItem :: filteredHistory) in
  text ← liftThrow (JSON_stringify (JArray newHistory));
  ret (newHistory, text).

(** The same for [deleteHistoryItem]. *)
Definition deleteAttempt (id : jsstring) : M (list JsVal * jsstring) :=
  history ← getHistory;
  newHistory ←
    callFilter history (fun item =>
      itemId ← readProp item (lit "id");
      ret (negb (strictEqString itemId id)));
  text ← liftThrow (JSON_stringify (JArray newHistory));
  ret (newHistory, text).

(** The entry [saveHistoryItem] builds when the clock has been read
    [n] times before. *)
Definition newItem (query : jsstring) (steps : JsVal) (n : nat) : JsVal :=
  JObject [(lit "id", JString (toString (Date_now n)));
           (lit "query", JString query);
           (lit "steps", steps);
           (lit "timestamp", JNumber (inject_Z (Date_now (S n))))].

(** The [query] of a stored entry, when it has one that is a string. *)
Definition queryOf (item : JsVal) : option jsstring :=
  match item with
  | JUndefined | JNull => None
  | _ =>
      match getField item (lit "query") with
      | JString q => Some q
      | _ => None
      end
  end.

(** The entries [saveHistoryItem] keeps: those asking something else,
    letter case aside. *)
Definition asksSomethingElse (query : jsstring) (item : JsVal) : bool :=
  match queryOf item with
  | Some q => negb (bool_decide (toLowerCase q = toLowerCase query))
  | None => false
  end.

(** Reading the history fails: [getItem] throws, or what is stored does
    not parse. *)
Definition readFails (env : Env) : Prop :=
  is_Some getItem_throws
  \/ exists c text e,
       localStorage env !! STORAGE_KEY = Some (c :: text)
       /\ JSON_parse (c :: text) = inl e.

(** Nothing is stored under the key ([null], or the empty string). *)
Definition nothingStored (env : Env) : Prop :=
  getItem_throws = None
  /\ (localStorage env !! STORAGE_KEY = None
      \/ localStorage env !! STORAGE_KEY = Some []).

(** Every write to the storage throws. *)
Definition writeFails : Prop :=
  forall value, is_Some (setItem_throws value).

End Service.

(** A computation that throws whatever the environment. *)
Definition failsAlways {A} (m : M A) : Prop :=
  forall env, exists e env', m env = (inl e, env').

(** The outcome of a call that returned [v]. *)
Definition returns {A} (r : (JsVal + A) * Env) (v : A) : Prop :=
  fst r = inr v.

(** The entries [deleteHistoryItem] keeps: those whose [id] is not the
    string [id]. *)
Definition keepsId (id : jsstring) (item : JsVal) : bool :=
  negb (strictEqString (getField item (lit "id")) id).

(** A stored entry whose properties can be read. *)
Definition isEntry (item : JsVal) : Prop :=
  item ≠ JUndefined /\ item ≠ JNull.

(** Between [env] and [env'] the text of [v] was written under the key,
    and nothing else was. *)
Definition stored (JSON_stringify : JsVal -> JsVal + jsstring)
    (env env' : Env) (v : JsVal) : Prop :=
  exists out,
    JSON_stringify v = inr out
    /\ localStorage env' = <[STORAGE_KEY := out]> (localStorage env).

(** The call gave up: it returned the empty list, left the storage as it
    was, and its last word on the console is [entry] of some error. *)
Definition gaveUp (entry : JsVal -> ConsoleEntry) (env : Env)
    (r : (JsVal + JsVal) * Env) : Prop :=
  fst r = inr (JArray [])
  /\ localStorage (snd r) = localStorage env
  /\ exists e, last (console (snd r)) = Some (entry e).

End Storage.

(* ===================================================================== *)
(** ** A small concrete browser, to run the definitions on *)
(* ===================================================================== *)

Module Demo.

Import SketchCanvas.

(** The surface as the list of what was painted on it. *)
Inductive Mark : Type :=
| White (w h : Q)
| Drew (c : DrawCommand).

Definition Canvas : Type := list Mark.

Definition fillWhite (w h : Q) (cv : Canvas) : Canvas := [White w h].

(** The text closure reads [options.size] first, which throws when
    [options] is [null] (a default parameter only replaces [undefined]);
    every other command paints. *)
Definition perform (c : DrawCommand) (cv : Canvas) : Canvas * option JsVal :=
  match c with
  | CmdText _ _ _ JNull =>
      (cv, Some (TypeError "Cannot read properties of null"))
  | _ => (cv ++ [Drew c], None)
  end.

(** The drawing methods of a rough.js canvas. *)
Definition rc_is_function (prop : jsstring) : bool :=
  bool_decide
    (prop ∈ map lit ["line"; "rectangle"; "ellipse"; "circle"; "linearPath";
                     "polygon"; "arc"; "curve"; "path"; "draw"]%string).

Definition num (z : Z) : JsVal := JNumber (inject_Z z).

(** [rc.rectangle(100, 200, 150, 100); drawText(`Server`, 175, 250, null);
    drawArrow(250, 250, 500, 250)] *)
Definition threeCalls : StepCode :=
  Call (RcMethod (lit "rectangle") [num 100; num 200; num 150; num 100])
    (Call (DrawText (JString (lit "Server")) (num 175) (num 250) JNull)
       (Call (DrawArrow (num 250) (num 250) (num 500) (num 250) JUndefined)
          Done)).

(** [drawText(`Hi`, 400, 300)] *)
Definition oneCall : StepCode :=
  Call (DrawText (JString (lit "Hi")) (num 400) (num 300) JUndefined) Done.

(** [rc.circle(10, 10, 5); throw new Error("boom")] *)
Definition throwingCode : StepCode :=
  Call (RcMethod (lit "circle") [num 10; num 10; num 5])
    (Raise (Error "boom")).

Definition start : Sketch Canvas := mounted [].

Import Narration.

(** A buffer is told by its playing time; the service's payload is the
    decimal length in seconds, one digit. *)
Definition decodeAudio (b64 : jsstring) : JsVal + nat :=
  match b64 with
  | [d] => if (48 <=? d)%N && (d <=? 57)%N
           then inr (1000 * N.to_nat (d - 48))
           else inl (Error "bad payload")
  | _ => inl (Error "bad payload")
  end.

Definition duration (buffer : nat) : nat := buffer.

Definition boil : SketchStep :=
  mkStep (lit " Boil water ") (lit "Heat the pot.") (lit "rc.circle(1,1,1)").

Definition boilAgain : SketchStep :=
  mkStep (lit "Boil water") (lit "Heat the pot.  ") (lit "drawText(`x`,1,1)").

Definition addEgg : SketchStep :=
  mkStep (lit "Add egg") (lit "Lower it in.") (lit "rc.line(0,0,1,1)").

Definition wait : SketchStep :=
  mkStep (lit "Wait") (lit "Seven minutes.") (lit "drawText(`7`,1,1)").

Definition serve : SketchStep :=
  mkStep (lit "Serve") (lit "Peel and eat.") (lit "rc.circle(2,2,2)").

Definition fourSteps : list SketchStep := [boil; addEgg; wait; serve].



(** The response with HTTP status 429. *)
Definition rateLimited : JsVal :=
  JObject [(lit "status", num 429);
           (lit "message", JString (lit "Too Many Requests"))].

(** Step 2 of 4 is rate limited; the others get 3, 4 and 2 seconds. *)
Definition upstream (index : nat) : JsVal + jsstring :=
  match index with
  | 0 => inr (lit "3")
  | 1 => inl rateLimited
  | 2 => inr (lit "4")
  | _ => inr (lit "2")
  end.

Import Storage.

(** A browser whose storage works, holding text that is not JSON; the
    parser rejects everything but the empty array. *)
Definition parseOnlyEmpty (text : jsstring) : JsVal + JsVal :=
  if bool_decide (text = lit "[]") then inr (JArray [])
  else inl (Error "Unexpected token").

Definition stringifyCount (v : JsVal) : JsVal + jsstring :=
  match v with
  | JArray items => inr (lit "[" ++ replicate (length items) 42%N ++ lit "]")
  | _ => inr (lit "null")
  end.

Definition clockAt (n : nat) : Z := 1700000000000 + Z.of_nat n.

Definition stamp (z : Z) : jsstring := lit "id" ++ [Z.to_N z].

Definition corrupted : Env :=
  mkEnv {[ STORAGE_KEY := lit "{oops" ]} 0 [].

(** A history of two entries, and a parser that knows its text. *)
Definition entry (query : string) : JsVal :=
  JObject [(lit "id", JString (lit "1")); (lit "query", JString (lit query));
           (lit "steps", JArray []); (lit "timestamp", num 1)].

Definition twoEntries : list JsVal :=
  [entry "Boil An Egg"; entry "Fry an egg"].

Definition parseTwoEntries (text : jsstring) : JsVal + JsVal :=
  if bool_decide (text = lit "[**]") then inr (JArray twoEntries)
  else inl (Error "Unexpected token").

Definition lowerAscii (s : jsstring) : jsstring :=
  map (fun c => if (65 <=? c)%N && (c <=? 90)%N then (c + 32)%N else c) s.

Definition readable : Env :=
  mkEnv {[ STORAGE_KEY := lit "[**]" ]} 0 [].

(** A storage with room for two code units only. *)
Definition rejectLong (value : jsstring) : option JsVal :=
  if decide (2 < length value) then Some (Error "QuotaExceededError")
  else None.

(** An empty storage, and a parser that knows the text of the one-entry
    history saved into it. *)
Definition empty : Env := mkEnv ∅ 0 [].

Definition parseOneSaved (text : jsstring) : JsVal + JsVal :=
  if bool_decide (text = lit "[*]")
  then inr (JArray [newItem clockAt stamp (lit "boil an egg") (JArray []) 0])
  else inl (Error "Unexpected token").

(** Two entries told apart by their ids. *)
Definition entryWithId (id : string) : JsVal :=
  JObject [(lit "id", JString (lit id)); (lit "query", JString (lit "q"));
           (lit "steps", JArray []); (lit "timestamp", num 1)].

Definition parseTwoIds (text : jsstring) : JsVal + JsVal :=
  if bool_decide (text = lit "[**]")
  then inr (JArray [entryWithId "17"; entryWithId "18"])
  else inl (Error "Unexpected token").

End Demo.

(* ===================================================================== *)
(** * Properties *)
(* ===================================================================== *)

(** Two facts about [filter] used throughout. *)

Lemma filter_keeps_all {A} (P : A -> Prop) `{forall x, Decision (P x)}
    (l : list A) :
  (forall x, P x) -> filter P l = l.
Proof.
  intros HP. induction l as [| x l IH]; [done |].
  rewrite filter_cons_True by apply HP. by rewrite IH.
Qed.

Lemma filter_keeps_all' {A} (P : A -> Prop) `{forall x, Decision (P x)}
    (l : list A) :
  (forall x, x ∈ l -> P x) -> filter P l = l.
Proof.
  induction l as [| x l IH]; intros HP; [done |].
  rewrite filter_cons_True by (apply HP; left).
  rewrite IH; [done |]. intros y Hy. apply HP. by right.
Qed.

Module SketchCanvasSpec.

Import SketchCanvas.

Section Browser.

Context {Canvas : Type}.
Variable fillWhite : Q -> Q -> Canvas -> Canvas.
Variable perform : DrawCommand -> Canvas -> Canvas * option JsVal.
Variable rc_is_function : jsstring -> bool.

Abbreviation drawFunction := (drawFunction rc_is_function).
Abbreviation invoke := (invoke rc_is_function).
Abbreviation runAnimation_queue := (runAnimation_queue fillWhite rc_is_function).
Abbreviation runAnimation := (runAnimation fillWhite rc_is_function).
Abbreviation Sketch := (Sketch Canvas).
Abbreviation runCommand := (runCommand perform).
Abbreviation animationFrame := (animationFrame perform).
Abbreviation dispatch := (dispatch fillWhite perform rc_is_function).
Abbreviation dispatchAll := (dispatchAll fillWhite perform rc_is_function).
Abbreviation carriesOn := (carriesOn perform).

Lemma invoke_pushes c q q' :
  invoke c q = inr q' -> q' = q ++ [closureOf c].
Proof.
  destruct c; cbn; unfold rcProxy, drawArrow, drawCurve, drawText, addToQueue.
  - destruct (rc_is_function prop); [intros [= <-]; reflexivity | discriminate].
  - intros [= <-]; reflexivity.
  - intros [= <-]; reflexivity.
  - intros [= <-]; reflexivity.
Qed.

Lemma drawFunction_appends code : forall q0 q,
  drawFunction code q0 = (q, None) ->
  q = q0 ++ map closureOf (invocations code).
Proof.
  induction code as [| e | c rest IH]; intros q0 q; cbn.
  - intros [= <-]. by rewrite app_nil_r.
  - discriminate.
  - destruct (invoke c q0) as [e | q1] eqn:Hc; [discriminate |].
    intros Hrest. apply IH in Hrest. apply invoke_pushes in Hc. subst.
    by rewrite <- app_assoc.
Qed.

Lemma schedule_spec q : forall index (s : Sketch),
  schedule index q s =
  mkSketch (surface s) (canvasRef s) (error s)
    (timeoutsRef s ++ map (fun k => nextTimerId s + k) (seq 0 (length q)))
    (timers s ++ newTimers s index q)
    (rafQueue s) (nextTimerId s + length q) (clock s) (executed s)
    (console s).
Proof.
  induction q as [| c q IH]; intros index s.
  - destruct s; cbn. by rewrite !app_nil_r, Nat.add_0_r.
  - cbn [schedule setTimeout]. rewrite IH.
    destruct s as [cv ref err ids ts raf next clk ex cons]; cbn.
    unfold newTimers; cbn. rewrite <- !app_assoc. cbn.
    rewrite !Nat.add_0_r. f_equal.
    + f_equal. f_equal. rewrite <- seq_shift, map_map.
      apply map_ext. intros k. lia.
    + f_equal. f_equal. apply imap_ext. intros k c' _. cbn.
      unfold STAGGER_DELAY. f_equal; lia.
    + lia.
Qed.

Lemma clearAll_spec (s : Sketch) :
  clearAll s =
  setTimers (filter (fun t => timerId t ∉ timeoutsRef s) (timers s)) s.
Proof.
  unfold clearAll.
  assert (forall ids (st : Sketch),
    foldl (fun st id => clearTimeout id st) st ids =
    setTimers (filter (fun t => timerId t ∉ ids) (timers st)) st)
    as Hgen.
  { induction ids as [| id ids IH]; intros st.
    - destruct st; unfold setTimers; cbn. f_equal.
      symmetry. apply filter_keeps_all. intros t. apply not_elem_of_nil.
    - cbn [foldl]. rewrite IH. destruct st; unfold clearTimeout, setTimers; cbn.
      f_equal. rewrite list_filter_filter. apply list_filter_iff.
      intros t. rewrite not_elem_of_cons. tauto. }
  apply Hgen.
Qed.

Lemma runAnimation_queue_ok code w h (s : Sketch) q :
  canvasRef s = true ->
  drawFunction code [] = (q, None) ->
  runAnimation_queue code w h s =
  (mkSketch (fillWhite w h (surface s)) true None
     (map (fun k => nextTimerId s + k) (seq 0 (length q)))
     (filter (fun t => timerId t ∉ timeoutsRef s) (timers s)
        ++ newTimers s 0 q)
     (rafQueue s) (nextTimerId s + length q) (clock s) (executed s)
     (console s),
   q).
Proof.
  intros Href Hq. unfold SketchCanvas.runAnimation_queue.
  rewrite Href, Hq. cbn [negb]. rewrite schedule_spec, clearAll_spec.
  destruct s as [cv ref err ids ts raf next clk ex cons]; cbn in *.
  by subst.
Qed.

Lemma runAnimation_queue_threw code w h (s : Sketch) q e :
  canvasRef s = true ->
  drawFunction code [] = (q, Some e) ->
  runAnimation_queue code w h s =
  (mkSketch (fillWhite w h (surface s)) true
     (Some (lit "Could not draw this step.")) []
     (filter (fun t => timerId t ∉ timeoutsRef s) (timers s))
     (rafQueue s) (nextTimerId s) (clock s) (executed s)
     (console s ++ [LogSketchFailed e]),
   q ++ [errorNotice w h]).
Proof.
  intros Href Hq. unfold SketchCanvas.runAnimation_queue.
  rewrite Href, Hq. cbn [negb]. rewrite clearAll_spec.
  destruct s as [cv ref err ids ts raf next clk ex cons]; cbn in *.
  by subst.
Qed.

(** C1.  When a step's code runs to its end without throwing, the command
    queue [runAnimation] has built holds exactly one closure per primitive
    call the code made, in the order of the calls and over the arguments
    of each call, and one timer per closure is registered in that order. *)
Theorem capture_mirrors_invocations code w h (s : Sketch) q :
  canvasRef s = true ->
  drawFunction code [] = (q, None) ->
  q = map closureOf (invocations code)
  /\ length q = length (invocations code)
  /\ snd (runAnimation_queue code w h s) = q
  /\ timers (runAnimation code w h s) =
       filter (fun t => timerId t ∉ timeoutsRef s) (timers s)
         ++ newTimers s 0 q.
Proof.
  intros Href Hq.
  assert (q = map closureOf (invocations code)) as Hmap.
  { by apply drawFunction_appends in Hq. }
  split; [exact Hmap |].
  split; [by rewrite Hmap, length_map |].
  unfold SketchCanvas.runAnimation.
  by rewrite (runAnimation_queue_ok _ _ _ _ _ Href Hq).
Qed.

(** *** The frame callbacks *)

Lemma runCommand_fields (s : Sketch) entry :
  let s' := runCommand s entry in
  executed s' = executed s ++ [entry]
  /\ timers s' = timers s /\ rafQueue s' = rafQueue s
  /\ error s' = error s /\ clock s' = clock s
  /\ timeoutsRef s' = timeoutsRef s
  /\ surface s' = fst (perform (snd entry) (surface s))
  /\ console s' =
       console s ++
       match snd (perform (snd entry) (surface s)) with
       | Some e => [LogCommandFailed (fst entry) e]
       | None => []
       end.
Proof.
  unfold SketchCanvas.runCommand.
  destruct (perform (snd entry) (surface s)) as [cv [e |]]; cbn;
    by rewrite ?app_nil_r.
Qed.

Lemma frame_callbacks l : forall s : Sketch,
  let s' := foldl runCommand s l in
  executed s' = executed s ++ l
  /\ timers s' = timers s /\ rafQueue s' = rafQueue s
  /\ error s' = error s /\ clock s' = clock s
  /\ timeoutsRef s' = timeoutsRef s
  /\ (forall x, x ∈ console s -> x ∈ console s')
  /\ (forall i c e, (i, c) ∈ l -> alwaysThrows perform c e ->
        LogCommandFailed i e ∈ console s').
Proof.
  induction l as [| entry l IH]; intros s; cbn [foldl].
  - cbn. rewrite app_nil_r. repeat split; try done.
    intros i c e Hin. by apply elem_of_nil in Hin.
  - destruct (runCommand_fields s entry)
      as (Hex & Hts & Hraf & Herr & Hclk & Hids & _ & Hcon).
    destruct (IH (runCommand s entry))
      as (Hex' & Hts' & Hraf' & Herr' & Hclk' & Hids' & Hmono & Hlog).
    cbn zeta.
    rewrite Hex', Hts', Hraf', Herr', Hclk', Hids', Hex, Hts, Hraf, Herr,
      Hclk, Hids.
    rewrite <- app_assoc. repeat split; try done.
    + intros x Hx. apply Hmono. rewrite Hcon. apply elem_of_app. by left.
    + intros i c e Hin Hthrows. apply elem_of_cons in Hin as [Heq | Hin].
      * subst entry. apply Hmono. rewrite Hcon. cbn.
        rewrite (Hthrows (surface s)).
        apply elem_of_app. right. apply list_elem_of_singleton. done.
      * by apply (Hlog i c e).
Qed.

(** *** One event of an undisturbed replay *)

Lemma timer_split (ts : list Timer) t rest id :
  NoDup (map timerId ts) ->
  filter (fun t' => timerId t' = id) ts = t :: rest ->
  ts ≡ₚ t :: filter (fun t' => timerId t' ≠ id) ts.
Proof.
  intros Hnd Hf.
  assert (t ∈ ts /\ timerId t = id) as [Hin Hid].
  { assert (t ∈ filter (fun t' => timerId t' = id) ts) as Ht
      by (rewrite Hf; left).
    apply list_elem_of_filter in Ht. tauto. }
  clear Hf rest. induction ts as [| x ts IH]; [by apply elem_of_nil in Hin |].
  cbn in Hnd. apply NoDup_cons in Hnd as [Hx Hnd].
  apply elem_of_cons in Hin as [<- | Hin].
  - rewrite filter_cons_False by (intros Hne; by apply Hne).
    rewrite filter_keeps_all'; [done |].
    intros y Hy Heq. apply Hx. apply list_elem_of_fmap. exists y.
    split; [congruence | done].
  - assert (timerId x ≠ id) as Hne.
    { intros Heq. apply Hx. apply list_elem_of_fmap. exists t.
      split; [congruence | done]. }
    rewrite filter_cons_True by done.
    rewrite (IH Hnd Hin) at 1. apply Permutation_swap.
Qed.

Lemma carriesOn_refl (s : Sketch) :
  NoDup (map timerId (timers s)) -> carriesOn s s.
Proof.
  intros Hnd. repeat split; try done.
  exists []. split; [by rewrite app_nil_r |].
  intros i c e Hin. by apply elem_of_nil in Hin.
Qed.

Lemma carriesOn_trans (s1 s2 s3 : Sketch) :
  carriesOn s1 s2 -> carriesOn s2 s3 -> carriesOn s1 s3.
Proof.
  intros (_ & Hp & (m1 & Hex1 & Hlog1) & Hmono1 & Herr1)
         (Hnd & Hp' & (m2 & Hex2 & Hlog2) & Hmono2 & Herr2).
  repeat split.
  - done.
  - by rewrite Hp'.
  - exists (m1 ++ m2). split; [by rewrite Hex2, Hex1, app_assoc |].
    intros i c e Hin Hthrows. apply elem_of_app in Hin as [Hin | Hin].
    + apply Hmono2. by apply (Hlog1 i c e).
    + by apply (Hlog2 i c e).
  - intros x Hx. by apply Hmono2, Hmono1.
  - congruence.
Qed.

Lemma undisturbed_step (s : Sketch) ev :
  undisturbed ev = true ->
  NoDup (map timerId (timers s)) ->
  carriesOn s (dispatch s ev).
Proof.
  intros Hev Hnd. destruct ev as [ms | id | | code w h |]; try discriminate.
  - (* Tick *)
    apply carriesOn_refl in Hnd.
    destruct s as [cv ref err ids ts raf next clk ex cons]. exact Hnd.
  - (* TimeoutFires *)
    cbn. unfold SketchCanvas.fireTimeout.
    destruct (filter (fun t => timerId t = id) (timers s)) as [| t rest] eqn:Hf;
      [by apply carriesOn_refl |].
    destruct (decide (due t ≤ clock s)); [| by apply carriesOn_refl].
    pose proof (timer_split _ _ _ _ Hnd Hf) as Hsplit.
    destruct s as [cv ref err ids ts raf next clk ex cons]; cbn in *.
    unfold SketchCanvas.carriesOn, pendingOrDone; cbn. repeat split; try done.
    + rewrite Hsplit in Hnd. cbn in Hnd. by apply NoDup_cons in Hnd as [_ ?].
    + rewrite Hsplit at 2. cbn. fold (timerEntry t). solve_Permutation.
    + exists []. split; [by rewrite app_nil_r |].
      intros i c e Hin. by apply elem_of_nil in Hin.
  - (* AnimationFrame *)
    cbn. unfold SketchCanvas.animationFrame.
    destruct (frame_callbacks (rafQueue s) (setRafQueue [] s))
      as (Hex & Hts & Hraf & Herr & _ & _ & Hmono & Hlog).
    unfold SketchCanvas.carriesOn, pendingOrDone. rewrite Hex, Hts, Hraf, Herr.
    destruct s as [cv ref err ids ts raf next clk ex cons]; cbn in *.
    repeat split; try done.
    + solve_Permutation.
    + by exists raf.
Qed.

Lemma undisturbed_run evs : forall s : Sketch,
  forallb undisturbed evs = true ->
  NoDup (map timerId (timers s)) ->
  carriesOn s (dispatchAll s evs).
Proof.
  induction evs as [| ev evs IH]; intros s Hevs Hnd.
  - by apply carriesOn_refl.
  - cbn in Hevs. apply andb_prop in Hevs as [Hev Hevs].
    pose proof (undisturbed_step s ev Hev Hnd) as Hstep.
    apply (carriesOn_trans _ _ _ Hstep).
    apply IH; [done | apply Hstep].
Qed.

(** *** A replay from a quiet state *)

Lemma newTimers_entries (s : Sketch) q :
  map timerEntry (newTimers s 0 q) = entries q.
Proof. unfold newTimers, entries. by rewrite fmap_imap. Qed.

Lemma newTimers_ids (s : Sketch) index q :
  map timerId (newTimers s index q) =
  map (fun k => nextTimerId s + k) (seq 0 (length q)).
Proof.
  unfold newTimers. rewrite fmap_imap.
  rewrite (imap_ext _ (fun k _ => nextTimerId s + k)) by done.
  apply imap_seq_0.
Qed.

Lemma newTimers_distinct (s : Sketch) index q :
  NoDup (map timerId (newTimers s index q)).
Proof.
  rewrite newTimers_ids. apply NoDup_fmap_2; [| apply NoDup_seq].
  intros a b. lia.
Qed.

Lemma quiet_step (s : Sketch) ev :
  undisturbed ev = true -> idle s ->
  let s' := dispatch s ev in
  idle s' /\ surface s' = surface s /\ executed s' = executed s
  /\ error s' = error s.
Proof.
  intros Hev [Hts Hraf].
  destruct s as [cv ref err ids ts raf next clk ex cons]; cbn in *; subst.
  by destruct ev.
Qed.

Lemma quiet_run evs : forall s : Sketch,
  forallb undisturbed evs = true -> idle s ->
  let s' := dispatchAll s evs in
  idle s' /\ surface s' = surface s /\ executed s' = executed s
  /\ error s' = error s.
Proof.
  induction evs as [| ev evs IH]; intros s Hevs Hidle; [done |].
  cbn in Hevs. apply andb_prop in Hevs as [Hev Hevs].
  destruct (quiet_step s ev Hev Hidle) as (Hidle' & Hcv & Hex & Herr).
  destruct (IH _ Hevs Hidle') as (Hidle'' & Hcv' & Hex' & Herr').
  change (dispatchAll s (ev :: evs)) with (dispatchAll (dispatch s ev) evs).
  cbn zeta. split; [exact Hidle'' |]. repeat split; congruence.
Qed.

Lemma fireTimeout_head (s : Sketch) t ts :
  timers s = t :: ts ->
  NoDup (map timerId (t :: ts)) ->
  due t ≤ clock s ->
  fireTimeout (timerId t) s =
  setRafQueue (rafQueue s ++ [timerEntry t]) (setTimers ts s).
Proof.
  intros Hts Hnd Hdue. unfold fireTimeout. rewrite Hts.
  rewrite filter_cons_True by done.
  destruct (decide (due t ≤ clock s)) as [_ | Hno]; [| done].
  apply NoDup_cons in Hnd as [Hfresh _].
  rewrite filter_cons_False by (intros Hne; by apply Hne).
  rewrite filter_keeps_all'; [done |].
  intros t' Hin Heq. apply Hfresh. apply list_elem_of_fmap.
  exists t'. split; [congruence | done].
Qed.

(** One round of [playThrough]: the head timer fires and its command runs. *)
Lemma playThrough_round (s : Sketch) t ts :
  timers s = t :: ts -> rafQueue s = [] ->
  NoDup (map timerId (t :: ts)) ->
  due t ≤ clock s + STAGGER_DELAY ->
  let s' :=
    dispatchAll s [Tick STAGGER_DELAY; TimeoutFires (timerId t); AnimationFrame]
  in timers s' = ts /\ rafQueue s' = [] /\ clock s' = clock s + STAGGER_DELAY.
Proof.
  intros Hts Hraf Hnd Hdue.
  unfold SketchCanvas.dispatchAll. cbn [foldl SketchCanvas.dispatch].
  rewrite (fireTimeout_head _ t ts); [| done | done | done].
  unfold SketchCanvas.animationFrame.
  match goal with
  | |- context [foldl ?f ?st ?l] =>
      destruct (frame_callbacks l st)
        as (_ & Hts' & Hraf' & _ & Hclk' & _)
  end.
  cbn zeta. rewrite Hts', Hraf', Hclk'.
  destruct s as [cv ref err ids ts0 raf next clk ex cons]. done.
Qed.

Lemma playThrough_drains ts : forall s : Sketch,
  timers s = ts -> rafQueue s = [] ->
  NoDup (map timerId ts) ->
  (forall k t, ts !! k = Some t -> due t ≤ clock s + S k * STAGGER_DELAY) ->
  idle (dispatchAll s (playThrough (map timerId ts))).
Proof.
  induction ts as [| t ts IH]; intros s Hts Hraf Hnd Hdue; [done |].
  assert (due t ≤ clock s + STAGGER_DELAY) as Hdue0.
  { specialize (Hdue 0 t eq_refl). lia. }
  destruct (playThrough_round s t ts Hts Hraf Hnd Hdue0)
    as (Hts' & Hraf' & Hclk').
  cbn [map playThrough flat_map].
  change (flat_map _ (map timerId ts)) with (playThrough (map timerId ts)).
  unfold SketchCanvas.dispatchAll. rewrite foldl_app.
  apply IH; try done.
  - cbn in Hnd. by apply NoDup_cons in Hnd as [_ ?].
  - intros k t' Hk. unfold SketchCanvas.dispatchAll in Hclk'.
    rewrite Hclk'. specialize (Hdue (S k) t' Hk). lia.
Qed.

Lemma run_from_quiet code w h (s0 : Sketch) q :
  canvasRef s0 = true -> idle s0 ->
  drawFunction code [] = (q, None) ->
  let s1 := runAnimation code w h s0 in
  timers s1 = newTimers s0 0 q /\ rafQueue s1 = []
  /\ executed s1 = executed s0 /\ error s1 = None
  /\ clock s1 = clock s0
  /\ timeoutsRef s1 = map timerId (newTimers s0 0 q).
Proof.
  intros Href [Hts Hraf] Hq. unfold SketchCanvas.runAnimation.
  rewrite (runAnimation_queue_ok _ _ _ _ _ Href Hq). cbn.
  rewrite Hts, newTimers_ids. done.
Qed.

(** C4.  Replaying a captured queue from a quiet canvas: the browser's own
    schedule runs the replay to its end, and in every undisturbed run that
    reaches the end each command of the queue has been executed exactly
    once.  In particular a command at position [i] that throws leaves its
    line on the console and nothing else (no error state), and every
    command at a later position has still been executed. *)
Theorem later_commands_run_after_a_failure code w h (s0 : Sketch) q :
  canvasRef s0 = true -> idle s0 ->
  drawFunction code [] = (q, None) ->
  let s1 := runAnimation code w h s0 in
  idle (dispatchAll s1 (playThrough (timeoutsRef s1)))
  /\ forall evs,
       forallb undisturbed evs = true ->
       let s2 := dispatchAll s1 evs in
       idle s2 ->
       executedSince s0 s2 ≡ₚ entries q
       /\ forall i c e,
            q !! i = Some c -> alwaysThrows perform c e ->
            LogCommandFailed i e ∈ console s2
            /\ error s2 = None
            /\ forall j cj, i < j -> q !! j = Some cj ->
                 (j, cj) ∈ executedSince s0 s2.
Proof.
  intros Href Hidle Hq s1.
  destruct (run_from_quiet code w h s0 q Href Hidle Hq)
    as (Hts & Hraf & Hex & Herr & Hclk & Hids).
  fold s1 in Hts, Hraf, Hex, Herr, Hclk, Hids.
  assert (NoDup (map timerId (timers s1))) as Hnd
    by (rewrite Hts; apply newTimers_distinct).
  split.
  - rewrite Hids, <- Hts. apply playThrough_drains; try done.
    intros k t Hk. rewrite Hts in Hk. unfold newTimers in Hk.
    apply list_lookup_imap_Some in Hk as (c & _ & ->). cbn.
    rewrite Hclk. unfold STAGGER_DELAY. lia.
  - intros evs Hevs s2 [Hts2 Hraf2].
    destruct (undisturbed_run evs s1 Hevs Hnd)
      as (_ & Hperm & (more & Hmore & Hlog) & _ & Herr2).
    fold s2 in Hperm, Hmore, Hlog, Herr2.
    assert (executedSince s0 s2 = more) as Hsince.
    { unfold executedSince. rewrite Hmore, Hex. apply drop_app_length. }
    assert (more ≡ₚ entries q) as Hall.
    { unfold pendingOrDone in Hperm.
      rewrite Hts2, Hraf2, Hmore, Hts, Hraf, newTimers_entries in Hperm.
      cbn in Hperm.
      rewrite (Permutation_app_comm (entries q)) in Hperm.
      by apply Permutation_app_inv_l in Hperm. }
    rewrite Hsince. split; [exact Hall |].
    intros i c e Hi Hthrows.
    assert (forall k ck, q !! k = Some ck -> (k, ck) ∈ more) as Hran.
    { intros k ck Hk. rewrite Hall. unfold entries.
      by apply (elem_of_lookup_imap_2 (fun i c => (i, c))). }
    split; [apply (Hlog i c e); [by apply Hran | done] |].
    split; [congruence |].
    intros j cj _ Hj. by apply Hran.
Qed.

(** C2, as the code has it.  When the step's code throws, the [catch]
    block pushes the error-notice command onto the local queue, after the
    commands captured before the throw, but no timer is ever registered
    for it: however long the replay is left alone, nothing is executed and
    the canvas stays the blank white fill.  Only the component's [error]
    state is set. *)
Theorem error_notice_is_queued_but_never_drawn code w h cv q e evs :
  drawFunction code [] = (q, Some e) ->
  forallb undisturbed evs = true ->
  let s1 := runAnimation code w h (mounted cv) in
  let s2 := dispatchAll s1 evs in
  snd (runAnimation_queue code w h (mounted cv)) = q ++ [errorNotice w h]
  /\ idle s1
  /\ executed s2 = []
  /\ surface s2 = fillWhite w h cv
  /\ error s2 = Some (lit "Could not draw this step.").
Proof.
  intros Hq Hevs s1 s2.
  assert (canvasRef (mounted cv) = true) as Href by done.
  pose proof (runAnimation_queue_threw code w h _ q e Href Hq) as Hrun.
  assert (idle s1) as Hidle.
  { unfold s1, SketchCanvas.runAnimation. by rewrite Hrun. }
  destruct (quiet_run evs s1 Hevs Hidle) as (_ & Hcv & Hex & Herr).
  fold s2 in Hcv, Hex, Herr.
  split; [by rewrite Hrun |]. split; [exact Hidle |].
  rewrite Hex, Hcv, Herr. unfold s1, SketchCanvas.runAnimation.
  by rewrite Hrun.
Qed.

(** C3, as the code has it.  A timeout that has already fired has handed
    its command to [requestAnimationFrame]; [clearTimeout] does not reach
    it.  With one command queued and its timeout fired, the cleanup
    function (and likewise a new [runAnimation]) leaves no timer pending,
    and the next animation frame still executes the old command. *)
Theorem frame_callback_survives_cancellation (cv : Canvas) w h :
  let playing :=
    dispatchAll (mounted cv) [Run Demo.oneCall w h; TimeoutFires 0] in
  let cancelled := dispatch playing Cleanup in
  let replayed := dispatch playing (Run Done w h) in
  timers cancelled = []
  /\ length (executedSince cancelled (dispatch cancelled AnimationFrame)) = 1
  /\ timers replayed = []
  /\ length (executedSince replayed (dispatch replayed AnimationFrame)) = 1.
Proof.
  vm_compute.
  repeat match goal with
         | |- context [perform ?c ?x] =>
             destruct (perform c x) as [? [? |]]
         end; done.
Qed.

(** *** What cancellation does reach *)

Lemma registered_step (s : Sketch) ev :
  registered s -> registered (dispatch s ev).
Proof.
  intros Hreg. destruct ev as [ms | id | | code w h |]; cbn [SketchCanvas.dispatch].
  - by destruct s.
  - unfold SketchCanvas.fireTimeout.
    destruct (filter (fun t => timerId t = id) (timers s)) as [| t rest];
      [done |].
    destruct (decide (due t ≤ clock s)); [| done].
    intros t' Ht'. destruct s as [cv ref err ids ts raf next clk ex cons].
    cbn in *. apply list_elem_of_filter in Ht' as [_ Ht']. by apply Hreg.
  - unfold SketchCanvas.animationFrame.
    destruct (frame_callbacks (rafQueue s) (setRafQueue [] s))
      as (_ & Hts & _ & _ & _ & Hids & _).
    intros t Ht. rewrite Hts in Ht. rewrite Hids.
    destruct s as [cv ref err ids ts raf next clk ex cons]. by apply Hreg.
  - unfold SketchCanvas.runAnimation.
    destruct (canvasRef s) eqn:Href.
    2:{ unfold SketchCanvas.runAnimation_queue. by rewrite Href. }
    destruct (drawFunction code []) as [q [e |]] eqn:Hq.
    + rewrite (runAnimation_queue_threw _ _ _ _ _ _ Href Hq). cbn.
      intros t Ht. apply list_elem_of_filter in Ht as [Hout Ht].
      destruct Hout. by apply Hreg.
    + rewrite (runAnimation_queue_ok _ _ _ _ _ Href Hq). cbn.
      intros t Ht. apply elem_of_app in Ht as [Ht | Ht].
      * apply list_elem_of_filter in Ht as [Hout Ht].
        destruct Hout. by apply Hreg.
      * rewrite <- (newTimers_ids s 0 q). by apply list_elem_of_fmap_2.
  - rewrite clearAll_spec. intros t Ht.
    destruct s as [cv ref err ids ts raf next clk ex cons]. cbn in *.
    apply list_elem_of_filter in Ht as [_ Ht]. by apply Hreg.
Qed.

Lemma registered_always cv evs :
  registered (dispatchAll (mounted cv) evs).
Proof.
  assert (forall s : Sketch, registered s -> registered (dispatchAll s evs))
    as Hgen.
  { induction evs as [| ev evs IH]; intros s Hreg; [done |].
    apply IH. by apply registered_step. }
  apply Hgen. intros t Ht. by apply elem_of_nil in Ht.
Qed.

Lemma registered_cleared (s : Sketch) :
  registered s ->
  filter (fun t => timerId t ∉ timeoutsRef s) (timers s) = [].
Proof.
  unfold registered. generalize (timers s) (timeoutsRef s).
  intros ts ids Hreg. induction ts as [| t ts IH]; [done |].
  rewrite filter_cons_False.
  - apply IH. intros t' Ht'. apply Hreg. by right.
  - intros Hout. apply Hout, Hreg. by left.
Qed.

(** Cancellation does reach every timeout that has not fired yet.  In any
    state the component can get into, the cleanup function leaves no timer
    pending, and so does a new [runAnimation], apart from the timers it
    registers itself; when no frame callback is waiting at that moment,
    nothing is executed after the cleanup, however long one waits. *)
Theorem cancellation_clears_pending_timeouts cv history :
  let s := dispatchAll (mounted cv) history in
  timers (dispatch s Cleanup) = []
  /\ (forall code w h q,
        canvasRef s = true -> drawFunction code [] = (q, None) ->
        timers (dispatch s (Run code w h)) = newTimers s 0 q)
  /\ (rafQueue s = [] ->
      forall evs, forallb undisturbed evs = true ->
        executed (dispatchAll (dispatch s Cleanup) evs) = executed s).
Proof.
  intros s. pose proof (registered_always cv history) as Hreg. fold s in Hreg.
  assert (timers (dispatch s Cleanup) = []) as Hclear.
  { cbn. rewrite clearAll_spec. cbn. by apply registered_cleared. }
  split; [exact Hclear |]. split.
  - intros code w h q Href Hq. cbn. unfold SketchCanvas.runAnimation.
    rewrite (runAnimation_queue_ok _ _ _ _ _ Href Hq). cbn.
    by rewrite registered_cleared.
  - intros Hraf evs Hevs.
    assert (idle (dispatch s Cleanup)) as Hidle.
    { split; [exact Hclear |]. cbn. rewrite clearAll_spec. exact Hraf. }
    destruct (quiet_run evs _ Hevs Hidle) as (_ & _ & Hex & _).
    rewrite Hex. cbn. by rewrite clearAll_spec.
Qed.

(** *** Order and pacing of a replay *)

Lemma playThrough_round_log (s : Sketch) t ts :
  timers s = t :: ts -> rafQueue s = [] ->
  NoDup (map timerId (t :: ts)) ->
  due t ≤ clock s + STAGGER_DELAY ->
  executed
    (dispatchAll s [Tick STAGGER_DELAY; TimeoutFires (timerId t); AnimationFrame])
  = executed s ++ [timerEntry t].
Proof.
  intros Hts Hraf Hnd Hdue.
  unfold SketchCanvas.dispatchAll. cbn [foldl SketchCanvas.dispatch].
  rewrite (fireTimeout_head _ t ts); [| done | done | done].
  unfold SketchCanvas.animationFrame.
  match goal with
  | |- context [foldl ?f ?st ?l] =>
      destruct (frame_callbacks l st) as (Hex & _)
  end.
  rewrite Hex.
  destruct s as [cv ref err ids ts0 raf next clk ex cons]. cbn in *.
  by subst.
Qed.

Lemma playThrough_logs ts : forall s : Sketch,
  timers s = ts -> rafQueue s = [] ->
  NoDup (map timerId ts) ->
  (forall k t, ts !! k = Some t -> due t ≤ clock s + S k * STAGGER_DELAY) ->
  executed (dispatchAll s (playThrough (map timerId ts)))
  = executed s ++ map timerEntry ts.
Proof.
  induction ts as [| t ts IH]; intros s Hts Hraf Hnd Hdue.
  - cbn. by rewrite app_nil_r.
  - assert (due t ≤ clock s + STAGGER_DELAY) as Hdue0.
    { specialize (Hdue 0 t eq_refl). lia. }
    destruct (playThrough_round s t ts Hts Hraf Hnd Hdue0)
      as (Hts' & Hraf' & Hclk').
    pose proof (playThrough_round_log s t ts Hts Hraf Hnd Hdue0) as Hex'.
    cbn [map playThrough flat_map].
    change (flat_map _ (map timerId ts)) with (playThrough (map timerId ts)).
    unfold SketchCanvas.dispatchAll in *. rewrite foldl_app.
    rewrite IH; try done.
    + rewrite Hex'. by rewrite <- app_assoc.
    + cbn in Hnd. by apply NoDup_cons in Hnd as [_ ?].
    + intros k t' Hk. rewrite Hclk'. specialize (Hdue (S k) t' Hk). lia.
Qed.

(** Left to the browser's own schedule, a replay from a quiet canvas
    executes the commands of the queue in the order of the queue, each
    one once, and nothing else. *)
Theorem commands_run_in_queue_order code w h (s0 : Sketch) q :
  canvasRef s0 = true -> idle s0 ->
  drawFunction code [] = (q, None) ->
  let s1 := runAnimation code w h s0 in
  executedSince s0 (dispatchAll s1 (playThrough (timeoutsRef s1)))
  = entries q.
Proof.
  intros Href Hidle Hq s1.
  destruct (run_from_quiet code w h s0 q Href Hidle Hq)
    as (Hts & Hraf & Hex & _ & Hclk & Hids).
  fold s1 in Hts, Hraf, Hex, Hclk, Hids.
  unfold executedSince. rewrite Hids, <- Hts.
  rewrite playThrough_logs; try done.
  - rewrite Hex, drop_app_length, Hts. apply newTimers_entries.
  - rewrite Hts. apply newTimers_distinct.
  - intros k t Hk. rewrite Hts in Hk. unfold newTimers in Hk.
    apply list_lookup_imap_Some in Hk as (c & _ & ->). cbn.
    rewrite Hclk. unfold STAGGER_DELAY. lia.
Qed.

Lemma paced_step start n (s : Sketch) ev :
  undisturbed ev = true -> paced start n s -> paced start n (dispatch s ev).
Proof.
  intros Hev (Hts & Hraf & Hex & Hn).
  destruct ev as [ms | id | | code w h |]; try discriminate;
    cbn [SketchCanvas.dispatch].
  - (* Tick *)
    destruct s as [cv ref err ids ts raf next clk ex cons]; cbn in *.
    repeat split; cbn; try done.
    + intros e He. specialize (Hraf e He). lia.
    + intros e He. specialize (Hex e He). lia.
  - (* TimeoutFires *)
    unfold SketchCanvas.fireTimeout.
    destruct (filter (fun t => timerId t = id) (timers s)) as [| t rest] eqn:Hf;
      [done |].
    destruct (decide (due t ≤ clock s)) as [Hdue |]; [| done].
    assert (t ∈ timers s) as Hin.
    { assert (t ∈ filter (fun t' => timerId t' = id) (timers s)) as Ht
        by (rewrite Hf; left).
      apply list_elem_of_filter in Ht. tauto. }
    destruct s as [cv ref err ids ts raf next clk ex cons]; cbn in *.
    repeat split; cbn; try done.
    + intros t' Ht'. apply list_elem_of_filter in Ht' as [_ Ht']. by apply Hts.
    + intros e He. apply elem_of_app in He as [He | He]; [by apply Hraf |].
      apply list_elem_of_singleton in He. subst e. cbn.
      specialize (Hts t Hin). lia.
  - (* AnimationFrame *)
    unfold SketchCanvas.animationFrame.
    destruct (frame_callbacks (rafQueue s) (setRafQueue [] s))
      as (Hex' & Hts' & Hraf' & _ & Hclk' & _).
    unfold paced. rewrite Hex', Hts', Hraf', Hclk'.
    destruct s as [cv ref err ids ts raf next clk ex cons]; cbn in *.
    repeat split; try done.
    + intros e He. by apply elem_of_nil in He.
    + intros e He. rewrite drop_app_le in He by done.
      apply elem_of_app in He as [He | He]; [by apply Hex | by apply Hraf].
    + rewrite length_app. lia.
Qed.

Lemma paced_run start n evs : forall s : Sketch,
  forallb undisturbed evs = true -> paced start n s ->
  paced start n (dispatchAll s evs).
Proof.
  induction evs as [| ev evs IH]; intros s Hevs Hp; [done |].
  cbn in Hevs. apply andb_prop in Hevs as [Hev Hevs].
  apply IH; [done |]. by apply paced_step.
Qed.

(** The stagger is a lower bound on every schedule.  After a replay
    started on a quiet canvas, whatever order and timing the browser
    picks for timeouts and frames, the command at position [i] has not
    been executed before [i] times the stagger delay has passed since
    the start. *)
Theorem no_command_runs_before_its_stagger_time
    code w h (s0 : Sketch) q evs i c :
  canvasRef s0 = true -> idle s0 ->
  drawFunction code [] = (q, None) ->
  forallb undisturbed evs = true ->
  let s2 := dispatchAll (runAnimation code w h s0) evs in
  (i, c) ∈ executedSince s0 s2 ->
  clock s0 + i * STAGGER_DELAY ≤ clock s2.
Proof.
  intros Href Hidle Hq Hevs s2 Hin.
  destruct (run_from_quiet code w h s0 q Href Hidle Hq)
    as (Hts & Hraf & Hex & _ & Hclk & _).
  assert (paced (clock s0) (length (executed s0)) (runAnimation code w h s0))
    as Hstart.
  { unfold paced. rewrite Hts, Hraf, Hex, Hclk, drop_all.
    repeat split; try done.
    - intros t Ht. unfold newTimers in Ht.
      apply list_elem_of_lookup in Ht as [k Hk].
      apply list_lookup_imap_Some in Hk as (c' & _ & ->). cbn. lia.
    - intros e He. by apply elem_of_nil in He.
    - intros e He. by apply elem_of_nil in He. }
  destruct (paced_run _ _ evs _ Hevs Hstart) as (_ & _ & Hdone & _).
  apply (Hdone (i, c)). exact Hin.
Qed.

End Browser.

(** *** The lines of a text command *)

Lemma splitLines_plain_last l : forall line,
  plainLine l -> splitLines l line = [line ++ l].
Proof.
  induction l as [| c l IH]; intros line Hl; cbn [splitLines].
  - by rewrite app_nil_r.
  - apply Forall_cons in Hl as [(H10 & H13 & H92) Hl].
    apply N.eqb_neq in H10, H13, H92.
    destruct l as [| d l'].
    + by rewrite H10.
    + rewrite H13, H92, H10. cbn [andb orb].
      rewrite (IH _ Hl). by rewrite <- app_assoc.
Qed.

Lemma splitLines_plain_break l : forall line b rest,
  plainLine l ->
  splitLines (l ++ breakUnits b ++ rest) line
  = (line ++ l) :: splitLines rest [].
Proof.
  induction l as [| c l IH]; intros line b rest Hl.
  - rewrite app_nil_r. destruct b; cbn [breakUnits app splitLines]; try done.
    by destruct rest.
  - apply Forall_cons in Hl as [(H10 & H13 & H92) Hl].
    apply N.eqb_neq in H10, H13, H92.
    specialize (IH (line ++ [c]) b rest Hl).
    change ((c :: l) ++ breakUnits b ++ rest)
      with (c :: (l ++ breakUnits b ++ rest)).
    destruct (l ++ breakUnits b ++ rest) as [| d r] eqn:Hrest.
    + destruct l, b; discriminate.
    + transitivity (splitLines (d :: r) (line ++ [c])).
      * cbn [splitLines]. rewrite H13, H92, H10. done.
      * rewrite IH. by rewrite <- app_assoc.
Qed.

(** Splitting undoes joining.  Lines that hold no carriage return, line
    feed or backslash, joined by any mix of the three separators the
    pattern knows, come back from the split as they were, in order; in
    particular a text without separator is one line. *)
Theorem split_recovers_joined_lines more : forall first,
  plainLine first -> Forall (fun bl => plainLine (snd bl)) more ->
  textLines (joinLines first more) = first :: map snd more.
Proof.
  unfold textLines.
  induction more as [| [b line] more IH]; intros first Hfirst Hmore.
  - cbn. by rewrite splitLines_plain_last.
  - apply Forall_cons in Hmore as [Hline Hmore]. cbn [joinLines map snd].
    rewrite splitLines_plain_break by done. cbn [app].
    f_equal. by apply IH.
Qed.

Lemma splitLines_no_line_feed n : forall text line,
  length text ≤ n -> 10%N ∉ line ->
  Forall (fun l => 10%N ∉ l) (splitLines text line).
Proof.
  induction n as [| n IH]; intros text line Hlen Hline.
  - destruct text; [| cbn in Hlen; lia]. cbn. by repeat constructor.
  - destruct text as [| c rest]; [cbn; by repeat constructor |].
    cbn in Hlen. cbn [splitLines].
    assert (10%N ∉ @nil N) as Hnil by apply not_elem_of_nil.
    destruct rest as [| d rest'].
    + destruct (N.eqb_spec c 10).
      * by repeat constructor.
      * repeat constructor. rewrite elem_of_app, list_elem_of_singleton.
        intros [? | ?]; [done | by subst].
    + cbn in Hlen.
      destruct ((c =? 13)%N && (d =? 10)%N || (c =? 92)%N && (d =? 110)%N).
      * constructor; [done |]. apply IH; [lia | done].
      * destruct (N.eqb_spec c 10).
        -- constructor; [done |]. apply IH; [cbn; lia | done].
        -- apply IH; [cbn; lia |].
           rewrite elem_of_app, list_elem_of_singleton.
           intros [? | ?]; [done | by subst].
Qed.

(** Whatever the text, the split yields at least one line, and no line
    holds a line feed. *)
Theorem text_lines_hold_no_line_feed text :
  textLines text ≠ []
  /\ Forall (fun l => 10%N ∉ l) (textLines text).
Proof.
  split.
  - unfold textLines. generalize (@nil N).
    destruct text as [| c [| d rest]]; intros line; cbn [splitLines].
    + done.
    + by destruct (c =? 10)%N.
    + destruct ((c =? 13)%N && (d =? 10)%N || (c =? 92)%N && (d =? 110)%N);
        [done |].
      destruct (c =? 10)%N; [done |].
      generalize (line ++ [c]). clear line.
      revert d. induction rest as [| e rest IH]; intros d line.
      * cbn. by destruct (d =? 10)%N.
      * cbn [splitLines].
        destruct ((d =? 13)%N && (e =? 10)%N || (d =? 92)%N && (e =? 110)%N);
          [done |].
        destruct (d =? 10)%N; [done |]. apply IH.
  - apply (splitLines_no_line_feed (length text)); [done |].
    apply not_elem_of_nil.
Qed.

(** The three-call step on the demo browser: the queue mirrors the calls. *)
Lemma capture_mirrors_invocations_witness :
  snd (runAnimation_queue Demo.fillWhite Demo.rc_is_function
         Demo.threeCalls 800 600 Demo.start)
  = map closureOf (invocations Demo.threeCalls)
  /\ length (map closureOf (invocations Demo.threeCalls)) = 3.
Proof.
  destruct (capture_mirrors_invocations Demo.fillWhite Demo.rc_is_function
              Demo.threeCalls 800 600 Demo.start
              (map closureOf (invocations Demo.threeCalls))
              eq_refl eq_refl) as (_ & Hlen & Hqueue & _).
  split; [exact Hqueue | exact Hlen].
Defined.

(** The three-call step played through: its second command throws, is
    logged, and the third one has run all the same. *)
Lemma later_commands_run_after_a_failure_witness :
  let s1 :=
    runAnimation Demo.fillWhite Demo.rc_is_function Demo.threeCalls 800 600
      Demo.start in
  let s2 :=
    dispatchAll Demo.fillWhite Demo.perform Demo.rc_is_function s1
      (playThrough [0; 1; 2]) in
  LogCommandFailed 1 (TypeError "Cannot read properties of null") ∈ console s2
  /\ (2, CmdArrow (Demo.num 250) (Demo.num 250) (Demo.num 500) (Demo.num 250)
           (JObject []))
     ∈ executedSince Demo.start s2.
Proof.
  intros s1 s2.
  destruct (later_commands_run_after_a_failure Demo.fillWhite Demo.perform
              Demo.rc_is_function Demo.threeCalls 800 600 Demo.start
              (map closureOf (invocations Demo.threeCalls))
              eq_refl (conj eq_refl eq_refl) eq_refl) as [_ Hruns].
  destruct (Hruns (playThrough [0; 1; 2]) eq_refl (conj eq_refl eq_refl))
    as [_ Hfail].
  destruct (Hfail 1
              (CmdText (JString (lit "Server")) (Demo.num 175) (Demo.num 250)
                 JNull)
              (TypeError "Cannot read properties of null")
              eq_refl (fun cv => eq_refl)) as (Hlog & _ & Hlater).
  split; [exact Hlog |].
  apply (Hlater 2); [lia | reflexivity].
Defined.

(** A step that draws a circle and then throws, left alone for a while:
    nothing is ever drawn. *)
Lemma error_notice_is_queued_but_never_drawn_witness :
  let s1 :=
    runAnimation Demo.fillWhite Demo.rc_is_function Demo.throwingCode 800 600
      Demo.start in
  let s2 :=
    dispatchAll Demo.fillWhite Demo.perform Demo.rc_is_function s1
      [Tick 200; AnimationFrame; Tick 5000; AnimationFrame] in
  executed s2 = [] /\ surface s2 = [Demo.White 800 600].
Proof.
  intros s1 s2.
  destruct (error_notice_is_queued_but_never_drawn Demo.fillWhite Demo.perform
              Demo.rc_is_function Demo.throwingCode 800 600 []
              [CmdRc (lit "circle") [Demo.num 10; Demo.num 10; Demo.num 5]]
              (Error "boom")
              [Tick 200; AnimationFrame; Tick 5000; AnimationFrame]
              eq_refl eq_refl) as (_ & _ & Hex & Hcv & _).
  split; [exact Hex | exact Hcv].
Defined.

(** The three-call step played through: rectangle, text, arrow, in this
    order. *)
Lemma commands_run_in_queue_order_witness :
  let s1 :=
    runAnimation Demo.fillWhite Demo.rc_is_function Demo.threeCalls 800 600
      Demo.start in
  map fst
    (executedSince Demo.start
       (dispatchAll Demo.fillWhite Demo.perform Demo.rc_is_function s1
          (playThrough [0; 1; 2])))
  = [0; 1; 2].
Proof.
  intros s1.
  exact (f_equal (map fst)
           (commands_run_in_queue_order Demo.fillWhite Demo.perform
              Demo.rc_is_function Demo.threeCalls 800 600 Demo.start
              (map closureOf (invocations Demo.threeCalls))
              eq_refl (conj eq_refl eq_refl) eq_refl)).
Defined.

(** The arrow of the three-call step sits at position 2: when it has run,
    at least 400 ms have passed. *)
Lemma no_command_runs_before_its_stagger_time_witness :
  let s2 :=
    dispatchAll Demo.fillWhite Demo.perform Demo.rc_is_function
      (runAnimation Demo.fillWhite Demo.rc_is_function Demo.threeCalls 800 600
         Demo.start)
      (playThrough [0; 1; 2]) in
  2 * STAGGER_DELAY ≤ clock s2.
Proof.
  intros s2.
  apply (no_command_runs_before_its_stagger_time Demo.fillWhite Demo.perform
           Demo.rc_is_function Demo.threeCalls 800 600 Demo.start
           (map closureOf (invocations Demo.threeCalls))
           (playThrough [0; 1; 2]) 2
           (CmdArrow (Demo.num 250) (Demo.num 250) (Demo.num 500)
              (Demo.num 250) (JObject []))
           eq_refl (conj eq_refl eq_refl) eq_refl eq_refl).
  apply (list_elem_of_lookup_2 _ 2). reflexivity.
Defined.

(** "Hot", a line feed, "water", a backslash and an n, "7 min": three
    lines. *)
Lemma split_recovers_joined_lines_witness :
  textLines
    (joinLines (lit "Hot") [(LF, lit "water"); (BackslashN, lit "7 min")])
  = [lit "Hot"; lit "water"; lit "7 min"].
Proof.
  apply (split_recovers_joined_lines
           [(LF, lit "water"); (BackslashN, lit "7 min")] (lit "Hot")).
  - unfold plainLine. vm_compute.
    repeat (constructor; [repeat split; discriminate |]). constructor.
  - repeat (constructor;
            [unfold plainLine; vm_compute;
             repeat (constructor; [repeat split; discriminate |]);
             constructor |]).
    constructor.
Defined.

End SketchCanvasSpec.

Module NarrationSpec.

Import Narration.

Section Loader.

Context {AudioBuffer : Type}.
Variable decodeAudio : jsstring -> JsVal + AudioBuffer.
Variable duration : AudioBuffer -> nat.

Abbreviation App := (App AudioBuffer).
Abbreviation settle := (settle decodeAudio).

Lemma ensure_cached steps i step (a : App) buffer :
  steps !! i = Some step ->
  audioCache a !! getAudioKey step = Some buffer ->
  ensureAudioLoaded steps false i a = (Fulfilled buffer, a).
Proof. intros Hi Hc. unfold ensureAudioLoaded. by rewrite Hi, Hc. Qed.

Lemma ensure_pending steps i step (a : App) p :
  steps !! i = Some step ->
  audioCache a !! getAudioKey step = None ->
  audioLoadingPromises a !! getAudioKey step = Some p ->
  ensureAudioLoaded steps false i a = (Following p, a).
Proof. intros Hi Hc Hp. unfold ensureAudioLoaded. by rewrite Hi, Hc, Hp. Qed.

Lemma ensure_starts steps i step (a : App) :
  steps !! i = Some step ->
  audioCache a !! getAudioKey step = None ->
  audioLoadingPromises a !! getAudioKey step = None ->
  ensureAudioLoaded steps false i a =
  (Following (nextPromise a),
   mkApp (audioCache a)
     (<[getAudioKey step := nextPromise a]> (audioLoadingPromises a))
     (quotaExceeded a) (currentStepIndex a) (currentStepRef a)
     (activeSourceRef a) (isSpeaking a) (isLoadingAudio a) (ctxSuspended a)
     (<[nextPromise a := (getAudioKey step, i)]> (inFlight a)) (settled a)
     (S (nextPromise a)) (synthRequests a ++ [narrationText step])
     (started a) (console a)).
Proof. intros Hi Hc Hp. unfold ensureAudioLoaded. by rewrite Hi, Hc, Hp. Qed.

Lemma ensure_quota steps i (a : App) :
  ensureAudioLoaded steps true i a = (Rejected (Error "Quota exceeded"), a).
Proof. done. Qed.

(** While the key is pending, any number of calls change nothing and all
    follow the pending promise. *)
Lemma ensureEach_pending steps key p indices : forall a : App,
  audioCache a !! key = None ->
  audioLoadingPromises a !! key = Some p ->
  Forall (fun i => exists step,
            steps !! i = Some step /\ getAudioKey step = key) indices ->
  ensureEach steps false indices a =
  (replicate (length indices) (Following p), a).
Proof.
  induction indices as [| i rest IH]; intros a Hc Hp Hall; [done |].
  apply Forall_cons in Hall as [(step & Hi & <-) Hall].
  cbn [ensureEach]. rewrite (ensure_pending _ _ _ _ _ Hi Hc Hp).
  by rewrite (IH a Hc Hp Hall).
Qed.

(** C5, as the code has it.  Calls made by renders that saw
    [quotaExceeded = false], for steps with one and the same key that is
    not cached, with nothing settling in between: if a request for the key
    is in flight, no further request goes out and every caller follows the
    pending promise; if none is, the first call issues exactly one request
    and every caller follows its promise.  A render that saw
    [quotaExceeded = true] is turned away before either map is looked at. *)
Theorem concurrent_loads_share_one_request steps key indices (a : App) :
  audioCache a !! key = None ->
  Forall (fun i => exists step,
            steps !! i = Some step /\ getAudioKey step = key) indices ->
  let results := fst (ensureEach steps false indices a) in
  let a' := snd (ensureEach steps false indices a) in
  (forall p, audioLoadingPromises a !! key = Some p ->
     synthRequests a' = synthRequests a
     /\ results = replicate (length indices) (Following p))
  /\ (audioLoadingPromises a !! key = None -> indices ≠ [] ->
      exists p text,
        synthRequests a' = synthRequests a ++ [text]
        /\ results = replicate (length indices) (Following p)
        /\ audioLoadingPromises a' !! key = Some p
        /\ audioCache a' !! key = None)
  /\ (forall i (a0 : App),
        ensureAudioLoaded steps true i a0 =
        (Rejected (Error "Quota exceeded"), a0)).
Proof.
  intros Hc Hall results a'. split; [| split].
  - intros p Hp. unfold results, a'.
    by rewrite (ensureEach_pending _ _ _ _ _ Hc Hp Hall).
  - intros Hp Hne. destruct indices as [| i rest]; [done |].
    apply Forall_cons in Hall as [(step & Hi & <-) Hall].
    exists (nextPromise a), (narrationText step).
    unfold results, a'. cbn [ensureEach].
    rewrite (ensure_starts _ _ _ _ Hi Hc Hp).
    rewrite (ensureEach_pending steps (getAudioKey step) (nextPromise a));
      cbn; [| done | apply lookup_insert_eq | done].
    repeat split; try done. apply lookup_insert_eq.
  - apply ensure_quota.
Qed.

(** C6.  Two steps whose trimmed titles and trimmed descriptions agree
    have the same key, whatever their code and wherever they stand in the
    list: a buffer cached for one serves the other, and a call for the
    second right after a call for the first returns the same thing and
    leaves the state, the request log included, untouched. *)
Theorem same_text_same_cache_entry (s1 s2 : SketchStep) :
  trim (title s1) = trim (title s2) ->
  trim (description s1) = trim (description s2) ->
  getAudioKey s1 = getAudioKey s2
  /\ (forall steps j (a : App) buffer,
        steps !! j = Some s2 ->
        audioCache a !! getAudioKey s1 = Some buffer ->
        ensureAudioLoaded steps false j a = (Fulfilled buffer, a))
  /\ (forall steps quota i j (a : App),
        steps !! i = Some s1 -> steps !! j = Some s2 ->
        let first := ensureAudioLoaded steps quota i a in
        ensureAudioLoaded steps quota j (snd first) = first).
Proof.
  intros Ht Hd.
  assert (getAudioKey s1 = getAudioKey s2) as Hkey
    by (unfold getAudioKey; by rewrite Ht, Hd).
  split; [exact Hkey |]. split.
  - intros steps j a buffer Hj Hc. rewrite Hkey in Hc.
    by apply (ensure_cached _ _ s2).
  - intros steps [|] i j a Hi Hj first; [done |].
    unfold first. clear first.
    destruct (audioCache a !! getAudioKey s1) as [buffer |] eqn:Hc.
    + rewrite (ensure_cached _ _ _ _ _ Hi Hc). cbn [snd].
      rewrite Hkey in Hc. by apply (ensure_cached _ _ s2).
    + destruct (audioLoadingPromises a !! getAudioKey s1) as [p |] eqn:Hp.
      * rewrite (ensure_pending _ _ _ _ _ Hi Hc Hp). cbn [snd].
        rewrite Hkey in Hc, Hp. by apply (ensure_pending _ _ s2).
      * rewrite (ensure_starts _ _ _ _ Hi Hc Hp). cbn [snd].
        apply (ensure_pending _ _ s2); cbn; [done | by rewrite <- Hkey |].
        rewrite <- Hkey. apply lookup_insert_eq.
Qed.

(** When the awaited buffer arrives, [playAudioForStep(index)] looks at
    [currentStepRef]: if it no longer holds [index], the call ends there
    and changes nothing at all (no source, no flag, no log line).  So for a
    step whose narration starts loading and whose load settles only after
    the user moved to another index, no source is started, and the buffer
    is in the cache. *)
Lemma changed_index_discards_the_buffer index buffer :
  (forall later : App,
     currentStepRef later ≠ index ->
     playAudioForStep_continue index (inr buffer) later = later)
  /\ (forall steps step (a : App) b64 other,
        steps !! index = Some step ->
        audioCache a !! getAudioKey step = None ->
        audioLoadingPromises a !! getAudioKey step = None ->
        ctxSuspended a = false ->
        decodeAudio b64 = inr buffer ->
        other ≠ index ->
        let parked := playAudioForStep steps false index a in
        let loaded :=
          settle (nextPromise a) (inr b64)
            (setCurrentStepIndex other (snd parked)) in
        let resumed := playAudioForStep_continue index (inr buffer) loaded in
        fst parked = Some (AwaitBuffer index (Following (nextPromise a)))
        /\ settled loaded !! nextPromise a = Some (inr buffer)
        /\ resumed = loaded
        /\ started resumed = started a
        /\ activeSourceRef resumed = None
        /\ audioCache resumed !! getAudioKey step = Some buffer).
Proof.
  split.
  - intros later Hne. cbn. unfold playAudioForStep_ready.
    destruct (decide (index ≠ currentStepRef later)) as [_ | Hn]; [done |].
    exfalso. apply Hn. intros Heq. by apply Hne.
  - intros steps step a b64 other Hi Hc Hp Hctx Hdec Hother parked loaded resumed.
    assert (parked =
            playAudioForStep_load steps false index
              (setIsLoadingAudio true (stopSpeaking a))) as Hparked.
    { unfold parked, playAudioForStep. rewrite Hi.
      assert (audioCache (stopSpeaking a) !! getAudioKey step = None) as ->
        by (unfold stopSpeaking; by destruct (activeSourceRef a)).
      assert (ctxSuspended (setIsLoadingAudio true (stopSpeaking a)) = false)
        as -> by (unfold stopSpeaking; by destruct (activeSourceRef a)).
      done. }
    unfold playAudioForStep_load in Hparked.
    rewrite (ensure_starts _ _ step) in Hparked;
      [| done
       | unfold stopSpeaking; by destruct (activeSourceRef a)
       | unfold stopSpeaking; by destruct (activeSourceRef a)].
    assert (nextPromise (setIsLoadingAudio true (stopSpeaking a))
            = nextPromise a) as Hnext
      by (unfold stopSpeaking; by destruct (activeSourceRef a)).
    rewrite Hnext in Hparked.
    assert (currentStepRef loaded = other) as Hcur.
    { unfold loaded, Narration.settle. rewrite Hparked. cbn.
      rewrite lookup_insert_eq, Hdec. done. }
    assert (resumed = loaded) as Hres.
    { unfold resumed. cbn. unfold playAudioForStep_ready.
      destruct (decide (index ≠ currentStepRef loaded)) as [_ | Hn]; [done |].
      exfalso. apply Hn. intros Heq. apply Hother. congruence. }
    rewrite Hres. split; [by rewrite Hparked |].
    unfold loaded, Narration.settle. rewrite Hparked. cbn.
    rewrite lookup_insert_eq, Hdec. cbn.
    rewrite !lookup_insert_eq.
    repeat split; try done.
    all: unfold stopSpeaking; by destruct (activeSourceRef a) eqn:Hsrc.
Qed.

(** *** Preparing the audio of an export *)

Abbreviation prepareStep := (prepareStep decodeAudio).
Abbreviation prepareAudio := (prepareAudio decodeAudio).
Abbreviation synthesised := (synthesised decodeAudio).

Lemma loadFailed_fields i e (a : App) :
  let a1 := snd (loadFailed i e a) in
  audioCache a1 = audioCache a
  /\ audioLoadingPromises a1 = audioLoadingPromises a
  /\ inFlight a1 = inFlight a
  /\ synthRequests a1 = synthRequests a
  /\ (quotaExceeded a = true -> quotaExceeded a1 = true)
  /\ (is429 e = inr true -> quotaExceeded a1 = true)
  /\ nextPromise a1 = nextPromise a.
Proof.
  unfold loadFailed. destruct (is429 e) as [thrown | [|]]; cbn;
    repeat split; done.
Qed.

(** The loop body for a step whose key is neither cached nor pending: one
    request goes out, and the cache gets the buffer exactly if the request
    and the decoding succeed. *)
Lemma prepareStep_fresh steps upstream i step (a : App) :
  steps !! i = Some step ->
  audioCache a !! getAudioKey step = None ->
  audioLoadingPromises a !! getAudioKey step = None ->
  let a1 := prepareStep steps false upstream i step a in
  synthRequests a1 = synthRequests a ++ [narrationText step]
  /\ audioCache a1 =
       match synthesised (upstream i) with
       | Some buffer => <[getAudioKey step := buffer]> (audioCache a)
       | None => audioCache a
       end
  /\ audioLoadingPromises a1 = audioLoadingPromises a
  /\ (quotaExceeded a = true -> quotaExceeded a1 = true)
  /\ (forall e, upstream i = inl e -> is429 e = inr true ->
        quotaExceeded a1 = true).
Proof.
  intros Hi Hc Hp. unfold Narration.prepareStep.
  rewrite Hc, (ensure_starts _ _ _ _ Hi Hc Hp).
  unfold settleUpstream. cbn [inFlight]. rewrite lookup_insert_eq.
  unfold Narration.settle. cbn [inFlight]. rewrite lookup_insert_eq.
  unfold Narration.synthesised.
  assert (delete (getAudioKey step)
            (<[getAudioKey step := nextPromise a]> (audioLoadingPromises a))
          = audioLoadingPromises a) as Hdel
    by (rewrite delete_insert_eq; by apply delete_id).
  destruct (upstream i) as [e | b64]; [| destruct (decodeAudio b64) as [e | buffer]].
  - match goal with
    | |- context [loadFailed i e ?st] =>
        destruct (loadFailed_fields i e st)
          as (Hc1 & Hp1 & _ & Hr1 & Hq1 & Hq2 & _);
        destruct (loadFailed i e st) as [r a1]
    end.
    cbn in *. rewrite lookup_insert_eq. cbn.
    rewrite Hc1, Hp1, Hr1, Hdel. repeat split; try done.
    intros e' [= <-]. exact Hq2.
  - match goal with
    | |- context [loadFailed i e ?st] =>
        destruct (loadFailed_fields i e st)
          as (Hc1 & Hp1 & _ & Hr1 & Hq1 & Hq2 & _);
        destruct (loadFailed i e st) as [r a1]
    end.
    cbn in *. rewrite lookup_insert_eq. cbn.
    rewrite Hc1, Hp1, Hr1, Hdel. repeat split; try done.
  - cbn. rewrite lookup_insert_eq. cbn. rewrite Hdel. repeat split; done.
Qed.

Lemma prepareAudio_fresh steps upstream rest : forall i (a : App),
  (forall k step, rest !! k = Some step -> steps !! (i + k) = Some step) ->
  NoDup (map getAudioKey rest) ->
  (forall step, step ∈ rest ->
     audioCache a !! getAudioKey step = None
     /\ audioLoadingPromises a !! getAudioKey step = None) ->
  let a' := prepareAudio steps false upstream i rest a in
  synthRequests a' = synthRequests a ++ map narrationText rest
  /\ (forall k step, rest !! k = Some step ->
        audioCache a' !! getAudioKey step = synthesised (upstream (i + k)))
  /\ (forall key, key ∉ map getAudioKey rest ->
        audioCache a' !! key = audioCache a !! key)
  /\ audioLoadingPromises a' = audioLoadingPromises a
  /\ (quotaExceeded a = true -> quotaExceeded a' = true)
  /\ (forall k e, k < length rest -> upstream (i + k) = inl e ->
        is429 e = inr true -> quotaExceeded a' = true).
Proof.
  induction rest as [| step rest IH]; intros i a Hsteps Hnd Hfresh.
  - cbn. rewrite app_nil_r. repeat split; try done.
    intros k e Hk. cbn in Hk. lia.
  - cbn in Hnd. apply NoDup_cons in Hnd as [Hstep Hnd].
    destruct (Hfresh step) as [Hc Hp]; [left |].
    assert (steps !! i = Some step) as Hi.
    { specialize (Hsteps 0 step eq_refl). by rewrite Nat.add_0_r in Hsteps. }
    destruct (prepareStep_fresh steps upstream i step a Hi Hc Hp)
      as (Hr1 & Hc1 & Hp1 & Hq1 & Hq1').
    set (a1 := prepareStep steps false upstream i step a) in *.
    assert (forall key, key ≠ getAudioKey step ->
              audioCache a1 !! key = audioCache a !! key) as Hother.
    { intros key Hne. rewrite Hc1.
      destruct (synthesised (upstream i)); [| done].
      by rewrite lookup_insert_ne. }
    destruct (IH (S i) a1) as (Hr & Hcs & Hrest & Hps & Hq & Hq').
    { intros k s' Hk. specialize (Hsteps (S k) s' Hk).
      by rewrite Nat.add_succ_r in Hsteps. }
    { exact Hnd. }
    { intros s' Hs'. destruct (Hfresh s') as [Hc' Hp']; [by right |].
      rewrite Hp1. split; [| exact Hp'].
      rewrite Hother; [exact Hc' |].
      intros Heq. apply Hstep. rewrite <- Heq.
      by apply list_elem_of_fmap_2. }
    cbn [Narration.prepareAudio]. fold a1. cbn zeta.
    repeat split.
    + rewrite Hr, Hr1. cbn. by rewrite <- app_assoc.
    + intros [| k] s' Hk.
      * cbn in Hk. injection Hk as <-. rewrite Hrest by exact Hstep.
        rewrite Hc1, Nat.add_0_r.
        destruct (synthesised (upstream i)); [apply lookup_insert_eq | exact Hc].
      * rewrite Nat.add_succ_r. by apply Hcs.
    + intros key Hkey. cbn in Hkey. apply not_elem_of_cons in Hkey as [Hne Hkey].
      rewrite Hrest by exact Hkey. by apply Hother.
    + congruence.
    + intros Hqa. by apply Hq, Hq1.
    + intros [| k] e Hk Hup H429.
      * rewrite Nat.add_0_r in Hup. by apply Hq, (Hq1' e).
      * rewrite Nat.add_succ_r in Hup. apply (Hq' k e); [cbn in Hk; lia | done..].
Qed.

(** *** The export walk *)

Abbreviation playExportStep := (playExportStep duration).
Abbreviation handleExportVideo := (handleExportVideo decodeAudio duration).

Lemma playExportStep_narrated fuel steps cache index t step buffer :
  steps !! index = Some step ->
  cache !! getAudioKey step = Some buffer ->
  playExportStep (S fuel) steps cache index t =
  (t, ShowStep index) :: (t + 100, ReplayCanvas index) ::
  (t + 100, SourceStart index buffer) ::
  (t + 100 + duration buffer, SourceEnded index) ::
  playExportStep fuel steps cache (S index) (t + 100 + duration buffer + 1000).
Proof.
  intros Hi Hc. cbn [Narration.playExportStep].
  apply lookup_lt_Some in Hi as Hlt.
  destruct (decide (length steps ≤ index)); [lia |]. by rewrite Hi, Hc.
Qed.

Lemma playExportStep_silent (fuel : nat) (steps : list SketchStep)
    (cache : gmap jsstring AudioBuffer) (index t : nat) (step : SketchStep) :
  steps !! index = Some step ->
  cache !! getAudioKey step = None ->
  playExportStep (S fuel) steps cache index t =
  (t, ShowStep index) :: (t + 100, ReplayCanvas index) ::
  (t + 100, HoldNoAudio index) ::
  playExportStep fuel steps cache (S index) (t + 100 + 5000).
Proof.
  intros Hi Hc. cbn [Narration.playExportStep].
  apply lookup_lt_Some in Hi as Hlt.
  destruct (decide (length steps ≤ index)); [lia |]. by rewrite Hi, Hc.
Qed.

Lemma playExportStep_end (fuel : nat) (steps : list SketchStep)
    (cache : gmap jsstring AudioBuffer) (index t : nat) :
  length steps ≤ index ->
  playExportStep (S fuel) steps cache index t = [(t + 1000, RecorderStop)].
Proof.
  intros Hle. cbn [Narration.playExportStep].
  by destruct (decide (length steps ≤ index)).
Qed.

Lemma stopSpeaking_keeps (a : App) :
  let a0 := setCtxSuspended false (stopSpeaking a) in
  audioCache a0 = audioCache a
  /\ audioLoadingPromises a0 = audioLoadingPromises a
  /\ synthRequests a0 = synthRequests a
  /\ quotaExceeded a0 = quotaExceeded a.
Proof. unfold stopSpeaking. by destruct (activeSourceRef a). Qed.

(** C7.  Export over four steps with distinct keys, none cached or
    pending, started from a render that saw no quota problem; the service
    rate-limits the request for the second step and serves the others.
    The export does not abort: all four requests go out, in order (the
    sticky flag is raised by the second, but the running export keeps the
    loader of the render it was started from); the first, third and fourth
    step are recorded with their narration, and the second with its
    replay and the fixed 5000 ms hold. *)
Theorem export_survives_a_rate_limited_step s1 s2 s3 s4 (a : App)
    upstream e b1 b3 b4 :
  let steps := [s1; s2; s3; s4] in
  NoDup (map getAudioKey steps) ->
  (forall step, step ∈ steps ->
     audioCache a !! getAudioKey step = None
     /\ audioLoadingPromises a !! getAudioKey step = None) ->
  upstream 1 = inl e -> is429 e = inr true ->
  synthesised (upstream 0) = Some b1 ->
  synthesised (upstream 2) = Some b3 ->
  synthesised (upstream 3) = Some b4 ->
  let result := handleExportVideo steps false false true upstream a in
  let t1 := 100 + duration b1 + 1000 in
  let t2 := t1 + 100 + 5000 in
  let t3 := t2 + 100 + duration b3 + 1000 in
  let t4 := t3 + 100 + duration b4 + 1000 in
  synthRequests (snd result) = synthRequests a ++ map narrationText steps
  /\ quotaExceeded (snd result) = true
  /\ audioCache (snd result) !! getAudioKey s2 = None
  /\ fst result =
     Recording
       [(0, ShowStep 0); (100, ReplayCanvas 0); (100, SourceStart 0 b1);
        (100 + duration b1, SourceEnded 0);
        (t1, ShowStep 1); (t1 + 100, ReplayCanvas 1);
        (t1 + 100, HoldNoAudio 1);
        (t2, ShowStep 2); (t2 + 100, ReplayCanvas 2);
        (t2 + 100, SourceStart 2 b3);
        (t2 + 100 + duration b3, SourceEnded 2);
        (t3, ShowStep 3); (t3 + 100, ReplayCanvas 3);
        (t3 + 100, SourceStart 3 b4);
        (t3 + 100 + duration b4, SourceEnded 3);
        (t4 + 1000, RecorderStop)].
Proof.
  intros steps Hnd Hfresh Hup1 H429 Hup0 Hup2 Hup3 result t1 t2 t3 t4.
  destruct (stopSpeaking_keeps a) as (Hc0 & Hp0 & Hr0 & Hq0).
  set (a0 := setCtxSuspended false (stopSpeaking a)) in *.
  destruct (prepareAudio_fresh steps upstream steps 0 a0)
    as (Hreq & Hcache & _ & _ & _ & Hquota).
  { by intros k step Hk. }
  { exact Hnd. }
  { intros step Hstep. rewrite Hc0, Hp0. by apply Hfresh. }
  set (a' := prepareAudio steps false upstream 0 steps a0) in *.
  assert (result =
          (Recording (playExportStep 5 steps (audioCache a') 0 0), a'))
    as Hresult by done.
  pose proof (Hcache 0 s1 eq_refl) as Hk1.
  pose proof (Hcache 1 s2 eq_refl) as Hk2.
  pose proof (Hcache 2 s3 eq_refl) as Hk3.
  pose proof (Hcache 3 s4 eq_refl) as Hk4.
  cbn [Nat.add] in Hk1, Hk2, Hk3, Hk4.
  rewrite Hup0 in Hk1. rewrite Hup2 in Hk3. rewrite Hup3 in Hk4.
  rewrite Hup1 in Hk2. change (synthesised (inl e)) with (@None AudioBuffer) in Hk2.
  rewrite Hresult. cbn [fst snd].
  split; [by rewrite Hreq, Hr0 |].
  split; [apply (Hquota 1 e); [cbn; lia | done | done] |].
  split; [exact Hk2 |].
  rewrite (playExportStep_narrated 4 steps _ 0 _ s1 b1 eq_refl Hk1).
  rewrite (playExportStep_silent 3 steps _ 1 _ s2 eq_refl Hk2).
  rewrite (playExportStep_narrated 2 steps _ 2 _ s3 b3 eq_refl Hk3).
  rewrite (playExportStep_narrated 1 steps _ 3 _ s4 b4 eq_refl Hk4).
  rewrite playExportStep_end by (cbn; lia).
  unfold t4, t3, t2, t1. repeat (f_equal; try lia).
Qed.

(** The three shapes one link of the chain can have. *)
Lemma playExportStep_cases (fuel : nat) (steps : list SketchStep)
    (cache : gmap jsstring AudioBuffer) (index t : nat) :
  (length steps ≤ index
   /\ playExportStep (S fuel) steps cache index t = [(t + 1000, RecorderStop)])
  \/ (exists step buffer,
        steps !! index = Some step
        /\ cache !! getAudioKey step = Some buffer
        /\ playExportStep (S fuel) steps cache index t =
           (t, ShowStep index) :: (t + 100, ReplayCanvas index) ::
           (t + 100, SourceStart index buffer) ::
           (t + 100 + duration buffer, SourceEnded index) ::
           playExportStep fuel steps cache (S index)
             (t + 100 + duration buffer + 1000))
  \/ (exists step,
        steps !! index = Some step
        /\ cache !! getAudioKey step = None
        /\ playExportStep (S fuel) steps cache index t =
           (t, ShowStep index) :: (t + 100, ReplayCanvas index) ::
           (t + 100, HoldNoAudio index) ::
           playExportStep fuel steps cache (S index) (t + 100 + 5000)).
Proof.
  destruct (decide (length steps ≤ index)) as [Hle | Hlt].
  - left. split; [done |]. by apply playExportStep_end.
  - right. destruct (lookup_lt_is_Some_2 steps index) as [step Hi]; [lia |].
    destruct (cache !! getAudioKey step) as [buffer |] eqn:Hc.
    + left. exists step, buffer. repeat split; try done.
      by apply (playExportStep_narrated _ _ _ _ _ step).
    + right. exists step. repeat split; try done.
      by apply (playExportStep_silent _ _ _ _ _ step).
Qed.

Lemma export_bounds (steps : list SketchStep)
    (cache : gmap jsstring AudioBuffer) (fuel : nat) :
  forall index t τ ev,
    (τ, ev) ∈ playExportStep fuel steps cache index t ->
    t ≤ τ
    /\ (forall j, stepOf ev = Some j -> index ≤ j)
    /\ (forall j b, ev = SourceStart j b -> t + 100 ≤ τ).
Proof.
  induction fuel as [| fuel IH]; intros index t τ ev Hin;
    [by apply elem_of_nil in Hin |].
  destruct (playExportStep_cases fuel steps cache index t)
    as [[_ Heq] | [(step & buffer & _ & _ & Heq) | (step & _ & _ & Heq)]];
    rewrite Heq in Hin; clear Heq.
  - apply list_elem_of_singleton in Hin as [= -> ->].
    repeat split; [lia | done | done].
  - rewrite !elem_of_cons in Hin.
    destruct Hin as [[= -> ->] | [[= -> ->] | [[= -> ->] | [[= -> ->] | Hin]]]].
    + repeat split; [lia | by intros j [= <-] | done].
    + repeat split; [lia | by intros j [= <-] | done].
    + repeat split; [lia | by intros j [= <-] | intros; lia].
    + repeat split; [lia | by intros j [= <-] | done].
    + destruct (IH _ _ _ _ Hin) as (Ht & Hj & Hs). repeat split.
      * lia.
      * intros j Hev. specialize (Hj j Hev). lia.
      * intros j b Hev. specialize (Hs j b Hev). lia.
  - rewrite !elem_of_cons in Hin.
    destruct Hin as [[= -> ->] | [[= -> ->] | [[= -> ->] | Hin]]].
    + repeat split; [lia | by intros j [= <-] | done].
    + repeat split; [lia | by intros j [= <-] | done].
    + repeat split; [lia | by intros j [= <-] | done].
    + destruct (IH _ _ _ _ Hin) as (Ht & Hj & Hs). repeat split.
      * lia.
      * intros j Hev. specialize (Hj j Hev). lia.
      * intros j b Hev. specialize (Hs j b Hev). lia.
Qed.







(** *** The cache and the pending map over the life of the app *)

Lemma settle_fields p response (a : App) key i :
  inFlight a !! p = Some (key, i) ->
  let a' := settle p response a in
  audioLoadingPromises a' = delete key (audioLoadingPromises a)
  /\ inFlight a' = delete p (inFlight a)
  /\ nextPromise a' = nextPromise a
  /\ synthRequests a' = synthRequests a
  /\ (audioCache a' = audioCache a
      \/ exists buffer, audioCache a' = <[key := buffer]> (audioCache a)).
Proof.
  intros Hp. unfold Narration.settle. rewrite Hp.
  destruct response as [e | b64]; [| destruct (decodeAudio b64) as [e | buffer]].
  - destruct (loadFailed_fields i e a) as (Hc & Hl & Hf & Hr & _ & _ & Hn).
    destruct (loadFailed i e a) as [r a1]. cbn in *.
    rewrite Hc, Hl, Hf, Hr, Hn. repeat split; try done. by left.
  - destruct (loadFailed_fields i e a) as (Hc & Hl & Hf & Hr & _ & _ & Hn).
    destruct (loadFailed i e a) as [r a1]. cbn in *.
    rewrite Hc, Hl, Hf, Hr, Hn. repeat split; try done. by left.
  - cbn. repeat split; try done. right. by exists buffer.
Qed.

Lemma consistent_ask steps quota index (a : App) :
  consistent a -> consistent (snd (ensureAudioLoaded steps quota index a)).
Proof.
  intros (Hpf & Hfp & Hnext & Hcp). unfold ensureAudioLoaded.
  destruct quota; [done |].
  destruct (steps !! index) as [step |]; [| done].
  destruct (audioCache a !! getAudioKey step) as [buffer |] eqn:Hc; [done |].
  destruct (audioLoadingPromises a !! getAudioKey step) as [p |] eqn:Hp;
    [done |].
  cbn. repeat split; cbn.
  - intros key p Hkey.
    destruct (decide (getAudioKey step = key)) as [<- | Hne].
    + rewrite lookup_insert_eq in Hkey. injection Hkey as <-.
      exists index. apply lookup_insert_eq.
    + rewrite lookup_insert_ne in Hkey by done.
      destruct (Hpf key p Hkey) as [i Hi]. exists i.
      rewrite lookup_insert_ne; [done |].
      intros <-. specialize (Hnext (nextPromise a) (mk_is_Some _ _ Hi)). lia.
  - intros p key i Hin.
    destruct (decide (nextPromise a = p)) as [<- | Hne].
    + rewrite lookup_insert_eq in Hin. injection Hin as <- <-.
      apply lookup_insert_eq.
    + rewrite lookup_insert_ne in Hin by done.
      pose proof (Hfp p key i Hin) as Hkey.
      rewrite lookup_insert_ne; [done |]. intros <-. congruence.
  - intros p Hin.
    destruct (decide (nextPromise a = p)) as [<- | Hne]; [lia |].
    rewrite lookup_insert_ne in Hin by done. specialize (Hnext p Hin). lia.
  - intros key Hkey.
    destruct (decide (getAudioKey step = key)) as [<- | Hne].
    + rewrite Hc in Hkey. by destruct Hkey.
    + rewrite lookup_insert_ne by done. by apply Hcp.
Qed.

Lemma consistent_answer p response (a : App) :
  consistent a -> consistent (settle p response a).
Proof.
  intros (Hpf & Hfp & Hnext & Hcp).
  destruct (inFlight a !! p) as [[key i] |] eqn:Hp.
  2:{ unfold Narration.settle. by rewrite Hp. }
  destruct (settle_fields p response a key i Hp) as (Hl & Hf & Hn & _ & Hc).
  pose proof (Hfp p key i Hp) as Hkey.
  unfold consistent. rewrite Hl, Hf, Hn. repeat split.
  - intros k q Hk.
    destruct (decide (key = k)) as [<- | Hne];
      [by rewrite lookup_delete_eq in Hk |].
    rewrite lookup_delete_ne in Hk by done.
    destruct (Hpf k q Hk) as [j Hj]. exists j.
    rewrite lookup_delete_ne; [done |]. intros <-. congruence.
  - intros q k j Hq.
    destruct (decide (p = q)) as [<- | Hne];
      [by rewrite lookup_delete_eq in Hq |].
    rewrite lookup_delete_ne in Hq by done.
    pose proof (Hfp q k j Hq) as Hk.
    rewrite lookup_delete_ne; [done |]. intros <-. congruence.
  - intros q Hq.
    destruct (decide (p = q)) as [<- | Hne];
      [rewrite lookup_delete_eq in Hq; by destruct Hq |].
    rewrite lookup_delete_ne in Hq by done. by apply Hnext.
  - intros k Hk.
    destruct (decide (key = k)) as [<- | Hne]; [apply lookup_delete_eq |].
    rewrite lookup_delete_ne by done. apply Hcp.
    destruct Hc as [Hc | [buffer Hc]]; rewrite Hc in Hk; [done |].
    by rewrite lookup_insert_ne in Hk.
Qed.

(** Whatever is asked of the loader and however the service answers, from
    the start of the app on: a key that is cached is not pending, a key has
    at most one request in flight, and the pending map holds exactly the
    requests in flight. *)
Theorem loader_keeps_cache_and_pending_apart steps evs :
  let a := foldl (loaderStep decodeAudio steps) (fresh : App) evs in
  (forall key, is_Some (audioCache a !! key) ->
     audioLoadingPromises a !! key = None)
  /\ (forall p q key i j,
        inFlight a !! p = Some (key, i) -> inFlight a !! q = Some (key, j) ->
        p = q)
  /\ (forall key p,
        audioLoadingPromises a !! key = Some p <->
        exists i, inFlight a !! p = Some (key, i)).
Proof.
  intros a.
  assert (forall a0 : App,
            consistent a0 ->
            consistent (foldl (loaderStep decodeAudio steps) a0 evs)) as Hgen.
  { induction evs as [| ev evs IH]; intros a0 Ha0; [done |].
    cbn [foldl]. apply IH.
    destruct ev; [by apply consistent_ask | by apply consistent_answer]. }
  assert (consistent (fresh : App)) as Hfresh.
  { repeat split; intros *; cbn; rewrite ?lookup_empty;
      first [done | by intros [? ?]]. }
  destruct (Hgen _ Hfresh) as (Hpf & Hfp & _ & Hcp). fold a in Hpf, Hfp, Hcp.
  split; [exact Hcp |]. split.
  - intros p q key i j Hp Hq.
    pose proof (Hfp _ _ _ Hp). pose proof (Hfp _ _ _ Hq). congruence.
  - intros key p. split; [apply Hpf |]. intros [i Hi]. by apply (Hfp p key i).
Qed.

(** *** Retrying, and the quota flag *)

Lemma settle_answers steps i step (a : App) response :
  steps !! i = Some step ->
  audioCache a !! getAudioKey step = None ->
  audioLoadingPromises a !! getAudioKey step = None ->
  let asked := snd (ensureAudioLoaded steps false i a) in
  let answered := settle (nextPromise a) response asked in
  audioLoadingPromises answered = audioLoadingPromises a
  /\ synthRequests answered = synthRequests a ++ [narrationText step]
  /\ nextPromise answered = S (nextPromise a)
  /\ match synthesised response with
     | Some buffer =>
         audioCache answered = <[getAudioKey step := buffer]> (audioCache a)
         /\ settled answered !! nextPromise a = Some (inr buffer)
     | None =>
         audioCache answered = audioCache a
         /\ exists e, settled answered !! nextPromise a = Some (inl e)
     end.
Proof.
  intros Hi Hc Hp asked answered. unfold answered, asked.
  rewrite (ensure_starts _ _ _ _ Hi Hc Hp). cbn [snd].
  unfold Narration.settle. cbn [inFlight]. rewrite lookup_insert_eq.
  unfold Narration.synthesised.
  assert (delete (getAudioKey step)
            (<[getAudioKey step := nextPromise a]> (audioLoadingPromises a))
          = audioLoadingPromises a) as Hdel
    by (rewrite delete_insert_eq; by apply delete_id).
  destruct response as [e | b64]; [| destruct (decodeAudio b64) as [e | buffer]].
  - match goal with
    | |- context [loadFailed i e ?st] =>
        destruct (loadFailed_fields i e st)
          as (Hc1 & Hp1 & _ & Hr1 & _ & _ & Hn1);
        destruct (loadFailed i e st) as [r a1]
    end.
    cbn in *. rewrite lookup_insert_eq, Hc1, Hp1, Hr1, Hn1, Hdel.
    repeat split; try done. by exists r.
  - match goal with
    | |- context [loadFailed i e ?st] =>
        destruct (loadFailed_fields i e st)
          as (Hc1 & Hp1 & _ & Hr1 & _ & _ & Hn1);
        destruct (loadFailed i e st) as [r a1]
    end.
    cbn in *. rewrite lookup_insert_eq, Hc1, Hp1, Hr1, Hn1, Hdel.
    repeat split; try done. by exists r.
  - cbn. rewrite lookup_insert_eq, Hdel. repeat split; done.
Qed.

Lemma settle_answers_flag steps i step (a : App) response :
  steps !! i = Some step ->
  audioCache a !! getAudioKey step = None ->
  audioLoadingPromises a !! getAudioKey step = None ->
  let asked := snd (ensureAudioLoaded steps false i a) in
  let answered := settle (nextPromise a) response asked in
  quotaExceeded answered =
  match loadError decodeAudio response with
  | Some e =>
      match is429 e with
      | inr true => true
      | _ => quotaExceeded a
      end
  | None => quotaExceeded a
  end.
Proof.
  intros Hi Hc Hp asked answered. unfold answered, asked.
  rewrite (ensure_starts _ _ _ _ Hi Hc Hp). cbn [snd].
  unfold Narration.settle. cbn [inFlight]. rewrite lookup_insert_eq.
  unfold loadError, loadFailed.
  destruct response as [e | b64]; [| destruct (decodeAudio b64) as [e | buffer]];
    try destruct (is429 e) as [thrown | [|]]; done.
Qed.

(** What the loader does once a request has been answered.  For a step
    whose narration was neither cached nor pending, the key is no longer
    pending.  A caller of a render that saw the quota flag raised is
    turned away before the cache is looked at, whatever the answer was.
    A caller of a render that saw the flag down is served from the cache
    after a good answer (for every step with that key, the state left
    alone), and after a bad one, with nothing cached, sends the same text
    again under a new promise.  A good answer leaves the flag as it was;
    a failure that tests as a 429 raises it, so the render that follows
    does not retry; any other failure leaves it as it was. *)
Theorem answered_request_is_cached_or_open_to_retry
    steps i step (a : App) response :
  steps !! i = Some step ->
  audioCache a !! getAudioKey step = None ->
  audioLoadingPromises a !! getAudioKey step = None ->
  let asked := snd (ensureAudioLoaded steps false i a) in
  let answered := settle (nextPromise a) response asked in
  audioLoadingPromises answered !! getAudioKey step = None
  /\ (forall j,
        ensureAudioLoaded steps true j answered
        = (Rejected (Error "Quota exceeded"), answered))
  /\ match synthesised response with
     | Some buffer =>
         settled answered !! nextPromise a = Some (inr buffer)
         /\ quotaExceeded answered = quotaExceeded a
         /\ forall j step',
              steps !! j = Some step' ->
              getAudioKey step' = getAudioKey step ->
              ensureAudioLoaded steps false j answered
              = (Fulfilled buffer, answered)
     | None =>
         (exists e, settled answered !! nextPromise a = Some (inl e))
         /\ audioCache answered !! getAudioKey step = None
         /\ fst (ensureAudioLoaded steps false i answered)
            = Following (S (nextPromise a))
         /\ synthRequests (snd (ensureAudioLoaded steps false i answered))
            = synthRequests a ++ [narrationText step; narrationText step]
         /\ exists e,
              loadError decodeAudio response = Some e
              /\ (is429 e = inr true ->
                  quotaExceeded answered = true
                  /\ ensureAudioLoaded steps (quotaExceeded answered) i answered
                     = (Rejected (Error "Quota exceeded"), answered))
              /\ (is429 e ≠ inr true ->
                  quotaExceeded answered = quotaExceeded a)
     end.
Proof.
  intros Hi Hc Hp asked answered.
  destruct (settle_answers steps i step a response Hi Hc Hp)
    as (Hp' & Hr' & Hn' & Hout).
  pose proof (settle_answers_flag steps i step a response Hi Hc Hp) as Hflag.
  fold asked in Hp', Hr', Hn', Hout, Hflag.
  fold answered in Hp', Hr', Hn', Hout, Hflag.
  split; [by rewrite Hp' |]. split; [done |].
  assert (match synthesised response with
          | Some _ => loadError decodeAudio response = None
          | None => exists e, loadError decodeAudio response = Some e
          end) as Herr.
  { unfold Narration.synthesised, loadError.
    destruct response as [e | b64]; [by exists e |].
    destruct (decodeAudio b64) as [e | buffer]; [by exists e | done]. }
  destruct (synthesised response) as [buffer |].
  - destruct Hout as [Hc' Hs']. rewrite Herr in Hflag.
    split; [exact Hs' |]. split; [exact Hflag |].
    intros j step' Hj Hkey. apply (ensure_cached _ _ step'); [done |].
    rewrite Hkey, Hc'. apply lookup_insert_eq.
  - destruct Hout as [Hc' Hs']. destruct Herr as [e He].
    rewrite He in Hflag. split; [exact Hs' |].
    assert (audioCache answered !! getAudioKey step = None) as Hc2
      by (by rewrite Hc').
    assert (audioLoadingPromises answered !! getAudioKey step = None) as Hp2
      by (by rewrite Hp').
    split; [exact Hc2 |].
    rewrite (ensure_starts _ _ _ _ Hi Hc2 Hp2). cbn [fst snd synthRequests].
    rewrite Hn', Hr', <- app_assoc.
    split; [done |]. split; [done |].
    exists e. split; [done |]. split.
    + intros H429. rewrite H429 in Hflag.
      assert (quotaExceeded answered = true) as -> by exact Hflag. done.
    + intros Hnot. destruct (is429 e) as [thrown | [|]]; done.
Qed.

Lemma settle_quota p response (a : App) :
  let a' := settle p response a in
  (quotaExceeded a = true -> quotaExceeded a' = true)
  /\ (quotaExceeded a = false -> quotaExceeded a' = true ->
      is_Some (inFlight a !! p)
      /\ exists e, loadError decodeAudio response = Some e
                  /\ is429 e = inr true).
Proof.
  unfold Narration.settle, loadError.
  destruct (inFlight a !! p) as [[key i] |]; [| by split; [| congruence]].
  destruct response as [e | b64]; [| destruct (decodeAudio b64) as [e | buffer]].
  - unfold loadFailed. destruct (is429 e) as [thrown | [|]] eqn:H429; cbn;
      (split; [done |]); intros Hq Hq'; try congruence.
    split; [done |]. by exists e.
  - unfold loadFailed. destruct (is429 e) as [thrown | [|]] eqn:H429; cbn;
      (split; [done |]); intros Hq Hq'; try congruence.
    split; [done |]. by exists e.
  - cbn. split; [done |]. congruence.
Qed.

Lemma ask_quota steps quota index (a : App) :
  quotaExceeded (snd (ensureAudioLoaded steps quota index a))
  = quotaExceeded a.
Proof.
  unfold ensureAudioLoaded. destruct quota; [done |].
  destruct (steps !! index) as [step |]; [| done].
  destruct (audioCache a !! getAudioKey step); [done |].
  by destruct (audioLoadingPromises a !! getAudioKey step).
Qed.

(** The loader raises the quota flag and never lowers it.  Over any run
    of calls and answers the flag, once up, stays up; and when it goes up
    during the run, one of the answers was a failure that tests as a
    429 (by status, code or message). *)
Theorem quota_flag_is_raised_only_by_a_429 steps evs (a : App) :
  let a' := foldl (loaderStep decodeAudio steps) a evs in
  (quotaExceeded a = true -> quotaExceeded a' = true)
  /\ (quotaExceeded a = false -> quotaExceeded a' = true ->
      exists p response e,
        Answer p response ∈ evs
        /\ loadError decodeAudio response = Some e
        /\ is429 e = inr true).
Proof.
  revert a. induction evs as [| ev evs IH]; intros a; cbn [foldl].
  - split; [done | congruence].
  - destruct (IH (loaderStep decodeAudio steps a ev)) as [Hkeep Hraise].
    assert (quotaExceeded a = true ->
            quotaExceeded (loaderStep decodeAudio steps a ev) = true) as Hstep.
    { destruct ev as [quota index | p response]; cbn.
      - by rewrite ask_quota.
      - apply settle_quota. }
    split; [intros Hq; by apply Hkeep, Hstep |].
    intros Hq Hq'.
    destruct (quotaExceeded (loaderStep decodeAudio steps a ev)) eqn:Hmid.
    + destruct ev as [quota index | p response]; cbn in Hmid.
      * rewrite ask_quota in Hmid. congruence.
      * destruct (settle_quota p response a) as [_ Hwhy].
        destruct (Hwhy Hq Hmid) as (_ & e & He & H429).
        exists p, response, e. split; [left | done].
    + destruct (Hraise eq_refl Hq') as (p & response & e & Hin & He & H429).
      exists p, response, e. split; [by right | done].
Qed.

(** *** Playing a step *)

Lemma stopSpeaking_fields (a : App) :
  let a0 := stopSpeaking a in
  audioCache a0 = audioCache a
  /\ audioLoadingPromises a0 = audioLoadingPromises a
  /\ synthRequests a0 = synthRequests a
  /\ nextPromise a0 = nextPromise a
  /\ started a0 = started a
  /\ currentStepRef a0 = currentStepRef a
  /\ ctxSuspended a0 = ctxSuspended a
  /\ isLoadingAudio a0 = isLoadingAudio a
  /\ activeSourceRef a0 = None
  /\ isSpeaking a0 = false.
Proof.
  unfold stopSpeaking. destruct (activeSourceRef a) eqn:Hsrc; cbn;
    repeat split; done.
Qed.

(** A call for a step that is neither cached nor pending, with the audio
    context running, parks on the promise of a new request. *)
Lemma play_asks steps index step (a : App) :
  steps !! index = Some step ->
  audioCache a !! getAudioKey step = None ->
  audioLoadingPromises a !! getAudioKey step = None ->
  ctxSuspended a = false ->
  let r := playAudioForStep steps false index a in
  fst r = Some (AwaitBuffer index (Following (nextPromise a)))
  /\ audioCache (snd r) = audioCache a
  /\ audioLoadingPromises (snd r)
     = <[getAudioKey step := nextPromise a]> (audioLoadingPromises a)
  /\ inFlight (snd r)
     = <[nextPromise a := (getAudioKey step, index)]> (inFlight a)
  /\ synthRequests (snd r) = synthRequests a ++ [narrationText step]
  /\ started (snd r) = started a
  /\ currentStepRef (snd r) = currentStepRef a
  /\ ctxSuspended (snd r) = false
  /\ nextPromise (snd r) = S (nextPromise a).
Proof.
  intros Hi Hc Hp Hctx.
  destruct (stopSpeaking_fields a)
    as (Hc0 & Hp0 & Hr0 & Hn0 & Hs0 & Hcur0 & Hctx0 & _).
  unfold playAudioForStep. rewrite Hi, Hc0, Hc.
  change (ctxSuspended (setIsLoadingAudio true (stopSpeaking a)))
    with (ctxSuspended (stopSpeaking a)).
  rewrite Hctx0, Hctx. unfold playAudioForStep_load.
  rewrite (ensure_starts _ _ step);
    [| done
     | cbn [audioCache setIsLoadingAudio]; by rewrite Hc0
     | cbn [audioLoadingPromises setIsLoadingAudio]; by rewrite Hp0].
  cbn. destruct (activeSourceRef a); cbn; by rewrite ?Hctx.
Qed.

(** A call for a step whose request is pending parks on its promise and
    asks for nothing. *)
Lemma play_follows steps index step (a : App) p :
  steps !! index = Some step ->
  audioCache a !! getAudioKey step = None ->
  audioLoadingPromises a !! getAudioKey step = Some p ->
  ctxSuspended a = false ->
  playAudioForStep steps false index a
  = (Some (AwaitBuffer index (Following p)),
     setIsLoadingAudio true (stopSpeaking a)).
Proof.
  intros Hi Hc Hp Hctx.
  destruct (stopSpeaking_fields a)
    as (Hc0 & Hp0 & Hr0 & Hn0 & Hs0 & Hcur0 & Hctx0 & _).
  unfold playAudioForStep. rewrite Hi, Hc0, Hc.
  change (ctxSuspended (setIsLoadingAudio true (stopSpeaking a)))
    with (ctxSuspended (stopSpeaking a)).
  rewrite Hctx0, Hctx. unfold playAudioForStep_load.
  rewrite (ensure_pending _ _ step _ p);
    [done | done
     | cbn [audioCache setIsLoadingAudio]; by rewrite Hc0
     | cbn [audioLoadingPromises setIsLoadingAudio]; by rewrite Hp0].
Qed.

(** A call for a step whose narration is cached has its buffer at once
    and never shows the loading state. *)
Lemma play_cached steps index step (a : App) buffer :
  steps !! index = Some step ->
  audioCache a !! getAudioKey step = Some buffer ->
  ctxSuspended a = false ->
  playAudioForStep steps false index a
  = (Some (AwaitBuffer index (Fulfilled buffer)), stopSpeaking a).
Proof.
  intros Hi Hc Hctx.
  destruct (stopSpeaking_fields a)
    as (Hc0 & Hp0 & Hr0 & Hn0 & Hs0 & Hcur0 & Hctx0 & _).
  unfold playAudioForStep. rewrite Hi, Hc0, Hc, Hctx0, Hctx.
  unfold playAudioForStep_load.
  by rewrite (ensure_cached _ _ step _ buffer); rewrite ?Hc0.
Qed.

(** The buffer arrives while the step is still displayed: a source is
    started and becomes the active one. *)
Lemma ready_starts index buffer (a : App) :
  currentStepRef a = index ->
  let a' := playAudioForStep_ready index buffer a in
  started a' = started a ++ [buffer]
  /\ activeSourceRef a' = Some (length (started a))
  /\ currentStepRef a' = index
  /\ isSpeaking a' = true
  /\ isLoadingAudio a' = false.
Proof.
  intros <-. unfold playAudioForStep_ready.
  by destruct (decide (currentStepRef a ≠ currentStepRef a)).
Qed.

(** C8, as the code has it.  The guard compares step indices, not what
    is displayed.  A call of [playAudioForStep] for a step whose narration
    has to be asked for parks on the request.  When the user moves to
    another index before the answer, the resumed call starts nothing and
    changes nothing, and the buffer is in the cache.  But when the call
    was for index 0 and the user meanwhile opens another guide from the
    history, or submits a new search, the index is 0 again: the guard
    passes, and the narration of the step that is no longer displayed is
    started. *)
Theorem stale_guard_compares_indices_only
    steps index step (a : App) b64 buffer :
  steps !! index = Some step ->
  audioCache a !! getAudioKey step = None ->
  audioLoadingPromises a !! getAudioKey step = None ->
  ctxSuspended a = false ->
  decodeAudio b64 = inr buffer ->
  let parked := playAudioForStep steps false index a in
  fst parked = Some (AwaitBuffer index (Following (nextPromise a)))
  /\ (forall other, other ≠ index ->
        let loaded :=
          settle (nextPromise a) (inr b64)
            (setCurrentStepIndex other (snd parked)) in
        let resumed := playAudioForStep_continue index (inr buffer) loaded in
        resumed = loaded
        /\ started resumed = started a
        /\ activeSourceRef resumed = None
        /\ audioCache resumed !! getAudioKey step = Some buffer)
  /\ (index = 0 ->
      forall replaced,
        replaced = loadHistoryItem (snd parked)
        \/ (exists query,
              trim query ≠ []
              /\ replaced = handleSearch_begin query (snd parked)) ->
        let loaded := settle (nextPromise a) (inr b64) replaced in
        let resumed := playAudioForStep_continue index (inr buffer) loaded in
        currentStepIndex loaded = 0
        /\ started resumed = started a ++ [buffer]
        /\ activeSourceRef resumed = Some (length (started a))
        /\ isSpeaking resumed = true).
Proof.
  intros Hi Hc Hp Hctx Hdec parked.
  destruct (play_asks steps index step a Hi Hc Hp Hctx)
    as (Hf & _ & _ & Hfl1 & _ & Hs1 & _).
  fold parked in Hf, Hfl1, Hs1.
  split; [exact Hf |]. split.
  - intros other Hother loaded resumed.
    destruct (changed_index_discards_the_buffer index buffer) as [_ Hrun].
    destruct (Hrun steps step a b64 other Hi Hc Hp Hctx Hdec Hother)
      as (_ & _ & Hres & Hst & Hsrc & Hcache).
    repeat split; assumption.
  - intros -> replaced Hrep loaded resumed.
    assert (replaced =
            setCurrentStepIndex 0
              (setQuotaExceeded false (stopSpeaking (snd parked)))) as Hnew.
    { destruct Hrep as [-> | (query & Hq & ->)]; [done |].
      unfold handleSearch_begin. by destruct (trim query). }
    assert (inFlight replaced !! nextPromise a = Some (getAudioKey step, 0))
      as Hfl.
    { rewrite Hnew. unfold stopSpeaking.
      destruct (activeSourceRef (snd parked)); cbn; rewrite Hfl1;
        apply lookup_insert_eq. }
    assert (currentStepRef loaded = 0 /\ currentStepIndex loaded = 0
            /\ started loaded = started a) as (Hcur & Hidx & Hst).
    { unfold loaded, Narration.settle. rewrite Hfl, Hdec. cbn.
      rewrite Hnew. unfold stopSpeaking.
      destruct (activeSourceRef (snd parked)); cbn; by rewrite Hs1. }
    destruct (ready_starts 0 buffer loaded Hcur) as (Hs & Hsrc & _ & Hsp & _).
    unfold resumed. cbn [playAudioForStep_continue].
    rewrite Hs, Hsrc, Hsp, Hst. done.
Qed.

(** The step guard does not tell two calls for the same step apart.
    When [playAudioForStep] is called twice for the displayed step while
    its narration is loading (the auto-play timer and a click on the
    audio button, say), both calls wait for the one request, and when the
    buffer arrives each of them starts a source of its own: the narration
    plays twice over, and [activeSourceRef] holds only the second
    source. *)
Theorem two_calls_for_one_step_start_two_sources
    steps index step (a : App) b64 buffer :
  steps !! index = Some step ->
  audioCache a !! getAudioKey step = None ->
  audioLoadingPromises a !! getAudioKey step = None ->
  ctxSuspended a = false ->
  currentStepRef a = index ->
  decodeAudio b64 = inr buffer ->
  let first := playAudioForStep steps false index a in
  let second := playAudioForStep steps false index (snd first) in
  let loaded := settle (nextPromise a) (inr b64) (snd second) in
  let played :=
    playAudioForStep_continue index (inr buffer)
      (playAudioForStep_continue index (inr buffer) loaded) in
  fst first = Some (AwaitBuffer index (Following (nextPromise a)))
  /\ fst second = Some (AwaitBuffer index (Following (nextPromise a)))
  /\ synthRequests (snd second) = synthRequests a ++ [narrationText step]
  /\ settled loaded !! nextPromise a = Some (inr buffer)
  /\ started played = started a ++ [buffer; buffer]
  /\ activeSourceRef played = Some (S (length (started a))).
Proof.
  intros Hi Hc Hp Hctx Hcur Hdec first second loaded played.
  destruct (play_asks steps index step a Hi Hc Hp Hctx)
    as (Hf & Hc1 & Hp1 & Hfl1 & Hr1 & Hs1 & Hcur1 & Hctx1 & Hn1).
  fold first in Hf, Hc1, Hp1, Hfl1, Hr1, Hs1, Hcur1, Hctx1, Hn1.
  assert (second =
          (Some (AwaitBuffer index (Following (nextPromise a))),
           setIsLoadingAudio true (stopSpeaking (snd first)))) as Hsecond.
  { apply (play_follows _ _ step); try done.
    - by rewrite Hc1.
    - rewrite Hp1. apply lookup_insert_eq. }
  destruct (stopSpeaking_fields (snd first))
    as (Hc2 & Hp2 & Hr2 & Hn2 & Hs2 & Hcur2 & Hctx2 & _).
  assert (inFlight (snd second) !! nextPromise a
          = Some (getAudioKey step, index)) as Hfl2.
  { rewrite Hsecond. cbn [snd].
    change (inFlight (setIsLoadingAudio true (stopSpeaking (snd first))))
      with (inFlight (stopSpeaking (snd first))).
    unfold stopSpeaking.
    destruct (activeSourceRef (snd first)); cbn; rewrite Hfl1;
      apply lookup_insert_eq. }
  assert (started loaded = started a
          /\ currentStepRef loaded = index
          /\ settled loaded !! nextPromise a = Some (inr buffer))
    as (Hs3 & Hcur3 & Hset3).
  { unfold loaded, Narration.settle. rewrite Hfl2, Hdec. cbn.
    rewrite lookup_insert_eq. rewrite Hsecond. cbn.
    destruct (activeSourceRef (snd first)); cbn; by rewrite Hs1, Hcur1. }
  split; [exact Hf |]. split; [by rewrite Hsecond |].
  split; [rewrite Hsecond; cbn [snd synthRequests setIsLoadingAudio];
          by rewrite Hr2 |].
  split; [exact Hset3 |].
  unfold played. cbn [playAudioForStep_continue].
  destruct (ready_starts index buffer loaded Hcur3) as (Hs4 & _ & Hcur4 & _).
  destruct (ready_starts index buffer _ Hcur4) as (Hs5 & Hsrc5 & _).
  rewrite Hs5, Hsrc5, Hs4, Hs3, <- app_assoc, length_app. cbn.
  split; [done |]. f_equal. lia.
Qed.

(** The pre-fetch saves the wait without costing a second request.  With
    the next step neither cached nor pending, the pre-fetch timer sends
    one request for it.  When the user then moves to that step, the call
    that plays it waits for this very request, and when the answer came
    in before the move, it has the buffer at once and the loading state
    is not shown.  Either way no second request goes out. *)
Theorem prefetched_step_plays_without_a_second_request
    steps step (a : App) b64 buffer :
  let next := currentStepIndex a + 1 in
  steps !! next = Some step ->
  audioCache a !! getAudioKey step = None ->
  audioLoadingPromises a !! getAudioKey step = None ->
  ctxSuspended a = false ->
  decodeAudio b64 = inr buffer ->
  let fetching := prefetch steps false true a in
  let early := playAudioForStep steps false next
                 (setCurrentStepIndex next fetching) in
  let fetched := settle (nextPromise a) (inr b64) fetching in
  let late := playAudioForStep steps false next
                (setCurrentStepIndex next fetched) in
  synthRequests fetching = synthRequests a ++ [narrationText step]
  /\ fst early = Some (AwaitBuffer next (Following (nextPromise a)))
  /\ synthRequests (snd early) = synthRequests fetching
  /\ fst late = Some (AwaitBuffer next (Fulfilled buffer))
  /\ synthRequests (snd late) = synthRequests fetching
  /\ isLoadingAudio (snd late) = isLoadingAudio a.
Proof.
  intros next Hi Hc Hp Hctx Hdec fetching early fetched late.
  apply lookup_lt_Some in Hi as Hlt.
  assert (fetching = snd (ensureAudioLoaded steps false next a)) as Hfetch.
  { unfold fetching, prefetch. cbn [andb negb].
    rewrite bool_decide_eq_true_2 by lia. fold next.
    by destruct (decide (next < length steps)). }
  destruct (settle_answers steps next step a (inr b64) Hi Hc Hp)
    as (Hp' & Hr' & _ & Hout).
  rewrite <- Hfetch in Hp', Hr', Hout. fold fetched in Hp', Hr', Hout.
  unfold Narration.synthesised in Hout. rewrite Hdec in Hout.
  destruct Hout as [Hc' _].
  rewrite (ensure_starts _ _ _ _ Hi Hc Hp) in Hfetch. cbn [snd] in Hfetch.
  assert (synthRequests fetching = synthRequests a ++ [narrationText step])
    as Hreq by (by rewrite Hfetch).
  assert (early =
          (Some (AwaitBuffer next (Following (nextPromise a))),
           setIsLoadingAudio true
             (stopSpeaking (setCurrentStepIndex next fetching)))) as Hearly.
  { apply (play_follows _ _ step); try done; rewrite Hfetch; cbn; try done.
    apply lookup_insert_eq. }
  assert (late =
          (Some (AwaitBuffer next (Fulfilled buffer)),
           stopSpeaking (setCurrentStepIndex next fetched))) as Hlate.
  { apply (play_cached _ _ step); try done.
    - change (audioCache (setCurrentStepIndex next fetched))
        with (audioCache fetched).
      rewrite Hc'. apply lookup_insert_eq.
    - unfold fetched, Narration.settle. rewrite Hfetch. cbn.
      rewrite lookup_insert_eq, Hdec. done. }
  split; [exact Hreq |]. split; [by rewrite Hearly |].
  split.
  { rewrite Hearly. cbn [snd].
    destruct (stopSpeaking_fields (setCurrentStepIndex next fetching))
      as (_ & _ & Hr0 & _).
    change (synthRequests (setIsLoadingAudio true ?x))
      with (synthRequests x).
    by rewrite Hr0. }
  split; [by rewrite Hlate |].
  rewrite Hlate. cbn [snd].
  destruct (stopSpeaking_fields (setCurrentStepIndex next fetched))
    as (_ & _ & Hr0 & _ & _ & _ & _ & Hld0 & _).
  rewrite Hr0, Hld0.
  change (synthRequests (setCurrentStepIndex next fetched))
    with (synthRequests fetched).
  change (isLoadingAudio (setCurrentStepIndex next fetched))
    with (isLoadingAudio fetched).
  rewrite Hr', Hreq. split; [done |].
  unfold fetched, Narration.settle. rewrite Hfetch. cbn.
  rewrite lookup_insert_eq, Hdec. done.
Qed.

(** *** What an export asks of the service *)

Lemma settle_requests p response (a : App) :
  synthRequests (settle p response a) = synthRequests a.
Proof.
  destruct (inFlight a !! p) as [[key i] |] eqn:Hp.
  - by destruct (settle_fields p response a key i Hp) as (_ & _ & _ & Hr & _).
  - unfold Narration.settle. by rewrite Hp.
Qed.

Lemma ensure_requests steps quota i step (a : App) :
  steps !! i = Some step ->
  exists more,
    synthRequests (snd (ensureAudioLoaded steps quota i a))
    = synthRequests a ++ more
    /\ sublist more [narrationText step].
Proof.
  intros Hi.
  assert (exists more : list jsstring,
            synthRequests a = synthRequests a ++ more
            /\ sublist more [narrationText step]) as Hsame.
  { exists []. rewrite app_nil_r. split; [done | apply sublist_nil_l]. }
  unfold ensureAudioLoaded. destruct quota; [exact Hsame |]. rewrite Hi.
  destruct (audioCache a !! getAudioKey step); [exact Hsame |].
  destruct (audioLoadingPromises a !! getAudioKey step); [exact Hsame |].
  exists [narrationText step]. by cbn.
Qed.

Lemma prepareStep_requests steps quota upstream i step (a : App) :
  steps !! i = Some step ->
  exists more,
    synthRequests (prepareStep steps quota upstream i step a)
    = synthRequests a ++ more
    /\ sublist more [narrationText step].
Proof.
  intros Hi. unfold Narration.prepareStep.
  destruct (audioCache a !! getAudioKey step).
  { exists []. rewrite app_nil_r. split; [done | apply sublist_nil_l]. }
  destruct (ensure_requests steps quota i step a Hi) as (more & Hreq & Hsub).
  destruct (ensureAudioLoaded steps quota i a) as [[e | buffer | p] a'];
    cbn [snd] in Hreq; exists more; (split; [| done]).
  - exact Hreq.
  - exact Hreq.
  - assert (synthRequests (settleUpstream decodeAudio upstream p a')
            = synthRequests a') as Hsettle.
    { unfold settleUpstream. destruct (inFlight a' !! p) as [[key j] |];
        [apply settle_requests | done]. }
    rewrite <- Hreq, <- Hsettle.
    by destruct (settled (settleUpstream decodeAudio upstream p a') !! p)
      as [[e | buffer] |].
Qed.

(** The loop asks, in the order of the steps, for a selection of them:
    each pass sends the text of its own step or nothing. *)
Lemma prepareAudio_requests steps quota upstream rest : forall i (a : App),
  (forall k step, rest !! k = Some step -> steps !! (i + k) = Some step) ->
  exists more,
    synthRequests (prepareAudio steps quota upstream i rest a)
    = synthRequests a ++ more
    /\ sublist more (map narrationText rest).
Proof.
  induction rest as [| step rest IH]; intros i a Hsteps.
  - exists []. cbn. by rewrite app_nil_r.
  - cbn [Narration.prepareAudio].
    assert (steps !! i = Some step) as Hi.
    { specialize (Hsteps 0 step eq_refl). by rewrite Nat.add_0_r in Hsteps. }
    destruct (prepareStep_requests steps quota upstream i step a Hi)
      as (m1 & Hr1 & Hs1).
    destruct (IH (S i) (prepareStep steps quota upstream i step a))
      as (m2 & Hr2 & Hs2).
    { intros k s' Hk. specialize (Hsteps (S k) s' Hk).
      by rewrite Nat.add_succ_r in Hsteps. }
    exists (m1 ++ m2). rewrite Hr2, Hr1, <- app_assoc.
    split; [done |].
    change (map narrationText (step :: rest))
      with ([narrationText step] ++ map narrationText rest).
    by apply sublist_app.
Qed.

Lemma prepareAudio_quota steps upstream rest : forall i (a : App),
  let a' := prepareAudio steps true upstream i rest a in
  synthRequests a' = synthRequests a /\ audioCache a' = audioCache a.
Proof.
  induction rest as [| step rest IH]; intros i a; [done |].
  cbn [Narration.prepareAudio].
  destruct (IH (S i) (prepareStep steps true upstream i step a)) as [Hr Hc].
  cbn zeta. rewrite Hr, Hc. unfold Narration.prepareStep.
  by destruct (audioCache a !! getAudioKey step).
Qed.

Lemma prepareAudio_cached steps quota upstream rest : forall i (a : App),
  (forall step, step ∈ rest -> is_Some (audioCache a !! getAudioKey step)) ->
  prepareAudio steps quota upstream i rest a = a.
Proof.
  induction rest as [| step rest IH]; intros i a Hall; [done |].
  cbn [Narration.prepareAudio].
  assert (prepareStep steps quota upstream i step a = a) as ->.
  { unfold Narration.prepareStep.
    destruct (Hall step) as [buffer ->]; [left | done]. }
  apply IH. intros s' Hs'. apply Hall. by right.
Qed.

(** An export asks the service at most once per step.  The requests it
    sends are the narration texts of a selection of its steps, in the
    order of the steps, every step giving at most one request.  Started
    in a render that knows the quota is used up it asks nothing at all,
    and neither does it when every step is cached already; the cache is
    then left as it is. *)
Theorem export_asks_at_most_once_per_step
    steps quota isExporting canvasFound upstream (a : App) :
  let r := handleExportVideo steps quota isExporting canvasFound upstream a in
  (exists more,
     synthRequests (snd r) = synthRequests a ++ more
     /\ sublist more (map narrationText steps)
     /\ length more ≤ length steps)
  /\ (quota = true ->
      synthRequests (snd r) = synthRequests a
      /\ audioCache (snd r) = audioCache a)
  /\ ((forall step, step ∈ steps ->
         is_Some (audioCache a !! getAudioKey step)) ->
      synthRequests (snd r) = synthRequests a
      /\ audioCache (snd r) = audioCache a).
Proof.
  unfold Narration.handleExportVideo.
  destruct (bool_decide (length steps = 0) || isExporting).
  { cbn. split; [| done]. exists []. rewrite app_nil_r.
    repeat split; [apply sublist_nil_l | cbn; lia]. }
  destruct (stopSpeaking_keeps a) as (Hc0 & _ & Hr0 & _).
  set (a0 := setCtxSuspended false (stopSpeaking a)) in *.
  assert (forall a' : App,
            synthRequests
              (snd (if canvasFound
                    then (Recording
                            (playExportStep (S (length steps)) steps
                               (audioCache a') 0 0), a')
                    else (ExportFailed (Error "Canvas not found"),
                          log (LogExportFailed (Error "Canvas not found")) a')))
            = synthRequests a'
            /\ audioCache
                 (snd (if canvasFound
                       then (Recording
                               (playExportStep (S (length steps)) steps
                                  (audioCache a') 0 0), a')
                       else (ExportFailed (Error "Canvas not found"),
                             log (LogExportFailed (Error "Canvas not found"))
                               a')))
               = audioCache a') as Hend
    by (intros a'; by destruct canvasFound).
  cbn zeta.
  destruct (Hend (prepareAudio steps quota upstream 0 steps a0)) as [-> ->].
  split; [| split].
  - destruct (prepareAudio_requests steps quota upstream steps 0 a0)
      as (more & Hr & Hs); [by intros k step Hk |].
    exists more. rewrite Hr, Hr0. split; [done |]. split; [exact Hs |].
    apply sublist_length in Hs. by rewrite length_map in Hs.
  - intros ->.
    destruct (prepareAudio_quota steps upstream steps 0 a0) as [Hr Hc].
    by rewrite Hr, Hc, Hr0, Hc0.
  - intros Hall. rewrite prepareAudio_cached; [by rewrite Hr0, Hc0 |].
    intros step Hstep. rewrite Hc0. by apply Hall.
Qed.

(** *** How long a recording is *)

Lemma export_length (steps : list SketchStep)
    (cache : gmap jsstring AudioBuffer) (fuel : nat) :
  forall index t,
    length steps - index < fuel ->
    last (playExportStep fuel steps cache index t)
    = Some (t + sum_list (map (stepCost duration cache) (drop index steps))
              + 1000,
            RecorderStop).
Proof.
  induction fuel as [| fuel IH]; intros index t Hfuel; [lia |].
  destruct (playExportStep_cases fuel steps cache index t)
    as [[Hle Heq] | [(step & buffer & Hi & Hc & Heq) | (step & Hi & Hc & Heq)]];
    rewrite Heq; clear Heq.
  - rewrite drop_ge by done. cbn. do 2 f_equal. lia.
  - apply lookup_lt_Some in Hi as Hlt.
    assert (stepCost duration cache step = 100 + duration buffer + 1000)
      as Hcost by (unfold stepCost; by rewrite Hc).
    rewrite (drop_S _ _ _ Hi). cbn [map sum_list sum_list_with].
    rewrite !last_cons, IH, Hcost by lia.
    generalize (sum_list (map (stepCost duration cache) (drop (S index) steps))).
    intros rest. unfold id. do 2 f_equal. lia.
  - apply lookup_lt_Some in Hi as Hlt.
    assert (stepCost duration cache step = 100 + 5000)
      as Hcost by (unfold stepCost; by rewrite Hc).
    rewrite (drop_S _ _ _ Hi). cbn [map sum_list sum_list_with].
    rewrite !last_cons, IH, Hcost by lia.
    generalize (sum_list (map (stepCost duration cache) (drop (S index) steps))).
    intros rest. unfold id. do 2 f_equal. lia.
Qed.

Lemma export_shows_every_step (steps : list SketchStep)
    (cache : gmap jsstring AudioBuffer) (fuel : nat) :
  forall index t,
    length steps - index < fuel ->
    shownSteps (playExportStep fuel steps cache index t)
    = seq index (length steps - index).
Proof.
  induction fuel as [| fuel IH]; intros index t Hfuel; [lia |].
  destruct (playExportStep_cases fuel steps cache index t)
    as [[Hle Heq] | [(step & buffer & Hi & Hc & Heq) | (step & Hi & Hc & Heq)]];
    rewrite Heq; clear Heq.
  - by replace (length steps - index) with 0 by lia.
  - apply lookup_lt_Some in Hi as Hlt.
    replace (length steps - index) with (S (length steps - S index)) by lia.
    unfold shownSteps. cbn. f_equal. apply IH. lia.
  - apply lookup_lt_Some in Hi as Hlt.
    replace (length steps - index) with (S (length steps - S index)) by lia.
    unfold shownSteps. cbn. f_equal. apply IH. lia.
Qed.

Lemma export_not_before (steps : list SketchStep)
    (cache : gmap jsstring AudioBuffer) (fuel index t t0 : nat) :
  t0 ≤ t ->
  Forall (fun entry => t0 ≤ fst entry) (playExportStep fuel steps cache index t).
Proof.
  intros Ht. apply Forall_forall. intros [τ ev] Hin.
  destruct (export_bounds _ _ _ _ _ _ _ Hin) as (Hle & _). cbn. lia.
Qed.

Lemma export_sorted (steps : list SketchStep)
    (cache : gmap jsstring AudioBuffer) (fuel : nat) :
  forall index t,
    StronglySorted (fun x y => fst x ≤ fst y)
      (playExportStep fuel steps cache index t).
Proof.
  induction fuel as [| fuel IH]; intros index t; [constructor |].
  destruct (playExportStep_cases fuel steps cache index t)
    as [[Hle Heq] | [(step & buffer & Hi & Hc & Heq) | (step & Hi & Hc & Heq)]];
    rewrite Heq; clear Heq.
  - repeat constructor.
  - repeat (constructor;
            [| repeat (constructor; [cbn; lia |]);
               apply export_not_before; cbn; lia]).
    apply IH.
  - repeat (constructor;
            [| repeat (constructor; [cbn; lia |]);
               apply export_not_before; cbn; lia]).
    apply IH.
Qed.

(** The length of the recording is the sum over its steps.  The export
    walk shows every step once, in order, narrated or not; its events
    come in the order of their times; and the recorder is stopped when
    each step has had its 100 ms plus either its narration and a second
    or the 5000 ms hold, and a last second has passed. *)
Theorem export_length_is_the_sum_over_the_steps (steps : list SketchStep)
    (cache : gmap jsstring AudioBuffer) (t0 : nat) :
  let timeline := playExportStep (S (length steps)) steps cache 0 t0 in
  last timeline
  = Some (t0 + sum_list (map (stepCost duration cache) steps) + 1000,
          RecorderStop)
  /\ shownSteps timeline = seq 0 (length steps)
  /\ StronglySorted (fun x y => fst x ≤ fst y) timeline.
Proof.
  intros timeline. unfold timeline. split; [| split].
  - rewrite export_length by lia. by rewrite drop_0.
  - rewrite export_shows_every_step by lia. by rewrite Nat.sub_0_r.
  - apply export_sorted.
Qed.

(** *** Regenerating a drawing *)


End Loader.

(** Three calls for two steps that share a key, on a fresh app: one
    request, one promise. *)
Lemma concurrent_loads_share_one_request_witness :
  exists p text,
    synthRequests
      (snd (ensureEach [Demo.boil; Demo.boilAgain; Demo.addEgg] false
              [0; 1; 0] (fresh : App nat)))
    = [] ++ [text]
    /\ fst (ensureEach [Demo.boil; Demo.boilAgain; Demo.addEgg] false
              [0; 1; 0] (fresh : App nat))
       = replicate 3 (Following p).
Proof.
  assert (Forall (fun i => exists step,
                    [Demo.boil; Demo.boilAgain; Demo.addEgg] !! i = Some step
                    /\ getAudioKey step = getAudioKey Demo.boil) [0; 1; 0])
    as Hall.
  { repeat constructor; eexists; (split; [reflexivity |]);
      vm_compute; reflexivity. }
  destruct (concurrent_loads_share_one_request
              [Demo.boil; Demo.boilAgain; Demo.addEgg]
              (getAudioKey Demo.boil) [0; 1; 0] (fresh : App nat)
              (lookup_empty _) Hall) as (_ & Hnone & _).
  destruct (Hnone (lookup_empty _) ltac:(discriminate))
    as (p & text & Hreq & Hres & _).
  exists p, text. split; [exact Hreq | exact Hres].
Defined.

(** C5 as it is written fails where the quota gate stands in the way: with
    the request for the first step still in flight and its key not cached,
    a caller of the render that saw the flag raised (by the rate-limited
    request for the second step) is rejected instead of being handed the
    pending promise, which a caller of the earlier render still gets. *)
Lemma quota_gate_turns_a_concurrent_caller_away :
  let steps := [Demo.boil; Demo.addEgg] in
  let a1 := snd (ensureAudioLoaded steps false 0 (fresh : App nat)) in
  let a2 := snd (ensureAudioLoaded steps false 1 a1) in
  let a3 := settle Demo.decodeAudio 1 (inl Demo.rateLimited) a2 in
  audioCache a3 !! getAudioKey Demo.boil = None
  /\ audioLoadingPromises a3 !! getAudioKey Demo.boil = Some 0
  /\ quotaExceeded a3 = true
  /\ fst (ensureAudioLoaded steps false 0 a3) = Following 0
  /\ fst (ensureAudioLoaded steps (quotaExceeded a3) 0 a3)
     = Rejected (Error "Quota exceeded")
  /\ synthRequests (snd (ensureAudioLoaded steps (quotaExceeded a3) 0 a3))
     = synthRequests a3.
Proof. vm_compute. repeat split. Qed.

(** Two steps that differ in surrounding blanks and in code. *)
Lemma same_text_same_cache_entry_witness :
  getAudioKey Demo.boil = getAudioKey Demo.boilAgain
  /\ code Demo.boil ≠ code Demo.boilAgain.
Proof.
  split; [| discriminate].
  apply (same_text_same_cache_entry (AudioBuffer := nat)
           Demo.boil Demo.boilAgain);
    vm_compute; reflexivity.
Defined.

(** The four-step export with the second request rate limited. *)
Lemma export_survives_a_rate_limited_step_witness :
  let result :=
    handleExportVideo Demo.decodeAudio Demo.duration Demo.fourSteps
      false false true Demo.upstream (fresh : App nat) in
  synthRequests (snd result) = [] ++ map narrationText Demo.fourSteps
  /\ quotaExceeded (snd result) = true
  /\ audioCache (snd result) !! getAudioKey Demo.addEgg = None.
Proof.
  intros result.
  destruct (export_survives_a_rate_limited_step Demo.decodeAudio Demo.duration
              Demo.boil Demo.addEgg Demo.wait Demo.serve (fresh : App nat)
              Demo.upstream Demo.rateLimited 3000 4000 2000)
    as (Hreq & Hquota & Hcache & _).
  - apply (bool_decide_unpack _). vm_compute. exact I.
  - intros step _. split; apply lookup_empty.
  - reflexivity.
  - vm_compute. reflexivity.
  - vm_compute. reflexivity.
  - vm_compute. reflexivity.
  - vm_compute. reflexivity.
  - split; [exact Hreq |]. split; [exact Hquota | exact Hcache].
Defined.


(** The request for the first step is rate limited.  The loader of the
    render that asked sends a second request when called again; the
    loader of the render that follows, which sees the flag, is turned
    away. *)
Lemma answered_request_is_cached_or_open_to_retry_witness :
  let asked :=
    snd (ensureAudioLoaded Demo.fourSteps false 0 (fresh : App nat)) in
  let answered := settle Demo.decodeAudio 0 (inl Demo.rateLimited) asked in
  fst (ensureAudioLoaded Demo.fourSteps false 0 answered) = Following 1
  /\ length (synthRequests
               (snd (ensureAudioLoaded Demo.fourSteps false 0 answered))) = 2
  /\ quotaExceeded answered = true
  /\ fst (ensureAudioLoaded Demo.fourSteps (quotaExceeded answered) 0 answered)
     = Rejected (Error "Quota exceeded").
Proof.
  intros asked answered.
  destruct (answered_request_is_cached_or_open_to_retry Demo.decodeAudio
              Demo.fourSteps 0 Demo.boil (fresh : App nat)
              (inl Demo.rateLimited) eq_refl (lookup_empty _) (lookup_empty _))
    as (_ & _ & _ & _ & Hfst & Hreq & e & He & H429 & _).
  injection He as <-.
  destruct (H429 eq_refl) as [Hflag Hgate].
  split; [exact Hfst |].
  split; [exact (f_equal length Hreq) |].
  split; [exact Hflag |].
  exact (f_equal fst Hgate).
Defined.

(** The narration of a guide's first step is loading.  When the user
    moves to the second step, the answer plays nothing; when the user
    opens another guide, the three seconds are played over it. *)
Lemma stale_guard_compares_indices_only_witness :
  let parked := playAudioForStep Demo.fourSteps false 0 (fresh : App nat) in
  let moved :=
    settle Demo.decodeAudio 0 (inr (lit "3"))
      (setCurrentStepIndex 1 (snd parked)) in
  let replaced :=
    settle Demo.decodeAudio 0 (inr (lit "3")) (loadHistoryItem (snd parked)) in
  started (playAudioForStep_continue 0 (inr 3000) moved) = []
  /\ started (playAudioForStep_continue 0 (inr 3000) replaced) = [3000].
Proof.
  intros parked moved replaced.
  destruct (stale_guard_compares_indices_only Demo.decodeAudio
              Demo.fourSteps 0 Demo.boil (fresh : App nat) (lit "3") 3000
              eq_refl (lookup_empty _) (lookup_empty _) eq_refl eq_refl)
    as (_ & Hmoved & Hreplaced).
  destruct (Hmoved 1 ltac:(discriminate)) as (_ & Hnone & _).
  destruct (Hreplaced eq_refl (loadHistoryItem (snd parked))
              (or_introl eq_refl)) as (_ & Hplayed & _).
  split; [exact Hnone | exact Hplayed].
Defined.

(** Two calls for the first step while its three seconds of narration
    are loading: two sources. *)
Lemma two_calls_for_one_step_start_two_sources_witness :
  let first := playAudioForStep Demo.fourSteps false 0 (fresh : App nat) in
  let second := playAudioForStep Demo.fourSteps false 0 (snd first) in
  let loaded := settle Demo.decodeAudio 0 (inr (lit "3")) (snd second) in
  let played :=
    playAudioForStep_continue 0 (inr 3000)
      (playAudioForStep_continue 0 (inr 3000) loaded) in
  started played = [3000; 3000] /\ activeSourceRef played = Some 1.
Proof.
  intros first second loaded played.
  destruct (two_calls_for_one_step_start_two_sources Demo.decodeAudio
              Demo.fourSteps 0 Demo.boil (fresh : App nat) (lit "3") 3000
              eq_refl (lookup_empty _) (lookup_empty _) eq_refl eq_refl
              eq_refl)
    as (_ & _ & _ & _ & Hstarted & Hsrc).
  split; [exact Hstarted | exact Hsrc].
Defined.

(** On the first of four steps the pre-fetch asks for the second; moving
    there after its four seconds of narration arrived plays from the
    cache. *)
Lemma prefetched_step_plays_without_a_second_request_witness :
  let fetching := prefetch Demo.fourSteps false true (fresh : App nat) in
  let fetched := settle Demo.decodeAudio 0 (inr (lit "4")) fetching in
  let late :=
    playAudioForStep Demo.fourSteps false 1 (setCurrentStepIndex 1 fetched) in
  fst late = Some (AwaitBuffer 1 (Fulfilled 4000))
  /\ length (synthRequests (snd late)) = 1.
Proof.
  intros fetching fetched late.
  destruct (prefetched_step_plays_without_a_second_request Demo.decodeAudio
              Demo.fourSteps Demo.addEgg (fresh : App nat) (lit "4") 4000
              eq_refl (lookup_empty _) (lookup_empty _) eq_refl eq_refl)
    as (Hreq & _ & _ & Hlate & Hsame & _).
  split; [exact Hlate |].
  exact (eq_trans (f_equal length Hsame) (f_equal length Hreq)).
Defined.

End NarrationSpec.

Module StorageSpec.

Import Storage.

Section Service.

Variable getItem_throws : option JsVal.
Variable setItem_throws : jsstring -> option JsVal.
Variable JSON_parse : jsstring -> JsVal + JsVal.
Variable JSON_stringify : JsVal -> JsVal + jsstring.
Variable Date_now : nat -> Z.
Variable toString : Z -> jsstring.
Variable toLowerCase : jsstring -> jsstring.

Abbreviation getHistory := (getHistory getItem_throws JSON_parse).
Abbreviation saveHistoryItem :=
  (saveHistoryItem getItem_throws setItem_throws JSON_parse JSON_stringify
     Date_now toString toLowerCase).
Abbreviation deleteHistoryItem :=
  (deleteHistoryItem getItem_throws setItem_throws JSON_parse JSON_stringify).
Abbreviation readFails := (readFails getItem_throws JSON_parse).
Abbreviation nothingStored := (nothingStored getItem_throws).
Abbreviation writeFails := (writeFails setItem_throws).
Abbreviation newItem := (newItem Date_now toString).

Lemma tryCatch_returns {A} (body : M A) handler env :
  (forall e env0, exists v env', handler e env0 = (inr v, env')) ->
  exists v, returns (tryCatch body handler env) v.
Proof.
  intros Hh. unfold returns, tryCatch.
  destruct (body env) as [[e | x] env']; [| by exists x].
  destruct (Hh e env') as (v & env'' & ->). by exists v.
Qed.

Lemma tryCatch_handled {A} (body : M A) handler env v :
  failsAlways body ->
  (forall e env0, exists env', handler e env0 = (inr v, env')) ->
  returns (tryCatch body handler env) v.
Proof.
  intros Hb Hh. unfold returns, tryCatch.
  destruct (Hb env) as (e & env' & ->).
  by destruct (Hh e env') as (env'' & ->).
Qed.

Lemma bind_throws_later {A B} (m : M A) (k : A -> M B) :
  (forall x, failsAlways (k x)) -> failsAlways (bind m k).
Proof.
  intros Hk env. unfold bind.
  destruct (m env) as [[e | x] env']; [by exists e, env' |].
  apply Hk.
Qed.

Lemma handler_returns_empty entry env0 :
  exists env',
    (consoleError entry;; ret (JArray [])) env0 = (inr (JArray []), env').
Proof. by eexists. Qed.

Lemma setItem_throws_always key value :
  writeFails -> failsAlways (setItem setItem_throws key value).
Proof.
  intros Hw env. unfold setItem.
  destruct (Hw value) as [e ->]. by exists e, env.
Qed.

(** [getHistory] gives the empty list when reading fails or nothing is
    stored; the environment only gains a console line. *)
Lemma getHistory_empty env :
  readFails env \/ nothingStored env ->
  exists env',
    getHistory env = (inr (JArray []), env')
    /\ localStorage env' = localStorage env
    /\ dateCalls env' = dateCalls env.
Proof.
  unfold Storage.getHistory, tryCatch, mbind, M_bind, bind, getItem.
  cbv beta.
  intros [[[e ->] | (c & text & e & Hst & Hp)] | [-> [Hst | Hst]]].
  - by eexists.
  - destruct getItem_throws as [e' |]; [by eexists |].
    rewrite Hst. cbn. rewrite Hp. cbn. by eexists.
  - rewrite Hst. by eexists.
  - rewrite Hst. by eexists.
Qed.

Lemma bind_throws_first {A B} (m : M A) (k : A -> M B) :
  failsAlways m -> failsAlways (bind m k).
Proof.
  intros Hm env. unfold bind. destruct (Hm env) as (e & env' & ->).
  by exists e, env'.
Qed.

(** With a storage that rejects every write, the [try] blocks of the two
    writers cannot complete. *)
Lemma save_body_throws query steps :
  writeFails ->
  failsAlways
    (history ← getHistory;
     filteredHistory ←
       callFilter history (fun h =>
         q ← readProp h (lit "query");
         lowered ← callToLowerCase toLowerCase q;
         ret (negb (bool_decide (lowered = toLowerCase query))));
     idStamp ← dateNow Date_now;
     timestamp ← dateNow Date_now;
     text ← liftThrow
              (JSON_stringify
                 (JArray
                    (take 20
                       (JObject
                          [(lit "id", JString (toString idStamp));
                           (lit "query", JString query);
                           (lit "steps", steps);
                           (lit "timestamp", JNumber (inject_Z timestamp))]
                        :: filteredHistory))));
     setItem setItem_throws STORAGE_KEY text;;
     ret (JArray
            (take 20
               (JObject
                  [(lit "id", JString (toString idStamp));
                   (lit "query", JString query);
                   (lit "steps", steps);
                   (lit "timestamp", JNumber (inject_Z timestamp))]
                :: filteredHistory)))).
Proof.
  intros Hw. unfold mbind, M_bind.
  do 5 (apply bind_throws_later; intros ?).
  apply bind_throws_first. by apply setItem_throws_always.
Qed.

Lemma delete_body_throws id :
  writeFails ->
  failsAlways
    (history ← getHistory;
     newHistory ←
       callFilter history (fun item =>
         itemId ← readProp item (lit "id");
         ret (negb (strictEqString itemId id)));
     text ← liftThrow (JSON_stringify (JArray newHistory));
     setItem setItem_throws STORAGE_KEY text;;
     ret (JArray newHistory)).
Proof.
  intros Hw. unfold mbind, M_bind.
  do 3 (apply bind_throws_later; intros ?).
  apply bind_throws_first. by apply setItem_throws_always.
Qed.

Abbreviation saveAttempt :=
  (saveAttempt getItem_throws JSON_parse JSON_stringify Date_now toString
     toLowerCase).
Abbreviation deleteAttempt :=
  (deleteAttempt getItem_throws JSON_parse JSON_stringify).

(** Each writer is its attempt, then the write, then the [catch]. *)
Lemma save_after_attempt env query steps :
  saveHistoryItem query steps env =
  match saveAttempt query steps env with
  | (inl e, env1) => (consoleError (LogSaveFailed e);; ret (JArray [])) env1
  | (inr (newHistory, text), env1) =>
      match setItem_throws text with
      | Some e => (consoleError (LogSaveFailed e);; ret (JArray [])) env1
      | None =>
          (inr (JArray newHistory),
           mkEnv (<[STORAGE_KEY := text]> (localStorage env1))
             (dateCalls env1) (console env1))
      end
  end.
Proof.
  unfold Storage.saveHistoryItem, Storage.saveAttempt, tryCatch, mbind,
    M_bind, bind.
  destruct (getHistory env) as [[e | history] env1]; [done |].
  match goal with
  | |- context [callFilter history ?keep env1] =>
      destruct (callFilter history keep env1) as [[e | filtered] env2]
  end; [done |].
  unfold dateNow.
  match goal with
  | |- context [liftThrow (JSON_stringify ?v)] =>
      destruct (JSON_stringify v) as [e | out]
  end; cbn [liftThrow ret throw]; [done |].
  unfold setItem. by destruct (setItem_throws out).
Qed.

Lemma delete_after_attempt env id :
  deleteHistoryItem id env =
  match deleteAttempt id env with
  | (inl e, env1) => (consoleError (LogDeleteFailed e);; ret (JArray [])) env1
  | (inr (newHistory, text), env1) =>
      match setItem_throws text with
      | Some e => (consoleError (LogDeleteFailed e);; ret (JArray [])) env1
      | None =>
          (inr (JArray newHistory),
           mkEnv (<[STORAGE_KEY := text]> (localStorage env1))
             (dateCalls env1) (console env1))
      end
  end.
Proof.
  unfold Storage.deleteHistoryItem, Storage.deleteAttempt, tryCatch, mbind,
    M_bind, bind.
  destruct (getHistory env) as [[e | history] env1]; [done |].
  match goal with
  | |- context [callFilter history ?keep env1] =>
      destruct (callFilter history keep env1) as [[e | kept] env2]
  end; [done |].
  destruct (JSON_stringify (JArray kept)) as [e | out];
    cbn [liftThrow ret throw]; [done |].
  unfold setItem. by destruct (setItem_throws out).
Qed.

(** C10, as the code has it.  None of the three operations lets an
    exception out.  [getHistory] returns the empty list when the read or
    the parse fails and when nothing is stored.  The two writers return
    the empty list when the storage write fails: whenever
    [localStorage.setItem] throws for the text the call hands to it
    (and so, in particular, with a storage that rejects every write);
    when the write goes through they return the list they wrote.  When
    only the read or the parse fails they carry on with an empty history:
    [deleteHistoryItem] returns the empty list, and [saveHistoryItem],
    if the new list can be written, returns the list holding the new
    entry. *)
Theorem history_operations_never_throw env query steps id :
  (exists v, returns (getHistory env) v)
  /\ (exists v, returns (saveHistoryItem query steps env) v)
  /\ (exists v, returns (deleteHistoryItem id env) v)
  /\ (readFails env \/ nothingStored env ->
      returns (getHistory env) (JArray []))
  /\ (writeFails ->
      returns (saveHistoryItem query steps env) (JArray [])
      /\ returns (deleteHistoryItem id env) (JArray []))
  /\ (readFails env -> returns (deleteHistoryItem id env) (JArray []))
  /\ (readFails env ->
      forall text,
        JSON_stringify (JArray [newItem query steps (dateCalls env)])
        = inr text ->
        setItem_throws text = None ->
        returns (saveHistoryItem query steps env)
          (JArray [newItem query steps (dateCalls env)]))
  /\ (forall newHistory text env1,
        saveAttempt query steps env = (inr (newHistory, text), env1) ->
        (is_Some (setItem_throws text) ->
         returns (saveHistoryItem query steps env) (JArray []))
        /\ (setItem_throws text = None ->
            returns (saveHistoryItem query steps env) (JArray newHistory)))
  /\ (forall newHistory text env1,
        deleteAttempt id env = (inr (newHistory, text), env1) ->
        (is_Some (setItem_throws text) ->
         returns (deleteHistoryItem id env) (JArray []))
        /\ (setItem_throws text = None ->
            returns (deleteHistoryItem id env) (JArray newHistory))).
Proof.
  split; [apply tryCatch_returns; intros e env0;
          destruct (handler_returns_empty (LogLoadFailed e) env0) as [env' ?];
          by eexists _, env' |].
  split; [apply tryCatch_returns; intros e env0;
          destruct (handler_returns_empty (LogSaveFailed e) env0) as [env' ?];
          by eexists _, env' |].
  split; [apply tryCatch_returns; intros e env0;
          destruct (handler_returns_empty (LogDeleteFailed e) env0) as [env' ?];
          by eexists _, env' |].
  split; [| split; [| split; [| split; [| split]]]].
  - intros Hcase. destruct (getHistory_empty env Hcase) as (env' & Heq & _).
    unfold returns. by rewrite Heq.
  - intros Hw. split.
    + apply tryCatch_handled; [by apply save_body_throws |].
      intros e env0. apply handler_returns_empty.
    + apply tryCatch_handled; [by apply delete_body_throws |].
      intros e env0. apply handler_returns_empty.
  - intros Hread.
    destruct (getHistory_empty env (or_introl Hread)) as (env' & Heq & _).
    unfold returns, Storage.deleteHistoryItem, tryCatch, mbind, M_bind, bind.
    rewrite Heq. cbn.
    destruct (JSON_stringify (JArray [])) as [e | text]; cbn; [done |].
    unfold setItem. by destruct (setItem_throws text).
  - intros Hread text Hstr Hset.
    destruct (getHistory_empty env (or_introl Hread))
      as (env' & Heq & _ & Hcalls).
    unfold returns, Storage.saveHistoryItem, tryCatch, mbind, M_bind, bind.
    rewrite Heq. cbn. rewrite Hcalls.
    unfold Storage.newItem in Hstr. rewrite Hstr. cbn.
    unfold setItem. by rewrite Hset.
  - intros newHistory text env1 Hattempt. unfold returns.
    rewrite save_after_attempt, Hattempt.
    split; [intros [e ->]; done | intros ->; done].
  - intros newHistory text env1 Hattempt. unfold returns.
    rewrite delete_after_attempt, Hattempt.
    split; [intros [e ->]; done | intros ->; done].
Qed.

(** *** Saving into a readable history *)

Abbreviation asksSomethingElse := (asksSomethingElse toLowerCase).

Lemma bind_returns {A B} (m : M A) (k : A -> M B) env x env' :
  m env = (inr x, env') -> bind m k env = k x env'.
Proof. intros Hm. unfold bind. by rewrite Hm. Qed.

Lemma tryCatch_body_returns {A} (body : M A) handler env x env' :
  body env = (inr x, env') -> tryCatch body handler env = (inr x, env').
Proof. intros Hb. unfold tryCatch. by rewrite Hb. Qed.

Lemma getHistory_reads env c text v :
  getItem_throws = None ->
  localStorage env !! STORAGE_KEY = Some (c :: text) ->
  JSON_parse (c :: text) = inr v ->
  getHistory env = (inr v, env).
Proof.
  intros Hget Hst Hparse.
  unfold Storage.getHistory, tryCatch, mbind, M_bind, bind, getItem.
  by rewrite Hget, Hst, Hparse.
Qed.

Lemma filterM_by_query query items : forall env,
  Forall (fun item => is_Some (queryOf item)) items ->
  filterM
    (fun h =>
       bind (readProp h (lit "query")) (fun q =>
       bind (callToLowerCase toLowerCase q) (fun lowered =>
       ret (negb (bool_decide (lowered = toLowerCase query))))))
    items env
  = (inr (List.filter (asksSomethingElse query) items), env).
Proof.
  set (keep := fun h => bind _ _).
  assert (forall item q env,
            queryOf item = Some q ->
            keep item env =
            (inr (negb (bool_decide (toLowerCase q = toLowerCase query))), env))
    as Hkeep.
  { intros item q env Hq. unfold keep, bind, queryOf in *.
    destruct item; try discriminate; cbn in *;
      match type of Hq with
      | context [match ?v with _ => _ end] => destruct v; try discriminate
      end;
      by injection Hq as ->. }
  induction items as [| item items IH]; intros env Hall; [done |].
  apply Forall_cons in Hall as [[q Hq] Hall].
  cbn [filterM List.filter]. unfold mbind, M_bind.
  rewrite (bind_returns _ _ _ _ _ (Hkeep item q env Hq)).
  rewrite (bind_returns _ _ _ _ _ (IH env Hall)).
  assert (asksSomethingElse query item
          = negb (bool_decide (toLowerCase q = toLowerCase query))) as ->
    by (unfold Storage.asksSomethingElse; by rewrite Hq).
  done.
Qed.

(** A history that reads as a list of entries with string queries, and a
    storage that takes the write: [saveHistoryItem] returns, and stores,
    the new entry followed by the old entries that ask something else
    (letter case aside), cut after twenty. *)
Theorem save_puts_the_query_first env query steps c text items out :
  getItem_throws = None ->
  localStorage env !! STORAGE_KEY = Some (c :: text) ->
  JSON_parse (c :: text) = inr (JArray items) ->
  Forall (fun item => is_Some (queryOf item)) items ->
  let newHistory :=
    take 20 (newItem query steps (dateCalls env)
             :: List.filter (asksSomethingElse query) items) in
  JSON_stringify (JArray newHistory) = inr out ->
  setItem_throws out = None ->
  returns (saveHistoryItem query steps env) (JArray newHistory)
  /\ localStorage (snd (saveHistoryItem query steps env)) !! STORAGE_KEY
     = Some out
  /\ length newHistory ≤ 20
  /\ newHistory !! 0 = Some (newItem query steps (dateCalls env))
  /\ (forall k item q,
        newHistory !! S k = Some item -> queryOf item = Some q ->
        toLowerCase q ≠ toLowerCase query).
Proof.
  intros Hget Hst Hparse Hitems newHistory Hout Hset.
  assert (saveHistoryItem query steps env =
          (inr (JArray newHistory),
           mkEnv (<[STORAGE_KEY := out]> (localStorage env))
             (S (S (dateCalls env))) (console env))) as Hsave.
  { unfold Storage.saveHistoryItem. apply tryCatch_body_returns.
    unfold mbind, M_bind.
    rewrite (bind_returns _ _ _ _ _ (getHistory_reads env c text _ Hget Hst Hparse)).
    cbn [callFilter].
    rewrite (bind_returns _ _ _ _ _ (filterM_by_query query items env Hitems)).
    unfold bind at 1, dateNow at 1. unfold bind at 1, dateNow at 1.
    cbn [dateCalls localStorage console].
    unfold newHistory, Storage.newItem in Hout.
    unfold bind at 1. rewrite Hout. cbn [liftThrow ret].
    unfold bind, setItem. rewrite Hset. done. }
  rewrite Hsave. unfold returns. cbn [fst snd localStorage].
  split; [done |]. split; [apply lookup_insert_eq |].
  split; [unfold newHistory; rewrite length_take; lia |].
  split; [done |].
  intros k item q Hk Hq. unfold newHistory in Hk.
  apply lookup_take_Some in Hk as [Hk _]. cbn in Hk.
  apply list_elem_of_lookup_2, list_elem_of_In, filter_In in Hk as [_ Hkeep].
  unfold Storage.asksSomethingElse in Hkeep. rewrite Hq in Hkeep.
  apply negb_true_iff, bool_decide_eq_false in Hkeep. exact Hkeep.
Qed.

(** *** Deleting from a readable history *)

Lemma filterM_by_id id items : forall env,
  Forall isEntry items ->
  filterM
    (fun item =>
       bind (readProp item (lit "id")) (fun itemId =>
       ret (negb (strictEqString itemId id))))
    items env
  = (inr (List.filter (keepsId id) items), env).
Proof.
  induction items as [| item items IH]; intros env Hall; [done |].
  apply Forall_cons in Hall as [[Hu Hn] Hall].
  cbn [filterM List.filter]. unfold mbind, M_bind.
  assert (bind (readProp item (lit "id"))
            (fun itemId => ret (negb (strictEqString itemId id))) env
          = (inr (keepsId id item), env)) as Hkeep
    by (by destruct item).
  rewrite (bind_returns _ _ _ _ _ Hkeep).
  rewrite (bind_returns _ _ _ _ _ (IH env Hall)).
  done.
Qed.

Lemma filter_sublist {A} (f : A -> bool) (l : list A) :
  sublist (List.filter f l) l.
Proof.
  induction l as [| x l IH]; cbn; [constructor |].
  destruct (f x); by constructor.
Qed.

(** A history that reads as a list of entries, and a storage that takes
    the write: [deleteHistoryItem] returns, and stores, the entries whose
    id is not the given string, in their old order.  No entry with that
    id is left, and when there was none the list is the old one. *)
Theorem delete_removes_exactly_the_id env id c text items out :
  getItem_throws = None ->
  localStorage env !! STORAGE_KEY = Some (c :: text) ->
  JSON_parse (c :: text) = inr (JArray items) ->
  Forall isEntry items ->
  let newHistory := List.filter (keepsId id) items in
  JSON_stringify (JArray newHistory) = inr out ->
  setItem_throws out = None ->
  returns (deleteHistoryItem id env) (JArray newHistory)
  /\ localStorage (snd (deleteHistoryItem id env)) !! STORAGE_KEY = Some out
  /\ sublist newHistory items
  /\ (forall item, item ∈ newHistory ->
        getField item (lit "id") ≠ JString id)
  /\ (forall item, item ∈ items -> getField item (lit "id") ≠ JString id ->
        item ∈ newHistory)
  /\ ((forall item, item ∈ items -> getField item (lit "id") ≠ JString id) ->
      newHistory = items).
Proof.
  intros Hget Hst Hparse Hitems newHistory Hout Hset.
  assert (deleteHistoryItem id env =
          (inr (JArray newHistory),
           mkEnv (<[STORAGE_KEY := out]> (localStorage env))
             (dateCalls env) (console env))) as Hdel.
  { unfold Storage.deleteHistoryItem. apply tryCatch_body_returns.
    unfold mbind, M_bind.
    rewrite (bind_returns _ _ _ _ _ (getHistory_reads env c text _ Hget Hst Hparse)).
    cbn [callFilter].
    rewrite (bind_returns _ _ _ _ _ (filterM_by_id id items env Hitems)).
    fold newHistory. unfold bind at 1. rewrite Hout. cbn [liftThrow ret].
    unfold bind, setItem. rewrite Hset. done. }
  assert (forall item, keepsId id item = true <->
                       getField item (lit "id") ≠ JString id) as Hkeeps.
  { intros item. unfold keepsId, strictEqString.
    destruct (getField item (lit "id")); try (split; [discriminate | done]).
    rewrite negb_true_iff, bool_decide_eq_false. split; congruence. }
  rewrite Hdel. unfold returns. cbn [fst snd localStorage].
  split; [done |]. split; [apply lookup_insert_eq |].
  split; [apply filter_sublist |].
  split; [| split].
  - intros item Hin. apply list_elem_of_In, filter_In in Hin as [_ Hk].
    by apply Hkeeps.
  - intros item Hin Hne. apply list_elem_of_In, filter_In.
    split; [by apply list_elem_of_In | by apply Hkeeps].
  - intros Hnone. unfold newHistory. clear -Hnone Hkeeps.
    induction items as [| x items IH]; [done |]. cbn.
    assert (keepsId id x = true) as -> by (apply Hkeeps, Hnone; left).
    f_equal. apply IH. intros item Hin. apply Hnone. by right.
Qed.

(** *** What the operations do to the storage *)

Lemma getHistory_keeps_storage env :
  localStorage (snd (getHistory env)) = localStorage env.
Proof.
  unfold Storage.getHistory, tryCatch, mbind, M_bind, bind, getItem.
  destruct getItem_throws as [e |]; [done |].
  destruct (localStorage env !! STORAGE_KEY) as [[| c text] |]; try done.
  cbn. by destruct (JSON_parse (c :: text)).
Qed.

Lemma filterM_pure keep items : forall env,
  (forall x env0, snd (keep x env0) = env0) ->
  snd (filterM keep items env) = env.
Proof.
  induction items as [| x items IH]; intros env Hkeep; [done |].
  cbn [filterM]. unfold mbind, M_bind, bind.
  specialize (Hkeep x env) as Hx. destruct (keep x env) as [[e | b] env1].
  - done.
  - cbn in Hx. subst env1. specialize (IH env Hkeep).
    destruct (filterM keep items env) as [[e | kept] env2]; done.
Qed.

Lemma callFilter_pure history keep env :
  (forall x env0, snd (keep x env0) = env0) ->
  snd (callFilter history keep env) = env.
Proof.
  intros Hkeep. destruct history; try done. by apply filterM_pure.
Qed.

Lemma save_gave_up_or_stored env query steps :
  let r := saveHistoryItem query steps env in
  gaveUp LogSaveFailed env r
  \/ exists l, returns r (JArray l) /\ l ≠ []
       /\ stored JSON_stringify env (snd r) (JArray l).
Proof.
  unfold Storage.saveHistoryItem, tryCatch, mbind, M_bind, bind, gaveUp,
    returns, stored.
  pose proof (getHistory_keeps_storage env) as Hh.
  destruct (getHistory env) as [[e | history] env1]; cbn [snd] in Hh.
  { left. cbn. rewrite last_snoc. eauto. }
  match goal with
  | |- context [callFilter history ?keep env1] =>
      assert (snd (callFilter history keep env1) = env1) as Hf;
      [| destruct (callFilter history keep env1) as [[e | filtered] env2]]
  end.
  { apply callFilter_pure. intros x env0.
    unfold bind, readProp, callToLowerCase, ret, throw.
    destruct x; try done; by destruct (getField _ _). }
  all: cbn [snd] in Hf; subst env2.
  { left. cbn. rewrite last_snoc. eauto. }
  unfold dateNow. cbn [dateCalls localStorage console].
  match goal with
  | |- context [liftThrow (JSON_stringify ?v)] =>
      destruct (JSON_stringify v) as [e | out] eqn:Hout
  end; cbn [liftThrow ret throw].
  { left. cbn. rewrite last_snoc. eauto. }
  unfold setItem. destruct (setItem_throws out) as [e |].
  { left. cbn. rewrite last_snoc. eauto. }
  right. cbn. eexists. split; [reflexivity |]. split; [done |].
  exists out. split; [exact Hout | by rewrite Hh].
Qed.

Lemma delete_gave_up_or_stored env id :
  let r := deleteHistoryItem id env in
  gaveUp LogDeleteFailed env r
  \/ exists l, returns r (JArray l)
       /\ stored JSON_stringify env (snd r) (JArray l).
Proof.
  unfold Storage.deleteHistoryItem, tryCatch, mbind, M_bind, bind, gaveUp,
    returns, stored.
  pose proof (getHistory_keeps_storage env) as Hh.
  destruct (getHistory env) as [[e | history] env1]; cbn [snd] in Hh.
  { left. cbn. rewrite last_snoc. eauto. }
  match goal with
  | |- context [callFilter history ?keep env1] =>
      assert (snd (callFilter history keep env1) = env1) as Hf;
      [| destruct (callFilter history keep env1) as [[e | kept] env2]]
  end.
  { apply callFilter_pure. intros x env0.
    unfold bind, readProp, ret, throw. by destruct x. }
  all: cbn [snd] in Hf; subst env2.
  { left. cbn. rewrite last_snoc. eauto. }
  destruct (JSON_stringify (JArray kept)) as [e | out] eqn:Hout;
    cbn [liftThrow ret throw].
  { left. cbn. rewrite last_snoc. eauto. }
  unfold setItem. destruct (setItem_throws out) as [e |].
  { left. cbn. rewrite last_snoc. eauto. }
  right. cbn. eexists. split; [reflexivity |].
  exists out. split; [exact Hout | by rewrite Hh].
Qed.

(** Writing is all or nothing, whatever the browser does.  Reading the
    history never changes the storage.  Each writer either gives up (it
    returns the empty list, the storage is as it was, and the failure is
    the last line on the console) or it has written, under the one key,
    the text of exactly the list it returns; for [saveHistoryItem] that
    list is never empty. *)
Theorem writers_store_what_they_return env query steps id :
  localStorage (snd (getHistory env)) = localStorage env
  /\ (let r := saveHistoryItem query steps env in
      gaveUp LogSaveFailed env r
      \/ exists l, returns r (JArray l) /\ l ≠ []
           /\ stored JSON_stringify env (snd r) (JArray l))
  /\ (let r := deleteHistoryItem id env in
      gaveUp LogDeleteFailed env r
      \/ exists l, returns r (JArray l)
           /\ stored JSON_stringify env (snd r) (JArray l)).
Proof.
  split; [apply getHistory_keeps_storage |].
  split; [apply save_gave_up_or_stored | apply delete_gave_up_or_stored].
Qed.

Lemma stored_reads_back env env' l :
  getItem_throws = None ->
  stored JSON_stringify env env' (JArray l) ->
  (forall out, JSON_stringify (JArray l) = inr out ->
     out ≠ [] /\ JSON_parse out = inr (JArray l)) ->
  returns (getHistory env') (JArray l).
Proof.
  intros Hget (out & Hout & Hst) Hinv.
  destruct (Hinv out Hout) as [Hne Hparse].
  destruct out as [| c text]; [done |].
  unfold returns.
  rewrite (getHistory_reads env' c text (JArray l)); try done.
  rewrite Hst. apply lookup_insert_eq.
Qed.

(** What a writer returns is what the next read returns.  With a storage
    that can be read, and a parser that gives back the list from the text
    the serialiser made of it, a non-empty list returned by
    [saveHistoryItem] or [deleteHistoryItem] is the list [getHistory]
    returns right after. *)
Theorem written_history_reads_back env query steps id l :
  getItem_throws = None ->
  l ≠ [] ->
  (forall out, JSON_stringify (JArray l) = inr out ->
     out ≠ [] /\ JSON_parse out = inr (JArray l)) ->
  (returns (saveHistoryItem query steps env) (JArray l) ->
   returns (getHistory (snd (saveHistoryItem query steps env))) (JArray l))
  /\ (returns (deleteHistoryItem id env) (JArray l) ->
      returns (getHistory (snd (deleteHistoryItem id env))) (JArray l)).
Proof.
  intros Hget Hl Hinv. split; intros Hret.
  - destruct (save_gave_up_or_stored env query steps)
      as [(Hnil & _) | (l' & Hret' & _ & Hst)].
    + unfold returns in Hret. rewrite Hnil in Hret. congruence.
    + unfold returns in Hret, Hret'. rewrite Hret in Hret'.
      injection Hret' as <-. by apply (stored_reads_back env).
  - destruct (delete_gave_up_or_stored env id)
      as [(Hnil & _) | (l' & Hret' & Hst)].
    + unfold returns in Hret. rewrite Hnil in Hret. congruence.
    + unfold returns in Hret, Hret'. rewrite Hret in Hret'.
      injection Hret' as <-. by apply (stored_reads_back env).
Qed.

End Service.

(** C10 as it is written fails for [saveHistoryItem] when what is stored
    does not parse: [getHistory] has already swallowed the failure, and the
    call returns the one-item list, not the empty list. *)
Lemma save_after_a_failed_parse_returns_the_new_item :
  let result :=
    saveHistoryItem None (fun _ => None) Demo.parseOnlyEmpty
      Demo.stringifyCount Demo.clockAt Demo.stamp (fun s => s)
      (lit "boil an egg") (JArray []) Demo.corrupted in
  Demo.parseOnlyEmpty (lit "{oops") = inl (Error "Unexpected token")
  /\ fst result =
     inr (JArray
            [newItem Demo.clockAt Demo.stamp (lit "boil an egg") (JArray []) 0])
  /\ fst result ≠ inr (JArray [])
  /\ localStorage (snd result) !! STORAGE_KEY = Some (lit "[*]").
Proof. vm_compute. repeat split. discriminate. Qed.

(** Saving "boil an egg" over a history that has "Boil An Egg" and
    "Fry an egg". *)
Lemma save_puts_the_query_first_witness :
  returns
    (saveHistoryItem None (fun _ => None) Demo.parseTwoEntries
       Demo.stringifyCount Demo.clockAt Demo.stamp Demo.lowerAscii
       (lit "boil an egg") (JArray []) Demo.readable)
    (JArray [newItem Demo.clockAt Demo.stamp (lit "boil an egg") (JArray []) 0;
             Demo.entry "Fry an egg"]).
Proof.
  destruct (save_puts_the_query_first None (fun _ => None)
              Demo.parseTwoEntries Demo.stringifyCount Demo.clockAt Demo.stamp
              Demo.lowerAscii Demo.readable (lit "boil an egg") (JArray [])
              91%N (lit "**]") Demo.twoEntries (lit "[**]")
              eq_refl eq_refl eq_refl) as [Hret _].
  - repeat constructor; by eexists.
  - reflexivity.
  - reflexivity.
  - exact Hret.
Defined.

(** A storage that is full, holding text that does not parse: reading
    gives the empty list, and so does saving.  So does saving into a
    storage that would still take two code units but not the text of the
    new list. *)
Lemma history_operations_never_throw_witness :
  returns (getHistory None Demo.parseOnlyEmpty Demo.corrupted) (JArray [])
  /\ returns
       (saveHistoryItem None (fun _ => Some (Error "QuotaExceededError"))
          Demo.parseOnlyEmpty Demo.stringifyCount Demo.clockAt Demo.stamp
          (fun s => s) (lit "boil an egg") (JArray []) Demo.corrupted)
       (JArray [])
  /\ Demo.rejectLong (lit "[]") = None
  /\ returns
       (saveHistoryItem None Demo.rejectLong
          Demo.parseOnlyEmpty Demo.stringifyCount Demo.clockAt Demo.stamp
          (fun s => s) (lit "boil an egg") (JArray []) Demo.corrupted)
       (JArray []).
Proof.
  destruct (history_operations_never_throw None
              (fun _ => Some (Error "QuotaExceededError"))
              Demo.parseOnlyEmpty Demo.stringifyCount Demo.clockAt Demo.stamp
              (fun s => s) Demo.corrupted (lit "boil an egg") (JArray [])
              (lit "1")) as (_ & _ & _ & Hread & Hwrite & _).
  destruct (history_operations_never_throw None Demo.rejectLong
              Demo.parseOnlyEmpty Demo.stringifyCount Demo.clockAt Demo.stamp
              (fun s => s) Demo.corrupted (lit "boil an egg") (JArray [])
              (lit "1")) as (_ & _ & _ & _ & _ & _ & _ & Hsave & _).
  split; [| split; [| split]].
  - apply Hread. left. right.
    exists 123%N, (lit "oops"), (Error "Unexpected token"). by split.
  - apply Hwrite. intros value. by eexists.
  - reflexivity.
  - destruct (Hsave
                [newItem Demo.clockAt Demo.stamp (lit "boil an egg")
                   (JArray []) 0]
                (lit "[*]")
                (mkEnv {[ STORAGE_KEY := lit "{oops" ]} 2
                   [LogLoadFailed (Error "Unexpected token")])
                eq_refl) as [Hfails _].
    apply Hfails. by eexists.
Defined.

(** Deleting id "17" from a history that holds "17" and "18". *)
Lemma delete_removes_exactly_the_id_witness :
  returns
    (deleteHistoryItem None (fun _ => None) Demo.parseTwoIds
       Demo.stringifyCount (lit "17") Demo.readable)
    (JArray [Demo.entryWithId "18"]).
Proof.
  destruct (delete_removes_exactly_the_id None (fun _ => None)
              Demo.parseTwoIds Demo.stringifyCount Demo.readable (lit "17")
              91%N (lit "**]")
              [Demo.entryWithId "17"; Demo.entryWithId "18"] (lit "[*]")
              eq_refl eq_refl eq_refl) as [Hret _].
  - repeat constructor; discriminate.
  - reflexivity.
  - reflexivity.
  - exact Hret.
Defined.

(** Saving into an empty storage, then reading. *)
Lemma written_history_reads_back_witness :
  let saved :=
    saveHistoryItem None (fun _ => None) Demo.parseOneSaved
      Demo.stringifyCount Demo.clockAt Demo.stamp Demo.lowerAscii
      (lit "boil an egg") (JArray []) Demo.empty in
  returns (getHistory None Demo.parseOneSaved (snd saved))
    (JArray [newItem Demo.clockAt Demo.stamp (lit "boil an egg") (JArray []) 0]).
Proof.
  intros saved.
  destruct (written_history_reads_back None (fun _ => None)
              Demo.parseOneSaved Demo.stringifyCount Demo.clockAt Demo.stamp
              Demo.lowerAscii Demo.empty (lit "boil an egg") (JArray [])
              (lit "1")
              [newItem Demo.clockAt Demo.stamp (lit "boil an egg") (JArray []) 0]
              eq_refl) as [Hsave _].
  - discriminate.
  - intros out [= <-]. split; [discriminate | reflexivity].
  - apply Hsave. reflexivity.
Defined.

End StorageSpec.

Module StepControlsSpec.

Import StepControls.

Local Open Scope Z_scope.

Lemma onClick_in_range b isExporting len p :
  0 ≤ p < len -> 0 ≤ onClick b isExporting len p < len.
Proof. intros Hp. unfold onClick. destruct isExporting, b; lia. Qed.

(** The step index never leaves the list.  Starting from a valid index,
    whatever buttons are clicked and whether or not an export is running,
    the index stays valid.  A button is disabled exactly where its
    handler would leave the index as it is; an enabled button moves the
    index by one; and during an export the handlers do nothing. *)
Theorem navigation_stays_within_the_steps bs isExporting len p :
  0 ≤ p < len ->
  0 ≤ clicks bs isExporting len p < len
  /\ (forall b, disabled b p len = true <-> onClick b false len p = p)
  /\ (forall b, disabled b p len = false ->
        onClick b false len p = match b with Prev => p - 1 | Next => p + 1 end)
  /\ (forall b, onClick b true len p = p).
Proof.
  intros Hp. split; [| split; [| split]].
  - unfold clicks. revert p Hp. induction bs as [| b bs IH]; intros p Hp;
      [done |].
    cbn [foldl]. apply IH. by apply onClick_in_range.
  - intros [|]; unfold disabled, onClick; rewrite Z.eqb_eq; lia.
  - intros [|]; unfold disabled, onClick; rewrite Z.eqb_neq; lia.
  - by intros [|].
Qed.

(** Three steps: forward three times and back once ends on the second. *)
Lemma navigation_stays_within_the_steps_witness :
  0 ≤ clicks [Next; Next; Next; Prev] false 3 0 < 3.
Proof.
  apply (navigation_stays_within_the_steps [Next; Next; Next; Prev] false 3 0).
  lia.
Defined.

End StepControlsSpec.
